(** * The crawl core of ScrapeGoat: a shallow embedding and its properties

    The Go sources covered are [internal/engine] (frontier, deduplicator,
    engine, scheduler), [internal/fetcher/http.go] and [internal/types].
    Mutable objects are passed as explicit state; the network and the
    clock are inputs.  The functions of the Go standard library that the
    code calls are embedded next to it (Go 1.22, 64-bit [int]). *)

From Stdlib Require Import ZArith NArith Lia Bool Ascii String.
From stdpp Require Import base list sorting strings gmap.

(** * Go strings

    A Go string is an immutable sequence of bytes; it is modelled as a list
    of [ascii] (one [ascii] is one byte), so that slicing [s[i:j]] is
    [take]/[drop] and concatenation is [++]. *)
Abbreviation gostring := (list ascii).

Definition str (s : string) : gostring := list_ascii_of_string s.

Definition byte_val (c : ascii) : N := N_of_ascii c.

(** The functions of the Go standard library that the crawler calls but
    whose tables or algorithms are outside the repository. *)
Class GoLib := {
  (* strings.Map(unicode.ToLower, s): the path of strings.ToLower taken for
     a string that has a byte >= 0x80 *)
  unicode_ToLower : gostring → gostring;
  (* crypto/sha256.Sum256: the 32-byte digest *)
  sha256_Sum256 : gostring → gostring;
  (* net/http.ParseTime, the instant as nanoseconds since the Unix epoch *)
  http_ParseTime : gostring → option Z;
}.

Module strings.

Definition HasPrefix (s prefix : gostring) : bool :=
  (length prefix <=? length s) && bool_decide (take (length prefix) s = prefix).

Definition HasSuffix (s suffix : gostring) : bool :=
  (length suffix <=? length s) &&
  bool_decide (drop (length s - length suffix) s = suffix).

Fixpoint Index (s substr : gostring) : option nat :=
  if HasPrefix s substr then Some 0
  else match s with
       | [] => None
       | _ :: s' => S <$> Index s' substr
       end.

Fixpoint LastIndex (s substr : gostring) : option nat :=
  match s with
  | [] => if HasPrefix [] substr then Some 0 else None
  | _ :: s' =>
      match LastIndex s' substr with
      | Some i => Some (S i)
      | None => if HasPrefix s substr then Some 0 else None
      end
  end.

Definition Contains (s substr : gostring) : bool :=
  bool_decide (is_Some (Index s substr)).

(* strings.Count with a one-byte separator *)
Definition CountByte (s : gostring) (c : ascii) : nat :=
  length (filter (λ x, x = c) s).

Definition Cut (s sep : gostring) : gostring * gostring * bool :=
  match Index s sep with
  | Some i => (take i s, drop (i + length sep) s, true)
  | None => (s, [], false)
  end.

(* strings.TrimRight for a cutset of ASCII bytes *)
Fixpoint TrimRight (s cutset : gostring) : gostring :=
  match s with
  | [] => []
  | c :: s' =>
      match TrimRight s' cutset with
      | [] => if bool_decide (c ∈ cutset) then [] else [c]
      | t => c :: t
      end
  end.

Definition isASCII (s : gostring) : bool :=
  forallb (λ c, (byte_val c <? 128)%N) s.

Definition lowerByte (c : ascii) : ascii :=
  if ((65 <=? byte_val c) && (byte_val c <=? 90))%N
  then ascii_of_N (byte_val c + 32) else c.

Definition ToLower `{GoLib} (s : gostring) : gostring :=
  if isASCII s then lowerByte <$> s else unicode_ToLower s.

(* the white space of unicode.IsSpace, as UTF-8 byte sequences: the six
   ASCII bytes, U+0085, U+00A0, U+1680, U+2000..U+200A, U+2028, U+2029,
   U+202F, U+205F and U+3000 *)
Definition spaces : list gostring :=
  ((λ n, [ascii_of_N n]) <$> [9; 10; 11; 12; 13; 32]%N) ++
  ((λ n, [ascii_of_N 194; ascii_of_N n]) <$> [133; 160]%N) ++
  [[ascii_of_N 225; ascii_of_N 154; ascii_of_N 128]] ++
  ((λ n, [ascii_of_N 226; ascii_of_N 128; ascii_of_N n]) <$>
     [128; 129; 130; 131; 132; 133; 134; 135; 136; 137; 138; 168; 169; 175]%N) ++
  [[ascii_of_N 226; ascii_of_N 129; ascii_of_N 159];
   [ascii_of_N 227; ascii_of_N 128; ascii_of_N 128]].

Fixpoint trimLeading (fuel : nat) (cutset : list gostring) (s : gostring)
  : gostring :=
  match fuel with
  | O => s
  | S fuel' =>
      match list_find (λ sp, HasPrefix s sp = true) cutset with
      | Some (_, sp) => trimLeading fuel' cutset (drop (length sp) s)
      | None => s
      end
  end.

(* strings.TrimSpace; a trailing white-space rune of s is a leading one
   of the reversed string, with its own bytes reversed *)
Definition TrimSpace (s : gostring) : gostring :=
  let l := trimLeading (length s) spaces s in
  reverse (trimLeading (length l) (reverse <$> spaces) (reverse l)).

(* strings.Split with a one-byte separator; [cur] holds the bytes of the
   current piece, last byte first *)
Fixpoint SplitByte (cur : gostring) (s : gostring) (sep : ascii) : list gostring :=
  match s with
  | [] => [reverse cur]
  | c :: s' =>
      if bool_decide (c = sep) then reverse cur :: SplitByte [] s' sep
      else SplitByte (c :: cur) s' sep
  end.

Fixpoint Join (elems : list gostring) (sep : gostring) : gostring :=
  match elems with
  | [] => []
  | [e] => e
  | e :: rest => e ++ sep ++ Join rest sep
  end.

End strings.

(** * net/url (Go 1.22, the toolchain of the repository's Dockerfile) *)
Module url.

Inductive encoding :=
| encodePath | encodePathSegment | encodeHost | encodeZone
| encodeUserPassword | encodeQueryComponent | encodeFragment.

Global Instance encoding_eq_dec : EqDecision encoding.
Proof. solve_decision. Defined.

Definition isAlnum (c : ascii) : bool :=
  let n := byte_val c in
  ((97 <=? n) && (n <=? 122) || (65 <=? n) && (n <=? 90) ||
   (48 <=? n) && (n <=? 57))%N.

Definition ishex (c : ascii) : bool :=
  let n := byte_val c in
  ((48 <=? n) && (n <=? 57) || (97 <=? n) && (n <=? 102) ||
   (65 <=? n) && (n <=? 70))%N.

Definition unhex (c : ascii) : N :=
  let n := byte_val c in
  if ((48 <=? n) && (n <=? 57))%N then n - 48
  else if ((97 <=? n) && (n <=? 102))%N then n - 97 + 10
  else if ((65 <=? n) && (n <=? 70))%N then n - 65 + 10
  else 0.

Definition upperhex (n : N) : ascii :=
  if (n <? 10)%N then ascii_of_N (48 + n) else ascii_of_N (65 + (n - 10)).

Definition mem (c : ascii) (set : string) : bool :=
  bool_decide (c ∈ str set).

Definition shouldEscape (c : ascii) (mode : encoding) : bool :=
  if isAlnum c then false
  else if (bool_decide (mode = encodeHost) || bool_decide (mode = encodeZone))
          && (mem c "!$&'()*+,;=:[]<>" || (byte_val c =? 34)%N) then false
  else if mem c "-_.~" then false
  else if mem c "$&+,/:;=?@" then
    match mode with
    | encodePath => bool_decide (c = "?"%char)
    | encodePathSegment => mem c "/;,?"
    | encodeUserPassword => mem c "@/?:"
    | encodeQueryComponent => true
    | encodeFragment => false
    | _ => true
    end
  else if bool_decide (mode = encodeFragment) && mem c "!()*" then false
  else true.

Fixpoint unescape_ok (mode : encoding) (s : gostring) : bool :=
  match s with
  | [] => true
  | "%"%char :: t =>
      match t with
      | a :: b :: rest =>
          ishex a && ishex b &&
          negb (bool_decide (mode = encodeHost) && (unhex a <? 8)%N &&
                negb (bool_decide (a = "2"%char ∧ b = "5"%char))) &&
          negb (bool_decide (mode = encodeZone) &&
                negb (bool_decide (a = "2"%char ∧ b = "5"%char)) &&
                negb (bool_decide (ascii_of_N (unhex a * 16 + unhex b) = " "%char)) &&
                shouldEscape (ascii_of_N (unhex a * 16 + unhex b)) encodeHost) &&
          unescape_ok mode rest
      | _ => false
      end
  | c :: t =>
      negb ((bool_decide (mode = encodeHost) || bool_decide (mode = encodeZone)) &&
            (byte_val c <? 128)%N && shouldEscape c encodeHost) &&
      unescape_ok mode t
  end.

Fixpoint unescape_bytes (mode : encoding) (s : gostring) : gostring :=
  match s with
  | [] => []
  | "%"%char :: a :: b :: rest =>
      ascii_of_N (unhex a * 16 + unhex b) :: unescape_bytes mode rest
  | "+"%char :: t =>
      (if bool_decide (mode = encodeQueryComponent) then " "%char else "+"%char)
        :: unescape_bytes mode t
  | c :: t => c :: unescape_bytes mode t
  end.

Definition unescape (s : gostring) (mode : encoding) : option gostring :=
  if unescape_ok mode s then Some (unescape_bytes mode s) else None.

Definition escape_byte (mode : encoding) (c : ascii) : gostring :=
  if shouldEscape c mode then
    if bool_decide (c = " "%char) && bool_decide (mode = encodeQueryComponent)
    then ["+"%char]
    else ["%"%char; upperhex (N.shiftr (byte_val c) 4);
          upperhex (N.land (byte_val c) 15)]
  else [c].

Definition escape (s : gostring) (mode : encoding) : gostring :=
  mbind (escape_byte mode) s.

Definition QueryUnescape (s : gostring) : option gostring :=
  unescape s encodeQueryComponent.

Definition QueryEscape (s : gostring) : gostring :=
  escape s encodeQueryComponent.

Record Userinfo := mkUserinfo {
  username : gostring;
  password : gostring;
  passwordSet : bool;
}.

Record URL := mkURL {
  Scheme : gostring;
  Opaque : gostring;
  User : option Userinfo;
  Host : gostring;
  Path : gostring;
  RawPath : gostring;
  OmitHost : bool;
  ForceQuery : bool;
  RawQuery : gostring;
  Fragment : gostring;
  RawFragment : gostring;
}.

Definition empty : URL :=
  mkURL [] [] None [] [] [] false false [] [] [].

Definition with_Scheme (u : URL) (v : gostring) : URL :=
  mkURL v (Opaque u) (User u) (Host u) (Path u) (RawPath u) (OmitHost u)
        (ForceQuery u) (RawQuery u) (Fragment u) (RawFragment u).
Definition with_Host (u : URL) (v : gostring) : URL :=
  mkURL (Scheme u) (Opaque u) (User u) v (Path u) (RawPath u) (OmitHost u)
        (ForceQuery u) (RawQuery u) (Fragment u) (RawFragment u).
Definition with_Path (u : URL) (v : gostring) : URL :=
  mkURL (Scheme u) (Opaque u) (User u) (Host u) v (RawPath u) (OmitHost u)
        (ForceQuery u) (RawQuery u) (Fragment u) (RawFragment u).
Definition with_RawQuery (u : URL) (v : gostring) : URL :=
  mkURL (Scheme u) (Opaque u) (User u) (Host u) (Path u) (RawPath u) (OmitHost u)
        (ForceQuery u) v (Fragment u) (RawFragment u).
Definition with_Fragment (u : URL) (v : gostring) : URL :=
  mkURL (Scheme u) (Opaque u) (User u) (Host u) (Path u) (RawPath u) (OmitHost u)
        (ForceQuery u) (RawQuery u) v (RawFragment u).

Definition stringContainsCTLByte (s : gostring) : bool :=
  existsb (λ c, (byte_val c <? 32)%N || (byte_val c =? 127)%N) s.

Definition isLetter (c : ascii) : bool :=
  let n := byte_val c in
  ((97 <=? n) && (n <=? 122) || (65 <=? n) && (n <=? 90))%N.

Definition isSchemeRest (c : ascii) : bool :=
  let n := byte_val c in
  ((48 <=? n) && (n <=? 57))%N || mem c "+-.".

(* The scan of getScheme from byte [i] on: [pre] is rawURL[:i] reversed. *)
Fixpoint getScheme_loop (rawURL : gostring) (i : nat) (s : gostring)
  : option (gostring * gostring) :=
  match s with
  | [] => Some ([], rawURL)
  | c :: s' =>
      if isLetter c then getScheme_loop rawURL (S i) s'
      else if isSchemeRest c then
        if (i =? 0)%nat then Some ([], rawURL)
        else getScheme_loop rawURL (S i) s'
      else if bool_decide (c = ":"%char) then
        if (i =? 0)%nat then None
        else Some (take i rawURL, drop (i + 1) rawURL)
      else Some ([], rawURL)
  end.

Definition getScheme (rawURL : gostring) : option (gostring * gostring) :=
  getScheme_loop rawURL 0 rawURL.

Definition validOptionalPort (port : gostring) : bool :=
  match port with
  | [] => true
  | c :: digits =>
      bool_decide (c = ":"%char) &&
      forallb (λ b, (48 <=? byte_val b)%N && (byte_val b <=? 57)%N) digits
  end.

Definition validUserinfo (s : gostring) : bool :=
  forallb (λ r, isAlnum r || mem r "-._:~!$&'()*+,;=%@") s.

Definition parseHost (host : gostring) : option gostring :=
  if strings.HasPrefix host (str "[") then
    match strings.LastIndex host (str "]") with
    | None => None
    | Some i =>
        let colonPort := drop (i + 1) host in
        if negb (validOptionalPort colonPort) then None
        else
          match strings.Index (take i host) (str "%25") with
          | Some zone =>
              host1 ← unescape (take zone host) encodeHost;
              host2 ← unescape (drop zone (take i host)) encodeZone;
              host3 ← unescape (drop i host) encodeHost;
              Some (host1 ++ host2 ++ host3)
          | None => unescape host encodeHost
          end
    end
  else
    match strings.LastIndex host (str ":") with
    | Some i =>
        if negb (validOptionalPort (drop i host)) then None
        else unescape host encodeHost
    | None => unescape host encodeHost
    end.

Definition parseAuthority (authority : gostring)
  : option (option Userinfo * gostring) :=
  match strings.LastIndex authority (str "@") with
  | None => host ← parseHost authority; Some (None, host)
  | Some i =>
      host ← parseHost (drop (i + 1) authority);
      let userinfo := take i authority in
      if negb (validUserinfo userinfo) then None
      else if negb (strings.Contains userinfo (str ":")) then
        userinfo' ← unescape userinfo encodeUserPassword;
        Some (Some (mkUserinfo userinfo' [] false), host)
      else
        let '(username, password, _) := strings.Cut userinfo (str ":") in
        username' ← unescape username encodeUserPassword;
        password' ← unescape password encodeUserPassword;
        Some (Some (mkUserinfo username' password' true), host)
  end.

Definition setPath (u : URL) (p : gostring) : option URL :=
  path ← unescape p encodePath;
  let escp := escape path encodePath in
  Some (mkURL (Scheme u) (Opaque u) (User u) (Host u) path
              (if bool_decide (p = escp) then [] else p)
              (OmitHost u) (ForceQuery u) (RawQuery u) (Fragment u)
              (RawFragment u)).

Definition setFragment (u : URL) (f : gostring) : option URL :=
  frag ← unescape f encodeFragment;
  let escf := escape frag encodeFragment in
  Some (mkURL (Scheme u) (Opaque u) (User u) (Host u) (Path u) (RawPath u)
              (OmitHost u) (ForceQuery u) (RawQuery u) frag
              (if bool_decide (f = escf) then [] else f)).

(* the query is split off; a final "?" that is the only one sets ForceQuery *)
Definition splitQuery (rest : gostring) : gostring * gostring * bool :=
  if strings.HasSuffix rest (str "?") && (strings.CountByte rest "?"%char =? 1)
  then (take (length rest - 1) rest, [], true)
  else let '(r, q, _) := strings.Cut rest (str "?") in (r, q, false).

(* rest starts with "//": the authority runs to the next "/" *)
Definition splitAuthority (rest : gostring) : gostring * gostring :=
  let authority := drop 2 rest in
  match strings.Index authority (str "/") with
  | Some i => (take i authority, drop i authority)
  | None => (authority, [])
  end.

(* parse(rawURL, viaRequest = false) *)
Definition parse `{GoLib} (rawURL : gostring) : option URL :=
  if stringContainsCTLByte rawURL then None
  else if bool_decide (rawURL = str "*") then Some (with_Path empty (str "*"))
  else
    '(scheme, rest) ← getScheme rawURL;
    let scheme := strings.ToLower scheme in
    let '(rest, rawquery, forcequery) := splitQuery rest in
    let url := mkURL scheme [] None [] [] [] false forcequery rawquery [] [] in
    if negb (strings.HasPrefix rest (str "/")) && negb (bool_decide (scheme = []))
    then Some (mkURL scheme rest None [] [] [] false forcequery rawquery [] [])
    else if negb (strings.HasPrefix rest (str "/")) &&
            strings.Contains (strings.Cut rest (str "/")).1.1 (str ":")
    then None
    else if (negb (bool_decide (scheme = [])) ||
             negb (strings.HasPrefix rest (str "///"))) &&
            strings.HasPrefix rest (str "//")
    then
      let '(authority, rest) := splitAuthority rest in
      '(user, host) ← parseAuthority authority;
      setPath (mkURL scheme [] user host [] [] false forcequery rawquery [] [])
              rest
    else if negb (bool_decide (scheme = [])) && strings.HasPrefix rest (str "/")
    then setPath (mkURL scheme [] None [] [] [] true forcequery rawquery [] [])
                 rest
    else setPath url rest.

Definition Parse `{GoLib} (rawURL : gostring) : option URL :=
  let '(u, frag, _) := strings.Cut rawURL (str "#") in
  url ← parse u;
  if bool_decide (frag = []) then Some url
  else setFragment url frag.

Definition validEncoded (s : gostring) (mode : encoding) : bool :=
  forallb (λ c, mem c "!$&'()*+,;=:@[]%" || negb (shouldEscape c mode)) s.

Definition EscapedPath (u : URL) : gostring :=
  if negb (bool_decide (RawPath u = [])) && validEncoded (RawPath u) encodePath
     && bool_decide (unescape (RawPath u) encodePath = Some (Path u))
  then RawPath u
  else if bool_decide (Path u = str "*") then str "*"
  else escape (Path u) encodePath.

Definition EscapedFragment (u : URL) : gostring :=
  if negb (bool_decide (RawFragment u = [])) &&
     validEncoded (RawFragment u) encodeFragment
     && bool_decide (unescape (RawFragment u) encodeFragment = Some (Fragment u))
  then RawFragment u
  else escape (Fragment u) encodeFragment.

Definition Userinfo_String (ui : Userinfo) : gostring :=
  escape (username ui) encodeUserPassword ++
  (if passwordSet ui then str ":" ++ escape (password ui) encodeUserPassword
   else []).

Definition URL_String (u : URL) : gostring :=
  let buf := if bool_decide (Scheme u = []) then [] else Scheme u ++ str ":" in
  let buf :=
    if negb (bool_decide (Opaque u = [])) then buf ++ Opaque u
    else
      let buf :=
        if negb (bool_decide (Scheme u = [])) || negb (bool_decide (Host u = []))
           || bool_decide (is_Some (User u))
        then
          if OmitHost u && bool_decide (Host u = []) &&
             negb (bool_decide (is_Some (User u)))
          then buf
          else
            let buf :=
              if negb (bool_decide (Host u = [])) ||
                 negb (bool_decide (Path u = [])) ||
                 bool_decide (is_Some (User u))
              then buf ++ str "//" else buf in
            let buf :=
              match User u with
              | Some ui => buf ++ Userinfo_String ui ++ str "@"
              | None => buf
              end in
            if negb (bool_decide (Host u = []))
            then buf ++ escape (Host u) encodeHost else buf
        else buf in
      let path := EscapedPath u in
      let buf :=
        if negb (bool_decide (path = [])) &&
           negb (strings.HasPrefix path (str "/")) &&
           negb (bool_decide (Host u = []))
        then buf ++ str "/" else buf in
      let buf :=
        if bool_decide (buf = []) &&
           strings.Contains (strings.Cut path (str "/")).1.1 (str ":")
        then buf ++ str "./" else buf in
      buf ++ path in
  let buf :=
    if ForceQuery u || negb (bool_decide (RawQuery u = []))
    then buf ++ str "?" ++ RawQuery u else buf in
  if negb (bool_decide (Fragment u = []))
  then buf ++ str "#" ++ EscapedFragment u else buf.

Definition splitHostPort (hostPort : gostring) : gostring * gostring :=
  let '(host, port) :=
    match strings.LastIndex hostPort (str ":") with
    | Some colon =>
        if validOptionalPort (drop colon hostPort)
        then (take colon hostPort, drop (colon + 1) hostPort)
        else (hostPort, [])
    | None => (hostPort, [])
    end in
  let host :=
    if strings.HasPrefix host (str "[") && strings.HasSuffix host (str "]")
    then take (length host - 2) (drop 1 host) else host in
  (host, port).

Definition Hostname (u : URL) : gostring := (splitHostPort (Host u)).1.
Definition Port (u : URL) : gostring := (splitHostPort (Host u)).2.

(** url.Values: the keys in order of first appearance, each with its
    values in order of appearance. *)
Abbreviation Values := (list (gostring * list gostring)).

Fixpoint Values_add (m : Values) (key value : gostring) : Values :=
  match m with
  | [] => [(key, [value])]
  | (k, vs) :: m' =>
      if bool_decide (k = key) then (k, vs ++ [value]) :: m'
      else (k, vs) :: Values_add m' key value
  end.

(* the loop of parseQuery; the error it accumulates is dropped by Query() *)
Fixpoint parseQuery_pairs (m : Values) (pairs : list gostring) : Values :=
  match pairs with
  | [] => m
  | key :: rest =>
      if strings.Contains key (str ";") then parseQuery_pairs m rest
      else if bool_decide (key = []) then parseQuery_pairs m rest
      else
        let '(k, v, _) := strings.Cut key (str "=") in
        match QueryUnescape k with
        | None => parseQuery_pairs m rest
        | Some k' =>
            match QueryUnescape v with
            | None => parseQuery_pairs m rest
            | Some v' => parseQuery_pairs (Values_add m k' v') rest
            end
        end
  end.

(* the map indexing [params[k]]; a missing key gives the nil slice *)
Fixpoint Values_lookup (m : Values) (key : gostring) : list gostring :=
  match m with
  | [] => []
  | (k, vs) :: m' => if bool_decide (k = key) then vs else Values_lookup m' key
  end.

(* The loop of parseQuery takes the pieces between the "&" one by one with
   strings.Cut(query, "&"); they are the pieces of strings.Split, a last
   empty piece being skipped like any empty one. *)
Definition ParseQuery (query : gostring) : Values :=
  parseQuery_pairs [] (strings.SplitByte [] query "&"%char).

Definition Query (u : URL) : Values := ParseQuery (RawQuery u).

End url.

Module sort.
Fixpoint str_leb (a b : gostring) : bool :=
  match a, b with
  | [], _ => true
  | _ :: _, [] => false
  | x :: a', y :: b' =>
      if (byte_val x <? byte_val y)%N then true
      else if (byte_val y <? byte_val x)%N then false
      else str_leb a' b'
  end.

Definition str_le (a b : gostring) : Prop := Is_true (str_leb a b).

Global Instance str_le_dec : RelDecision str_le.
Proof. intros a b. unfold str_le. apply _. Defined.

(* sort.Strings: ascending bytewise order *)
Definition Strings (l : list gostring) : list gostring := merge_sort str_le l.
End sort.


(** * Machine integers: Go [int] and [int64] are 64 bits wide *)
Module int64.
Definition min : Z := - 2 ^ 63.
Definition max : Z := 2 ^ 63 - 1.
Definition in_range (z : Z) : Prop := (min ≤ z ≤ max)%Z.
Definition wrap (z : Z) : Z := ((z + 2 ^ 63) mod 2 ^ 64 - 2 ^ 63)%Z.
Definition add (a b : Z) : Z := wrap (a + b).
Definition mul (a b : Z) : Z := wrap (a * b).
End int64.

Module strconv.

Definition isDigit (c : ascii) : bool :=
  ((48 <=? byte_val c) && (byte_val c <=? 57))%N.

Definition digits_value (ds : gostring) : Z :=
  fold_left (λ n ch, (n * 10 + Z.of_N (byte_val ch - 48))%Z) ds 0%Z.

(* strconv.Atoi: an optional sign, at least one decimal digit, and a
   value that fits int; anything else is an error *)
Definition Atoi (s : gostring) : option Z :=
  let '(neg, ds) :=
    match s with
    | c :: rest =>
        if bool_decide (c = "-"%char) then (true, rest)
        else if bool_decide (c = "+"%char) then (false, rest)
        else (false, s)
    | [] => (false, s)
    end in
  if bool_decide (ds = []) || negb (forallb isDigit ds) then None
  else
    let v := if neg then (- digits_value ds)%Z else digits_value ds in
    if bool_decide (int64.min ≤ v ≤ int64.max)%Z then Some v else None.

End strconv.

(** time.Duration is an int64 count of nanoseconds. *)
Module time.
Definition Nanosecond : Z := 1.
Definition Second : Z := 1000000000.
Definition Minute : Z := 60 * Second.

(* time.Until(t) = t.Sub(time.Now()), which saturates *)
Definition Until (now t : Z) : Z :=
  let d := (t - now)%Z in
  if (d <? int64.min)%Z then int64.min
  else if (int64.max <? d)%Z then int64.max
  else d.
(* the zero Time, January 1 of year 1, in nanoseconds before the Unix epoch *)
Definition zeroTime : Z := (-62135596800) * Second.

(* time.Since(t) = time.Now().Sub(t), which saturates *)
Definition Since (now t : Z) : Z :=
  let d := (now - t)%Z in
  if (d <? int64.min)%Z then int64.min
  else if (int64.max <? d)%Z then int64.max
  else d.
End time.

(** * internal/types *)
Module types.

Definition PriorityHighest : Z := 0.
Definition PriorityHigh : Z := 1.
Definition PriorityNormal : Z := 2.
Definition PriorityLow : Z := 3.

(* The fields of Request that the crawl core reads or writes; Headers,
   Body, Meta, Callbacks, CreatedAt and ID are left out. *)
Record Request := mkRequest {
  URL : option url.URL;
  Method : gostring;
  Depth : Z;
  Priority : Z;
  MaxRetries : Z;
  RetryCount : Z;
  Timeout : Z;
  Tag : gostring;
  FetcherType : gostring;
  ParentURL : gostring;
}.

Definition NewRequest `{GoLib} (rawURL : gostring) : option Request :=
  u ← url.Parse rawURL;
  Some {| URL := Some u; Method := str "GET"; Depth := 0;
          Priority := PriorityNormal; MaxRetries := 3; RetryCount := 0;
          Timeout := 0; Tag := []; FetcherType := str "http";
          ParentURL := [] |}.

Definition URLString (r : Request) : gostring :=
  match URL r with
  | None => []
  | Some u => url.URL_String u
  end.

Definition Domain (r : Request) : gostring :=
  match URL r with
  | None => []
  | Some u => url.Hostname u
  end.

Definition with_Priority (r : Request) (v : Z) : Request :=
  mkRequest (URL r) (Method r) (Depth r) v (MaxRetries r) (RetryCount r)
            (Timeout r) (Tag r) (FetcherType r) (ParentURL r).
Definition with_RetryCount (r : Request) (v : Z) : Request :=
  mkRequest (URL r) (Method r) (Depth r) (Priority r) (MaxRetries r) v
            (Timeout r) (Tag r) (FetcherType r) (ParentURL r).
Definition with_Depth (r : Request) (v : Z) : Request :=
  mkRequest (URL r) (Method r) v (Priority r) (MaxRetries r) (RetryCount r)
            (Timeout r) (Tag r) (FetcherType r) (ParentURL r).
Definition with_ParentURL (r : Request) (v : gostring) : Request :=
  mkRequest (URL r) (Method r) (Depth r) (Priority r) (MaxRetries r)
            (RetryCount r) (Timeout r) (Tag r) (FetcherType r) v.

Record Response := mkResponse {
  StatusCode : Z;
  Body : gostring;
  ContentLength : Z;
  FinalURL : gostring;
  Request_of : Request;
}.

Record Item := mkItem {
  Item_URL : gostring;
  SpiderName : gostring;
  Item_Depth : Z;
}.

(* FetchError; the wrapped Err is not inspected by the core *)
Record FetchError := mkFetchError {
  FE_URL : gostring;
  FE_StatusCode : Z;
  Retryable : bool;
  RetryAfter : Z;
}.

Definition IsRetryable (e : FetchError) : bool := Retryable e.

(* The error values the admission path returns. *)
Inductive error :=
| ErrBlocked
| ErrMaxDepth
| ErrDuplicate
| ErrInvalidURL (rawURL : gostring)      (* NewRequest: "invalid URL %q: %w" *)
| ErrDomainNotAllowed (domain : gostring) (* "domain %q is not allowed" *)
| ErrCannotStart.                         (* "engine is in state %s, cannot start" *)

(* the status classes of response.go *)
Definition IsSuccess (r : Response) : bool :=
  (200 <=? StatusCode r)%Z && (StatusCode r <? 300)%Z.
Definition IsRedirect (r : Response) : bool :=
  (300 <=? StatusCode r)%Z && (StatusCode r <? 400)%Z.
Definition IsClientError (r : Response) : bool :=
  (400 <=? StatusCode r)%Z && (StatusCode r <? 500)%Z.
Definition IsServerError (r : Response) : bool :=
  (500 <=? StatusCode r)%Z && (StatusCode r <? 600)%Z.

(** bytesReader of response.go and bytesReaderSimple of http.go: the same
    io.Reader over a byte slice. *)
Record bytesReader := mkBytesReader {
  data : gostring;
  pos : nat;
}.

(* Read(p) for a buffer of [plen] bytes: the bytes copied into p[:n],
   whether the error is io.EOF, and the reader afterwards *)
Definition Read (r : bytesReader) (plen : nat) : gostring * bool * bytesReader :=
  if length (data r) <=? pos r then ([], true, r)
  else
    let chunk := take plen (drop (pos r) (data r)) in
    (chunk, false, {| data := data r; pos := pos r + length chunk |}).

End types.

(** * internal/engine: the frontier *)

(** The heap.Interface implementation of frontier.go. *)
Module priorityQueue.

Record pqItem := mkItem {
  request : types.Request;
  priority : Z;
  index : Z;
}.

Abbreviation t := (list pqItem).

Definition set_index (it : pqItem) (i : Z) : pqItem :=
  {| request := request it; priority := priority it; index := i |}.

Definition Len (pq : t) : nat := length pq.

(* Lower priority value = higher priority.  Both indices are in range
   at every call made by container/heap; Go would panic otherwise. *)
Definition Less (pq : t) (i j : nat) : bool :=
  match pq !! i, pq !! j with
  | Some a, Some b => (priority a <? priority b)%Z
  | _, _ => false
  end.

Definition Swap (pq : t) (i j : nat) : t :=
  match pq !! i, pq !! j with
  | Some a, Some b =>
      <[j := set_index a (Z.of_nat j)]> (<[i := set_index b (Z.of_nat i)]> pq)
  | _, _ => pq
  end.

Definition Push (pq : t) (x : pqItem) : t :=
  pq ++ [set_index x (Z.of_nat (length pq))].

(* removes the last item; Go panics on an empty queue *)
Definition Pop (old : t) : option (pqItem * t) :=
  let n := length old in
  match old !! (n - 1) with
  | Some item => Some (set_index item (-1), take (n - 1) old)
  | None => None
  end.

End priorityQueue.

(** container/heap of the Go standard library, over [priorityQueue].
    A loop runs on fuel; [up] and [down] pass enough of it for the loop to
    reach its [break] (the index halves, respectively at least doubles). *)
Module heap.

Fixpoint up_loop (fuel : nat) (h : priorityQueue.t) (j : nat) : priorityQueue.t :=
  match fuel with
  | O => h
  | S fuel' =>
      let i := (j - 1) / 2 in (* parent; Go's (0 - 1) / 2 is 0 as well *)
      if (i =? j) || negb (priorityQueue.Less h j i) then h
      else up_loop fuel' (priorityQueue.Swap h i j) i
  end.

Definition up (h : priorityQueue.t) (j : nat) : priorityQueue.t :=
  up_loop (S j) h j.

Fixpoint down_loop (fuel : nat) (h : priorityQueue.t) (i n : nat)
  : priorityQueue.t :=
  match fuel with
  | O => h
  | S fuel' =>
      let j1 := 2 * i + 1 in
      if n <=? j1 then h
      else
        let j2 := j1 + 1 in
        let j := if (j2 <? n) && priorityQueue.Less h j2 j1 then j2 else j1 in
        if negb (priorityQueue.Less h j i) then h
        else down_loop fuel' (priorityQueue.Swap h i j) j n
  end.

Definition down (h : priorityQueue.t) (i0 n : nat) : priorityQueue.t :=
  down_loop (S n) h i0 n.

Definition Push (h : priorityQueue.t) (x : priorityQueue.pqItem)
  : priorityQueue.t :=
  let h' := priorityQueue.Push h x in
  up h' (priorityQueue.Len h' - 1).

Definition Pop (h : priorityQueue.t)
  : option (priorityQueue.pqItem * priorityQueue.t) :=
  let n := priorityQueue.Len h - 1 in
  priorityQueue.Pop (down (priorityQueue.Swap h 0 n) 0 n).

End heap.

(** The Frontier: its operations run under one mutex, so each is one step
    on the pair of the queue and the closed flag. *)
Module Frontier.

Record t := mk { pq : priorityQueue.t; closed : bool }.

Definition New : t := {| pq := []; closed := false |}.

Definition item_of (req : types.Request) : priorityQueue.pqItem :=
  {| priorityQueue.request := req;
     priorityQueue.priority := types.Priority req;
     priorityQueue.index := 0 |}.

Definition Push (f : t) (req : types.Request) : t :=
  if closed f then f
  else {| pq := heap.Push (pq f) (item_of req); closed := closed f |}.

Definition TryPop (f : t) : option types.Request * t :=
  if priorityQueue.Len (pq f) =? 0 then (None, f)
  else match heap.Pop (pq f) with
       | Some (item, pq') =>
           (Some (priorityQueue.request item), {| pq := pq'; closed := closed f |})
       | None => (None, f)
       end.

Definition Len (f : t) : nat := priorityQueue.Len (pq f).
Definition IsEmpty (f : t) : bool := Len f =? 0.
Definition Close (f : t) : t := {| pq := pq f; closed := true |}.
Definition IsClosed (f : t) : bool := closed f.

Definition Snapshot (f : t) : list types.Request :=
  priorityQueue.request <$> pq f.

Fixpoint Drain_loop (fuel : nat) (h : priorityQueue.t) (requests : list types.Request)
  : list types.Request * priorityQueue.t :=
  match fuel with
  | O => (requests, h)
  | S fuel' =>
      if 0 <? priorityQueue.Len h then
        match heap.Pop h with
        | Some (item, h') =>
            Drain_loop fuel' h' (requests ++ [priorityQueue.request item])
        | None => (requests, h)
        end
      else (requests, h)
  end.

Definition Drain (f : t) : list types.Request * t :=
  let '(requests, h) := Drain_loop (priorityQueue.Len (pq f)) (pq f) [] in
  (requests, {| pq := h; closed := closed f |}).

Definition RestoreAll (f : t) (reqs : list types.Request) : t :=
  {| pq := fold_left (λ h req, heap.Push h (item_of req)) reqs (pq f);
     closed := closed f |}.

End Frontier.

(** A run of the frontier: pushes in the given order, then [k] calls of
    TryPop, keeping the requests they return. *)
Definition push_all (f : Frontier.t) (reqs : list types.Request) : Frontier.t :=
  fold_left Frontier.Push reqs f.

Fixpoint pop_n (k : nat) (f : Frontier.t) : list types.Request * Frontier.t :=
  match k with
  | O => ([], f)
  | S k' =>
      match Frontier.TryPop f with
      | (Some r, f') => let '(rs, f'') := pop_n k' f' in (r :: rs, f'')
      | (None, f') => pop_n k' f'
      end
  end.

(** * internal/engine: the deduplicator *)
Module Deduplicator.

(* map[string]struct{} used as a set of fingerprints *)
Record t := mk { seen : gset gostring }.

Definition New : t := {| seen := ∅ |}.

Definition lowerhex (n : N) : ascii :=
  if (n <? 10)%N then ascii_of_N (48 + n) else ascii_of_N (97 + (n - 10)).

Definition hex_EncodeToString (src : gostring) : gostring :=
  c ← src; [lowerhex (N.shiftr (byte_val c) 4); lowerhex (N.land (byte_val c) 15)].

Definition hashURL `{GoLib} (canonicalURL : gostring) : gostring :=
  hex_EncodeToString (take 16 (sha256_Sum256 canonicalURL)).

Definition CanonicalizeURL `{GoLib} (rawURL : gostring) : gostring :=
  match url.Parse rawURL with
  | None => rawURL
  | Some u =>
      let u := url.with_Scheme u (strings.ToLower (url.Scheme u)) in
      let u := url.with_Host u (strings.ToLower (url.Host u)) in
      let u := url.with_Fragment u [] in
      let host := url.Hostname u in
      let port := url.Port u in
      let u :=
        if bool_decide (url.Scheme u = str "http") && bool_decide (port = str "80")
           || bool_decide (url.Scheme u = str "https") && bool_decide (port = str "443")
        then url.with_Host u host else u in
      let u :=
        if negb (bool_decide (url.RawQuery u = [])) then
          let params := url.Query u in
          let keys := sort.Strings (params.*1) in
          let sorted :=
            k ← keys;
            (λ v, url.QueryEscape k ++ str "=" ++ url.QueryEscape v)
              <$> sort.Strings (url.Values_lookup params k) in
          url.with_RawQuery u (strings.Join sorted (str "&"))
        else u in
      let u :=
        if negb (bool_decide (url.Path u = str "/")) &&
           strings.HasSuffix (url.Path u) (str "/")
        then url.with_Path u (strings.TrimRight (url.Path u) (str "/")) else u in
      let u := if bool_decide (url.Path u = []) then url.with_Path u (str "/") else u in
      url.URL_String u
  end.

Definition IsSeen `{GoLib} (d : t) (rawURL : gostring) : bool :=
  bool_decide (hashURL (CanonicalizeURL rawURL) ∈ seen d).

Definition MarkSeen `{GoLib} (d : t) (rawURL : gostring) : t :=
  {| seen := {[hashURL (CanonicalizeURL rawURL)]} ∪ seen d |}.

Definition Count (d : t) : nat := size (seen d).

Definition Reset (d : t) : t := {| seen := ∅ |}.

(* the order of the exported hashes is that of Go's map iteration *)
Definition Export (d : t) : list gostring := elements (seen d).

Definition Import (d : t) (hashes : list gostring) : t :=
  {| seen := fold_left (λ s h, {[h]} ∪ s) hashes (seen d) |}.

End Deduplicator.

(** * internal/engine: robots.txt *)
Module RobotsManager.

Record robotsData := mkData {
  disallowed : list gostring;
  allowed : list gostring;
  crawlDelay : Z;
  sitemaps : list gostring;
}.

(* [client] stands for the network: what fetchRobotsTxt (the GET of
   <domain>/robots.txt followed by parseRobotsTxt) yields for a domain,
   [None] being its nil result. *)
Record t := mk {
  enabled : bool;
  cache : gmap gostring (option robotsData);
  client : gostring → option robotsData;
}.

Definition New (enabled : bool) (client : gostring → option robotsData) : t :=
  {| enabled := enabled; cache := ∅; client := client |}.

Fixpoint matchWildcard_loop (parts : list gostring) (i : nat) (path : gostring)
    (pos : nat) : option nat :=
  match parts with
  | [] => Some pos
  | part :: rest =>
      if bool_decide (part = []) then matchWildcard_loop rest (S i) path pos
      else
        match strings.Index (drop pos path) part with
        | None => None
        | Some idx =>
            if (i =? 0) && negb (idx =? 0) then None
            else matchWildcard_loop rest (S i) path (pos + idx + length part)
        end
  end.

Definition matchWildcard (pattern path : gostring) (mustEnd : bool) : bool :=
  match matchWildcard_loop (strings.SplitByte [] pattern "*"%char) 0 path 0 with
  | None => false
  | Some pos => if mustEnd then pos =? length path else true
  end.

Definition matchRobotsPattern (pattern path : gostring) : bool :=
  if bool_decide (pattern = []) then false
  else
    let endsWithDollar := strings.HasSuffix pattern (str "$") in
    let pattern :=
      if endsWithDollar then take (length pattern - 1) pattern else pattern in
    if strings.Contains pattern (str "*")
    then matchWildcard pattern path endsWithDollar
    else if endsWithDollar then bool_decide (path = pattern)
    else strings.HasPrefix path pattern.

Definition getRobotsData (rm : t) (domain : gostring) : option robotsData * t :=
  match cache rm !! domain with
  | Some data => (data, rm)
  | None =>
      let data := client rm domain in
      (data, {| enabled := enabled rm; cache := <[domain := data]> (cache rm);
                client := client rm |})
  end.

Definition IsAllowed `{GoLib} (rm : t) (rawURL : gostring) : bool * t :=
  if negb (enabled rm) then (true, rm)
  else
    match url.Parse rawURL with
    | None => (true, rm)
    | Some u =>
        let domain := url.Scheme u ++ str "://" ++ url.Host u in
        let '(data, rm') := getRobotsData rm domain in
        match data with
        | None => (true, rm')
        | Some data =>
            let path := if bool_decide (url.Path u = []) then str "/" else url.Path u in
            if existsb (λ pattern, matchRobotsPattern pattern path) (allowed data)
            then (true, rm')
            else if existsb (λ pattern, matchRobotsPattern pattern path)
                            (disallowed data)
            then (false, rm')
            else (true, rm')
        end
    end.

(** parseRobotsTxt.  The loop body first cuts a line into a key and a
    value: white space and a comment are trimmed, and the line is split at
    its first colon. *)
Definition splitLine `{GoLib} (line : gostring) : option (gostring * gostring) :=
  let line := strings.TrimSpace line in
  let line :=
    match strings.Index line (str "#") with
    | Some idx => strings.TrimSpace (take idx line)
    | None => line
    end in
  if bool_decide (line = []) then None
  else
    match strings.Index line (str ":") with   (* strings.SplitN(line, ":", 2) *)
    | None => None
    | Some i =>
        Some (strings.TrimSpace (strings.ToLower (take i line)),
              strings.TrimSpace (drop (i + 1) line))
    end.

(* the test that sets inOurSection at a User-agent line *)
Definition ourAgent `{GoLib} (value : gostring) : bool :=
  let userAgent := strings.ToLower value in
  bool_decide (userAgent = str "*") || strings.Contains userAgent (str "scrapegoat").

(* One turn of the loop on the data and inOurSection.  [scanDelay] is
   fmt.Sscanf(value, "%f", &delay) followed by the conversion
   time.Duration(delay * float64(time.Second)); [None] when Sscanf fails. *)
Definition parseRobotsTxt_line `{GoLib} (scanDelay : gostring → option Z)
    (st : robotsData * bool) (line : gostring) : robotsData * bool :=
  match splitLine line with
  | None => st
  | Some (key, value) =>
      let '(data, inOurSection) := st in
      if bool_decide (key = str "user-agent") then (data, ourAgent value)
      else if bool_decide (key = str "disallow") then
        if inOurSection && negb (bool_decide (value = [])) then
          (mkData (disallowed data ++ [value]) (allowed data) (crawlDelay data)
                  (sitemaps data), inOurSection)
        else st
      else if bool_decide (key = str "allow") then
        if inOurSection && negb (bool_decide (value = [])) then
          (mkData (disallowed data) (allowed data ++ [value]) (crawlDelay data)
                  (sitemaps data), inOurSection)
        else st
      else if bool_decide (key = str "crawl-delay") then
        if inOurSection then
          match scanDelay value with
          | Some delay =>
              (mkData (disallowed data) (allowed data) delay (sitemaps data),
               inOurSection)
          | None => st
          end
        else st
      else if bool_decide (key = str "sitemap") then
        (mkData (disallowed data) (allowed data) (crawlDelay data)
                (sitemaps data ++ [value]), inOurSection)
      else st
  end.

Definition parseRobotsTxt `{GoLib} (scanDelay : gostring → option Z)
    (content : gostring) : robotsData :=
  (fold_left (parseRobotsTxt_line scanDelay)
     (strings.SplitByte [] content (ascii_of_N 10))
     (mkData [] [] 0 [], false)).1.

(* GetCrawlDelay and GetSitemaps read the cache only *)
Definition GetCrawlDelay (rm : t) (domain : gostring) : Z :=
  match cache rm !! domain with
  | Some (Some data) => crawlDelay data
  | _ => 0%Z
  end.

Definition GetSitemaps (rm : t) (domain : gostring) : list gostring :=
  match cache rm !! domain with
  | Some (Some data) => sitemaps data
  | _ => []
  end.

End RobotsManager.

(** * internal/fetcher/http.go *)
Module fetcher.

(** What the code asks of a non-nil error of the transport or of the body
    reader: the results of its errors.Is, errors.As and type tests. *)
Record neterror := mkNetError {
  is_Canceled : bool;          (* errors.Is(err, context.Canceled) *)
  is_DeadlineExceeded : bool;  (* errors.Is(err, context.DeadlineExceeded) *)
  is_ErrUnexpectedEOF : bool;  (* errors.Is(err, io.ErrUnexpectedEOF) *)
  is_EOF : bool;               (* errors.Is(err, io.EOF) *)
  net_Timeout : bool;          (* err is a net.Error and err.Timeout() *)
  op_ECONNRESET : bool;        (* a *net.OpError wrapping ECONNRESET *)
  op_ECONNREFUSED : bool;      (* a *net.OpError wrapping ECONNREFUSED *)
}.

Definition isRetryableError (err : option neterror) : bool :=
  match err with
  | None => false
  | Some err =>
      if is_Canceled err || is_DeadlineExceeded err then false
      else if is_ErrUnexpectedEOF err || is_EOF err then true
      else if net_Timeout err then true
      else if op_ECONNRESET err || op_ECONNREFUSED err then true
      else false
  end.

(* [now] is the value of time.Now() used by time.Until *)
Definition parseRetryAfter `{GoLib} (now : Z) (header : gostring) : Z :=
  if bool_decide (header = []) then (5 * time.Second)%Z
  else
    match strconv.Atoi (strings.TrimSpace header) with
    | Some secs =>
        let secs := if (120 <? secs)%Z then 120%Z else secs in
        int64.mul secs time.Second
    | None =>
        match http_ParseTime header with
        | Some t =>
            let d := time.Until now t in
            if (d <? 0)%Z then time.Second
            else if (2 * time.Minute <? d)%Z then (2 * time.Minute)%Z
            else d
        | None => (5 * time.Second)%Z
        end
    end.

(** The part of an *http.Response that Fetch reads. *)
Record httpResponse := mkHttpResponse {
  StatusCode : Z;
  RetryAfterHeader : gostring;   (* Header.Get("Retry-After") *)
  FinalURL : gostring;           (* Request.URL.String() *)
  decompressError : bool;        (* decompressReader returns an error *)
  body : neterror + gostring;    (* io.ReadAll of the decoded, limited body *)
}.

(** What the network does for one request. *)
Inductive roundTrip :=
| NewRequestError                      (* http.NewRequestWithContext fails *)
| DoError (err : neterror)             (* f.client.Do fails *)
| DoResponse (httpResp : httpResponse).

Definition Fetch `{GoLib} (now : Z) (rt : roundTrip) (req : types.Request)
  : types.Response + types.FetchError :=
  match rt with
  | NewRequestError =>
      inr {| types.FE_URL := types.URLString req; types.FE_StatusCode := 0;
             types.Retryable := false; types.RetryAfter := 0 |}
  | DoError err =>
      inr {| types.FE_URL := types.URLString req; types.FE_StatusCode := 0;
             types.Retryable := isRetryableError (Some err);
             types.RetryAfter := 0 |}
  | DoResponse httpResp =>
      if (StatusCode httpResp =? 429)%Z then
        inr {| types.FE_URL := types.URLString req;
               types.FE_StatusCode := StatusCode httpResp;
               types.Retryable := true;
               types.RetryAfter := parseRetryAfter now (RetryAfterHeader httpResp) |}
      else if (500 <=? StatusCode httpResp)%Z then
        inr {| types.FE_URL := types.URLString req;
               types.FE_StatusCode := StatusCode httpResp;
               types.Retryable := true; types.RetryAfter := 0 |}
      else if decompressError httpResp then
        inr {| types.FE_URL := types.URLString req; types.FE_StatusCode := 0;
               types.Retryable := false; types.RetryAfter := 0 |}
      else
        match body httpResp with
        | inl _ =>
            inr {| types.FE_URL := types.URLString req; types.FE_StatusCode := 0;
                   types.Retryable := true; types.RetryAfter := 0 |}
        | inr data =>
            inl {| types.StatusCode := StatusCode httpResp;
                   types.Body := data;
                   types.ContentLength := Z.of_nat (length data);
                   types.FinalURL := FinalURL httpResp;
                   types.Request_of := req |}
        end
  end.

(** The user agents of an HTTPFetcher and its rotation counter, an
    atomic.Int64. *)
Record HTTPFetcher := mkHTTPFetcher {
  userAgents : list gostring;
  uaIndex : Z;
}.

(* nextUserAgent; [version] is config.Version.  The result is [None] where
   Go panics: the counter has wrapped around and the index is negative. *)
Definition nextUserAgent (version : gostring) (f : HTTPFetcher)
  : option gostring * HTTPFetcher :=
  if length (userAgents f) =? 0 then (Some (str "WebStalk/" ++ version), f)
  else
    let c := int64.add (uaIndex f) 1 in
    let idx := Z.rem c (Z.of_nat (length (userAgents f))) in
    ((if (idx <? 0)%Z then None else userAgents f !! Z.to_nat idx),
     {| userAgents := userAgents f; uaIndex := c |}).

End fetcher.

(** * internal/engine: the engine and its scheduler *)
Module Engine.

Inductive State :=
| StateIdle | StateRunning | StatePaused | StateStopping | StateStopped.

Global Instance State_eq_dec : EqDecision State.
Proof. solve_decision. Defined.

(* atomic.Int64 counters (ActiveWorkers is an atomic.Int32) *)
Record Stats := mkStats {
  RequestsSent : Z;
  RequestsFailed : Z;
  ResponsesOK : Z;
  ResponsesError : Z;
  ItemsScraped : Z;
  ItemsDropped : Z;
  URLsEnqueued : Z;
  URLsFiltered : Z;
  BytesDownloaded : Z;
  ActiveWorkers : Z;
}.

Definition zeroStats : Stats := mkStats 0 0 0 0 0 0 0 0 0 0.

Definition add_RequestsSent (s : Stats) (d : Z) : Stats :=
  mkStats (int64.add (RequestsSent s) d) (RequestsFailed s) (ResponsesOK s)
          (ResponsesError s) (ItemsScraped s) (ItemsDropped s) (URLsEnqueued s)
          (URLsFiltered s) (BytesDownloaded s) (ActiveWorkers s).
Definition add_RequestsFailed (s : Stats) (d : Z) : Stats :=
  mkStats (RequestsSent s) (int64.add (RequestsFailed s) d) (ResponsesOK s)
          (ResponsesError s) (ItemsScraped s) (ItemsDropped s) (URLsEnqueued s)
          (URLsFiltered s) (BytesDownloaded s) (ActiveWorkers s).
Definition add_ResponsesOK (s : Stats) (d : Z) : Stats :=
  mkStats (RequestsSent s) (RequestsFailed s) (int64.add (ResponsesOK s) d)
          (ResponsesError s) (ItemsScraped s) (ItemsDropped s) (URLsEnqueued s)
          (URLsFiltered s) (BytesDownloaded s) (ActiveWorkers s).
Definition add_ResponsesError (s : Stats) (d : Z) : Stats :=
  mkStats (RequestsSent s) (RequestsFailed s) (ResponsesOK s)
          (int64.add (ResponsesError s) d) (ItemsScraped s) (ItemsDropped s)
          (URLsEnqueued s) (URLsFiltered s) (BytesDownloaded s) (ActiveWorkers s).
Definition add_URLsEnqueued (s : Stats) (d : Z) : Stats :=
  mkStats (RequestsSent s) (RequestsFailed s) (ResponsesOK s)
          (ResponsesError s) (ItemsScraped s) (ItemsDropped s)
          (int64.add (URLsEnqueued s) d) (URLsFiltered s) (BytesDownloaded s)
          (ActiveWorkers s).
Definition add_URLsFiltered (s : Stats) (d : Z) : Stats :=
  mkStats (RequestsSent s) (RequestsFailed s) (ResponsesOK s)
          (ResponsesError s) (ItemsScraped s) (ItemsDropped s) (URLsEnqueued s)
          (int64.add (URLsFiltered s) d) (BytesDownloaded s) (ActiveWorkers s).
Definition add_BytesDownloaded (s : Stats) (d : Z) : Stats :=
  mkStats (RequestsSent s) (RequestsFailed s) (ResponsesOK s)
          (ResponsesError s) (ItemsScraped s) (ItemsDropped s) (URLsEnqueued s)
          (URLsFiltered s) (int64.add (BytesDownloaded s) d) (ActiveWorkers s).

(* the options of config.Config that the core reads *)
Record Config := mkConfig {
  Concurrency : Z;
  MaxDepth : Z;
  RespectRobotsTxt : bool;
  MaxRequests : Z;
  AllowedDomains : list gostring;
  DisallowedDomains : list gostring;
  RequestTimeout : Z;
  Fetcher_Type : gostring;
}.

(* an error returned by a Fetcher: a *types.FetchError or another value *)
Inductive fetchError :=
| IsFetchError (fe : types.FetchError)
| OtherError.

(* the outcome of Fetcher.Fetch for a request, the network being an input *)
Abbreviation Fetcher := (types.Request → types.Response + fetchError).

(* a callback result: [None] for a non-nil error *)
Abbreviation ResponseCallback :=
  (types.Response → option (list types.Item * list types.Request)).

(* Parser.Parse: items, links and whether an error came with them *)
Abbreviation Parser :=
  (types.Response → list types.Item * list gostring * bool).

Record t := mk {
  cfg : Config;
  frontier : Frontier.t;
  dedup : Deduplicator.t;
  robots : RobotsManager.t;
  fetchers : gmap gostring Fetcher;
  parser : option Parser;
  (* the callbacks map, in the order in which a range over it visits it *)
  callbacks : list (gostring * ResponseCallback);
  state : State;
  stats : Stats;
  itemChan : list types.Item;     (* the items sent so far *)
  cancelled : bool;               (* e.cancel() has been called *)
  paused : bool;                  (* scheduler.paused *)
  slept : Z;                      (* the time spent in time.Sleep by the worker *)
}.

Definition New (c : Config) (client : gostring → option RobotsManager.robotsData) : t :=
  {| cfg := c; frontier := Frontier.New; dedup := Deduplicator.New;
     robots := RobotsManager.New (RespectRobotsTxt c) client;
     fetchers := ∅; parser := None; callbacks := [];
     state := StateIdle; stats := zeroStats; itemChan := [];
     cancelled := false; paused := false; slept := 0 |}.

Definition with_frontier (e : t) (v : Frontier.t) : t :=
  mk (cfg e) v (dedup e) (robots e) (fetchers e) (parser e) (callbacks e)
     (state e) (stats e) (itemChan e) (cancelled e) (paused e) (slept e).
Definition with_dedup (e : t) (v : Deduplicator.t) : t :=
  mk (cfg e) (frontier e) v (robots e) (fetchers e) (parser e) (callbacks e)
     (state e) (stats e) (itemChan e) (cancelled e) (paused e) (slept e).
Definition with_robots (e : t) (v : RobotsManager.t) : t :=
  mk (cfg e) (frontier e) (dedup e) v (fetchers e) (parser e) (callbacks e)
     (state e) (stats e) (itemChan e) (cancelled e) (paused e) (slept e).
Definition with_state (e : t) (v : State) : t :=
  mk (cfg e) (frontier e) (dedup e) (robots e) (fetchers e) (parser e)
     (callbacks e) v (stats e) (itemChan e) (cancelled e) (paused e) (slept e).
Definition with_stats (e : t) (v : Stats) : t :=
  mk (cfg e) (frontier e) (dedup e) (robots e) (fetchers e) (parser e)
     (callbacks e) (state e) v (itemChan e) (cancelled e) (paused e) (slept e).
Definition with_itemChan (e : t) (v : list types.Item) : t :=
  mk (cfg e) (frontier e) (dedup e) (robots e) (fetchers e) (parser e)
     (callbacks e) (state e) (stats e) v (cancelled e) (paused e) (slept e).
Definition with_cancelled (e : t) (v : bool) : t :=
  mk (cfg e) (frontier e) (dedup e) (robots e) (fetchers e) (parser e)
     (callbacks e) (state e) (stats e) (itemChan e) v (paused e) (slept e).
Definition with_paused (e : t) (v : bool) : t :=
  mk (cfg e) (frontier e) (dedup e) (robots e) (fetchers e) (parser e)
     (callbacks e) (state e) (stats e) (itemChan e) (cancelled e) v (slept e).
Definition with_slept (e : t) (v : Z) : t :=
  mk (cfg e) (frontier e) (dedup e) (robots e) (fetchers e) (parser e)
     (callbacks e) (state e) (stats e) (itemChan e) (cancelled e) (paused e) v.

Definition isDomainAllowed (e : t) (domain : gostring) : bool :=
  if 0 <? length (AllowedDomains (cfg e))
  then existsb (λ d, bool_decide (d = domain)) (AllowedDomains (cfg e))
  else negb (existsb (λ d, bool_decide (d = domain)) (DisallowedDomains (cfg e))).

Definition AddRequest `{GoLib} (e : t) (req : types.Request)
  : option types.error * t :=
  let urlStr := types.URLString req in
  if (MaxDepth (cfg e) <? types.Depth req)%Z then
    (Some types.ErrMaxDepth, with_stats e (add_URLsFiltered (stats e) 1))
  else if Deduplicator.IsSeen (dedup e) urlStr then
    (Some types.ErrDuplicate, with_stats e (add_URLsFiltered (stats e) 1))
  else
    let '(blocked, e) :=
      if RespectRobotsTxt (cfg e) then
        let '(ok, rm) := RobotsManager.IsAllowed (robots e) urlStr in
        (negb ok, with_robots e rm)
      else (false, e) in
    if blocked then
      (Some types.ErrBlocked, with_stats e (add_URLsFiltered (stats e) 1))
    else if negb (isDomainAllowed e (types.Domain req)) then
      (Some (types.ErrDomainNotAllowed (types.Domain req)),
       with_stats e (add_URLsFiltered (stats e) 1))
    else
      let e := with_dedup e (Deduplicator.MarkSeen (dedup e) urlStr) in
      let e := with_frontier e (Frontier.Push (frontier e) req) in
      (None, with_stats e (add_URLsEnqueued (stats e) 1)).

Definition AddSeed `{GoLib} (e : t) (rawURL : gostring) : option types.error * t :=
  match types.NewRequest rawURL with
  | None => (Some (types.ErrInvalidURL rawURL), e)
  | Some req =>
      AddRequest e (types.with_Depth (types.with_Priority req types.PriorityHighest) 0)
  end.

(** The lifecycle: each method is one compare-and-swap on the state cell
    followed by its effects.  Start's goroutines are not modelled. *)
Definition Start (e : t) : option types.error * t :=
  if bool_decide (state e = StateIdle) then (None, with_state e StateRunning)
  else (Some types.ErrCannotStart, e).

Definition Stop (e : t) : t :=
  if negb (bool_decide (state e = StateRunning)) then e
  else
    let e := with_state e StateStopping in
    let e := with_frontier e (Frontier.Close (frontier e)) in
    with_cancelled e true.

Definition Pause (e : t) : t :=
  if bool_decide (state e = StateRunning)
  then with_paused (with_state e StatePaused) true
  else e.

Definition Resume (e : t) : t :=
  if bool_decide (state e = StatePaused)
  then with_paused (with_state e StateRunning) false
  else e.

Definition add_ItemsScraped (s : Stats) (d : Z) : Stats :=
  mkStats (RequestsSent s) (RequestsFailed s) (ResponsesOK s)
          (ResponsesError s) (int64.add (ItemsScraped s) d) (ItemsDropped s)
          (URLsEnqueued s) (URLsFiltered s) (BytesDownloaded s) (ActiveWorkers s).
Definition add_ItemsDropped (s : Stats) (d : Z) : Stats :=
  mkStats (RequestsSent s) (RequestsFailed s) (ResponsesOK s)
          (ResponsesError s) (ItemsScraped s) (int64.add (ItemsDropped s) d)
          (URLsEnqueued s) (URLsFiltered s) (BytesDownloaded s) (ActiveWorkers s).

(* ActiveWorkers is an atomic.Int32 *)
Definition add_ActiveWorkers (s : Stats) (d : Z) : Stats :=
  mkStats (RequestsSent s) (RequestsFailed s) (ResponsesOK s)
          (ResponsesError s) (ItemsScraped s) (ItemsDropped s) (URLsEnqueued s)
          (URLsFiltered s) (BytesDownloaded s)
          ((ActiveWorkers s + d + 2 ^ 31) mod 2 ^ 32 - 2 ^ 31)%Z.

(* Pipeline.Process returns an item, possibly a nil pointer, or an error *)
Inductive processResult :=
| Processed (item : option types.Item)
| ProcessError.

Abbreviation Pipeline := (types.Item → processResult).

(* processItems over the items received from itemChan until it is closed:
   what is sent on resultChan, and the counters *)
Definition processItems (pipeline : option Pipeline) (items : list types.Item)
    (s : Stats) : list (option types.Item) * Stats :=
  fold_left
    (λ '(results, s) item,
       match pipeline with
       | Some process =>
           match process item with
           | ProcessError => (results, add_ItemsDropped s 1)
           | Processed item => (results ++ [item], add_ItemsScraped s 1)
           end
       | None => (results ++ [Some item], add_ItemsScraped s 1)
       end)
    items ([], s).


End Engine.

Module Scheduler.

(* handleFetchError: the request is owned by the worker, so its update in
   place is an update of the value that is pushed *)
Definition handleFetchError (e : Engine.t) (req : types.Request)
    (err : Engine.fetchError) : Engine.t :=
  let e := Engine.with_stats e (Engine.add_RequestsFailed (Engine.stats e) 1) in
  let permanent (e : Engine.t) :=
    Engine.with_stats e (Engine.add_ResponsesError (Engine.stats e) 1) in
  match err with
  | Engine.IsFetchError fetchErr =>
      if types.IsRetryable fetchErr &&
         (types.RetryCount req <? types.MaxRetries req)%Z
      then
        let req := types.with_RetryCount req (int64.add (types.RetryCount req) 1) in
        let req := types.with_Priority req types.PriorityLow in
        let e :=
          if (0 <? types.RetryAfter fetchErr)%Z
          then Engine.with_slept e (Engine.slept e + types.RetryAfter fetchErr)%Z
          else e in
        Engine.with_frontier e (Frontier.Push (Engine.frontier e) req)
      else permanent e
  | Engine.OtherError => permanent e
  end.

Definition send_items (e : Engine.t) (items : list types.Item) : Engine.t :=
  Engine.with_itemChan e (Engine.itemChan e ++ items).

(* the admission of discovered requests, results discarded *)
Definition admit_all `{GoLib} (e : Engine.t) (reqs : list types.Request)
  : Engine.t :=
  fold_left (λ e r, (Engine.AddRequest e r).2) reqs e.

Definition child_of (req r : types.Request) : types.Request :=
  types.with_ParentURL
    (types.with_Depth r (int64.add (types.Depth req) 1))
    (types.URLString req).

Definition run_callback `{GoLib} (req : types.Request) (resp : types.Response)
    (e : Engine.t) (cb : gostring * Engine.ResponseCallback) : Engine.t :=
  match cb.2 resp with
  | None => e
  | Some (items, newReqs) =>
      let e :=
        send_items e
          ((λ item, types.mkItem (types.Item_URL item) cb.1 (types.Depth req))
             <$> items) in
      admit_all e (child_of req <$> newReqs)
  end.

Definition run_parser `{GoLib} (req : types.Request) (resp : types.Response)
    (e : Engine.t) : Engine.t :=
  match Engine.parser e with
  | None => e
  | Some parse =>
      let '(items, links, _) := parse resp in
      let e :=
        if length (Engine.callbacks e) =? 0 then
          send_items e
            ((λ item, types.mkItem (types.Item_URL item) (types.SpiderName item)
                                   (types.Depth req)) <$> items)
        else e in
      admit_all e
        (omap (λ link, child_of req <$> types.NewRequest link) links)
  end.

Definition processRequest `{GoLib} (e : Engine.t) (req : types.Request)
  : Engine.t :=
  let fetcherType :=
    if bool_decide (types.FetcherType req = [])
    then Engine.Fetcher_Type (Engine.cfg e) else types.FetcherType req in
  match Engine.fetchers e !! fetcherType with
  | None =>
      Engine.with_stats e (Engine.add_RequestsFailed (Engine.stats e) 1)
  | Some fetcher =>
      let e := Engine.with_stats e (Engine.add_RequestsSent (Engine.stats e) 1) in
      match fetcher req with
      | inr err => handleFetchError e req err
      | inl resp =>
          let e := Engine.with_stats e (Engine.add_ResponsesOK (Engine.stats e) 1) in
          let e :=
            Engine.with_stats e
              (Engine.add_BytesDownloaded (Engine.stats e) (types.ContentLength resp)) in
          let e := fold_left (run_callback req resp) (Engine.callbacks e) e in
          run_parser req resp e
      end
  end.

(* the HTTP fetcher as a value of the Fetcher interface *)
Definition httpFetcher `{GoLib} (now : Z) (network : types.Request → fetcher.roundTrip)
  : Engine.Fetcher :=
  λ req,
    match fetcher.Fetch now (network req) req with
    | inl resp => inl resp
    | inr fe => inr (Engine.IsFetchError fe)
    end.

(** One turn of the worker's loop that finds a request: the dequeue, the
    processing of the request and the MaxRequests check.  The worker reads
    the pause flag only before it begins to poll, so a polling worker
    dequeues also while the engine is paused; a worker that waits for the
    resume, or that finds no request, takes no turn.  The throttle before
    the fetch only passes time. *)
Definition worker_iteration `{GoLib} (e : Engine.t) : Engine.t :=
  match Frontier.TryPop (Engine.frontier e) with
  | (None, _) => e
  | (Some req, frontier) =>
      let e := Engine.with_frontier e frontier in
      let e := Engine.with_stats e (Engine.add_ActiveWorkers (Engine.stats e) 1) in
      let e := processRequest e req in
      let e := Engine.with_stats e (Engine.add_ActiveWorkers (Engine.stats e) (-1)) in
      if (0 <? Engine.MaxRequests (Engine.cfg e))%Z &&
         (Engine.MaxRequests (Engine.cfg e) <=? Engine.RequestsSent (Engine.stats e))%Z
      then Engine.Stop e
      else e
  end.

(* applyThrottle for the politeness delay [delay]; the map holds the
   lastFetch of each domainThrottle.  [now] is the clock as time.Since reads
   it and [overshoot] the time that passes until time.Now reads it again,
   the sleep asked for apart; the result is the map and that second reading.
   time.Sleep returns at once for a duration that is not positive. *)
Definition applyThrottle (delay : Z) (throttle : gmap gostring Z) (now overshoot : Z)
    (domain : gostring) : gmap gostring Z * Z :=
  if (delay <=? 0)%Z then (throttle, now)
  else
    let lastFetch := default time.zeroTime (throttle !! domain) in
    let elapsed := time.Since now lastFetch in
    let slept :=
      if (elapsed <? delay)%Z then Z.max 0 (int64.wrap (delay - elapsed)) else 0%Z in
    let now := (now + slept + overshoot)%Z in
    (<[domain := now]> throttle, now).

(** What the select of idleMonitor receives: the context is done, the
    scheduler is done, or a tick, at which idleWorkers and frontier.Len()
    are read. *)
Inductive monitorEvent :=
| CtxDone
| SchedulerDone
| Tick (idle : Z) (queueLen : nat).

Inductive monitorExit :=
| ClosesFrontier   (* frontier.Close() and return *)
| Returns          (* return without closing *)
| StillRunning.    (* no event left *)

Fixpoint idleMonitor_loop (concurrency : Z) (idleStreak : Z)
    (events : list monitorEvent) : monitorExit :=
  match events with
  | [] => StillRunning
  | CtxDone :: _ => ClosesFrontier
  | SchedulerDone :: _ => Returns
  | Tick idle queueLen :: events =>
      if (concurrency <=? idle)%Z && (queueLen =? 0) then
        let idleStreak := int64.add idleStreak 1 in
        if (3 <=? idleStreak)%Z then ClosesFrontier
        else idleMonitor_loop concurrency idleStreak events
      else idleMonitor_loop concurrency 0 events
  end.

Definition idleMonitor (concurrency : Z) (events : list monitorEvent)
  : monitorExit :=
  idleMonitor_loop concurrency 0 events.

End Scheduler.

(** * internal/engine: checkpoints

    Save writes the JSON encoding of a checkpointData and Load decodes one;
    the directory and the encoding are left out, the data are what is
    modelled (without the Timestamp, which Load does not read). *)
Module CheckpointManager.

Record checkpointReq := mkReq {
  cr_URL : gostring;
  cr_Depth : Z;
  cr_Priority : Z;
  cr_ParentURL : gostring;
}.

Record checkpointStats := mkCheckpointStats {
  cs_RequestsSent : Z;
  cs_RequestsFailed : Z;
  cs_ResponsesOK : Z;
  cs_ResponsesError : Z;
  cs_ItemsScraped : Z;
  cs_URLsEnqueued : Z;
  cs_BytesDownloaded : Z;
}.

Record checkpointData := mkData {
  FrontierURLs : list checkpointReq;
  SeenHashes : list gostring;
  Stats : checkpointStats;
}.

(* the data that Save encodes *)
Definition Save (frontier : Frontier.t) (dedup : Deduplicator.t)
    (stats : Engine.Stats) : checkpointData :=
  let requests := Frontier.Snapshot frontier in
  {| FrontierURLs :=
       (λ req, {| cr_URL := types.URLString req;
                  cr_Depth := types.Depth req;
                  cr_Priority := types.Priority req;
                  cr_ParentURL := types.ParentURL req |}) <$> requests;
     SeenHashes := Deduplicator.Export dedup;
     Stats :=
       {| cs_RequestsSent := Engine.RequestsSent stats;
          cs_RequestsFailed := Engine.RequestsFailed stats;
          cs_ResponsesOK := Engine.ResponsesOK stats;
          cs_ResponsesError := Engine.ResponsesError stats;
          cs_ItemsScraped := Engine.ItemsScraped stats;
          cs_URLsEnqueued := Engine.URLsEnqueued stats;
          cs_BytesDownloaded := Engine.BytesDownloaded stats |} |}.

Definition newRequestFromCheckpoint `{GoLib} (cr : checkpointReq)
  : option types.Request :=
  req ← types.NewRequest (cr_URL cr);
  let req := types.with_Depth req (cr_Depth cr) in
  let req := types.with_Priority req (cr_Priority cr) in
  Some (types.with_ParentURL req (cr_ParentURL cr)).

(* what Load does with the data it has decoded *)
Definition Load `{GoLib} (data : checkpointData) (frontier : Frontier.t)
    (dedup : Deduplicator.t) (stats : Engine.Stats)
  : Frontier.t * Deduplicator.t * Engine.Stats :=
  let dedup := Deduplicator.Import dedup (SeenHashes data) in
  let frontier :=
    fold_left
      (λ frontier cr,
         match newRequestFromCheckpoint cr with
         | None => frontier
         | Some req => Frontier.Push frontier req
         end)
      (FrontierURLs data) frontier in
  let st := Stats data in
  (frontier, dedup,
   Engine.mkStats (cs_RequestsSent st) (cs_RequestsFailed st) (cs_ResponsesOK st)
     (cs_ResponsesError st) (cs_ItemsScraped st) (Engine.ItemsDropped stats)
     (cs_URLsEnqueued st) (Engine.URLsFiltered stats) (cs_BytesDownloaded st)
     (Engine.ActiveWorkers stats)).

End CheckpointManager.

(** * Vocabulary of the properties *)

(** ** The binary heap kept in the frontier's slice *)
Section HeapVocabulary.
Local Open Scope Z_scope.

Definition parent (k : nat) : nat := ((k - 1) / 2)%nat.

Definition erase (it : priorityQueue.pqItem) : types.Request * Z := (priorityQueue.request it, priorityQueue.priority it).

Definition prio (h : priorityQueue.t) (k : nat) : Z :=
  default 0 (priorityQueue.priority <$> h !! k).

Definition is_heap_upto (h : priorityQueue.t) (n : nat) : Prop :=
  ∀ k, (0 < k < n)%nat → prio h (parent k) ≤ prio h k.

Definition is_heap (h : priorityQueue.t) : Prop := is_heap_upto h (length h).

Definition up_inv (h : priorityQueue.t) (j : nat) : Prop :=
  (∀ k, (0 < k < length h)%nat → k ≠ j → prio h (parent k) ≤ prio h k) ∧
  (∀ k, (0 < k < length h)%nat → parent k = j → (0 < j)%nat →
        prio h (parent j) ≤ prio h k).

Definition down_inv (h : priorityQueue.t) (i n : nat) : Prop :=
  (∀ k, (0 < k < n)%nat → parent k ≠ i → prio h (parent k) ≤ prio h k) ∧
  (∀ k, (0 < k < n)%nat → parent k = i → (0 < i)%nat →
        prio h (parent i) ≤ prio h k).

Definition consistent (e : types.Request * Z) : Prop := e.2 = types.Priority e.1.

Definition frontier_inv (f : Frontier.t) : Prop :=
  is_heap (Frontier.pq f) ∧ Forall consistent (erase <$> Frontier.pq f).

End HeapVocabulary.

(** ** Frontier ordering (C1) *)

(** Stable tie-breaking as the specification words it: of two requests of
    one priority, the one pushed earlier is popped earlier. *)
Definition fifo_within_priority (pushed popped : list types.Request) : Prop :=
  ∀ i j a b i' j',
    i < j → pushed !! i = Some a → pushed !! j = Some b →
    types.Priority a = types.Priority b →
    popped !! i' = Some a → popped !! j' = Some b → i' < j'.

Definition frontier_ordering_as_specified : Prop :=
  ∀ (reqs : list types.Request) (k : nat),
    let popped := (pop_n k (push_all Frontier.New reqs)).1 in
    Sorted Z.le (types.Priority <$> popped) ∧ fifo_within_priority reqs popped.

(** Three requests of one priority, told apart by their tag. *)
Definition tagged (tag : string) (priority : Z) : types.Request :=
  {| types.URL := None; types.Method := str "GET"; types.Depth := 0;
     types.Priority := priority; types.MaxRetries := 3; types.RetryCount := 0;
     types.Timeout := 0; types.Tag := str tag; types.FetcherType := str "http";
     types.ParentURL := [] |}.

(** ** Stand-ins used by the concrete runs *)

(** An instance of the library functions for the concrete runs below; the
    inputs of these runs are ASCII and use neither the digest nor dates. *)
Definition plainLib : GoLib :=
  {| unicode_ToLower := λ s, s;
     sha256_Sum256 := λ s, s;
     http_ParseTime := λ _, None |}.

Definition cfg0 : Engine.Config :=
  {| Engine.Concurrency := 1; Engine.MaxDepth := 5;
     Engine.RespectRobotsTxt := false; Engine.MaxRequests := 0;
     Engine.AllowedDomains := []; Engine.DisallowedDomains := [];
     Engine.RequestTimeout := 30 * time.Second;
     Engine.Fetcher_Type := str "http" |}.

(* an engine whose only fetcher is the HTTP one, over the given network *)
Definition engine0 (network : types.Request → fetcher.roundTrip) : Engine.t :=
  let e := Engine.New cfg0 (λ _, None) in
  Engine.mk (Engine.cfg e) (Engine.frontier e) (Engine.dedup e) (Engine.robots e)
    {[ str "http" := @Scheduler.httpFetcher plainLib 0 network ]}
    (Engine.parser e) (Engine.callbacks e) Engine.StateRunning (Engine.stats e)
    (Engine.itemChan e) (Engine.cancelled e) (Engine.paused e) (Engine.slept e).

(** ** Retry (C2) *)

Definition fetcherType_of (e : Engine.t) (req : types.Request) : gostring :=
  if bool_decide (types.FetcherType req = [])
  then Engine.Fetcher_Type (Engine.cfg e) else types.FetcherType req.



(** ** Cancellation (C3) *)

Definition cancellation_as_specified : Prop :=
  ∀ (lib : GoLib) (e : Engine.t) (req : types.Request) (now : Z)
    (network : types.Request → fetcher.roundTrip) (err : fetcher.neterror),
    Engine.fetchers e !! fetcherType_of e req = Some (Scheduler.httpFetcher now network) →
    network req = fetcher.DoError err →
    fetcher.is_Canceled err = true →
    let e' := Scheduler.processRequest e req in
    Engine.frontier e' = Engine.frontier e ∧
    Engine.RequestsFailed (Engine.stats e') = Engine.RequestsFailed (Engine.stats e).

Definition canceled : fetcher.neterror :=
  {| fetcher.is_Canceled := true; fetcher.is_DeadlineExceeded := false;
     fetcher.is_ErrUnexpectedEOF := false; fetcher.is_EOF := false;
     fetcher.net_Timeout := false; fetcher.op_ECONNRESET := false;
     fetcher.op_ECONNREFUSED := false |}.

(** ** Client errors (C4) *)




(** ** Lifecycle (C5) *)

Definition stop_from_paused_as_specified : Prop :=
  ∀ e : Engine.t,
    Engine.state e = Engine.StatePaused →
    Engine.state (Engine.Stop e) = Engine.StateStopping.

(** ** Retry-After (C6) *)

Definition retry_after_as_specified : Prop :=
  ∀ (lib : GoLib) (now : Z) (header : gostring),
    (1 * time.Second ≤ fetcher.parseRetryAfter now header ≤ 120 * time.Second)%Z.

(** ** Deduplicator (C9) *)

Inductive dedupOp :=
| OpIsSeen (rawURL : gostring)
| OpMarkSeen (rawURL : gostring)
| OpCount
| OpReset
| OpExport
| OpImport (hashes : list gostring).

Definition run_op `{GoLib} (d : Deduplicator.t) (op : dedupOp) : Deduplicator.t :=
  match op with
  | OpMarkSeen rawURL => Deduplicator.MarkSeen d rawURL
  | OpReset => Deduplicator.Reset d
  | OpImport hashes => Deduplicator.Import d hashes
  | OpIsSeen _ | OpCount | OpExport => d
  end.

Definition is_Reset (op : dedupOp) : bool :=
  match op with OpReset => true | _ => false end.

Definition dedup_monotone_as_specified : Prop :=
  ∀ (lib : GoLib) (d : Deduplicator.t) (u v : gostring) (ops : list dedupOp),
    Deduplicator.CanonicalizeURL v = Deduplicator.CanonicalizeURL u →
    Deduplicator.IsSeen (fold_left run_op ops (Deduplicator.MarkSeen d u)) v = true.

(** ** Canonicalisation (C8) *)

Definition canonicalize_idempotent_as_specified : Prop :=
  ∀ (lib : GoLib) (u : gostring),
    Deduplicator.CanonicalizeURL (Deduplicator.CanonicalizeURL u)
    = Deduplicator.CanonicalizeURL u.

(** A host of unreserved ASCII characters: letters, digits and "-._~",
    optionally followed by ":" and a decimal port. *)
Definition plain_byte (c : ascii) : bool := url.isAlnum c || url.mem c "-._~".

Definition plain_host (h : gostring) : Prop :=
  ∃ name port,
    h = name ++ port ∧ name ≠ [] ∧ forallb plain_byte name = true ∧
    (port = [] ∨
     ∃ digits, port = ":"%char :: digits ∧ forallb strconv.isDigit digits = true).

(** The steps of CanonicalizeURL between url.Parse and URL.String. *)
Definition rebuildQuery (rawQuery : gostring) : gostring :=
  let params := url.ParseQuery rawQuery in
  let keys := sort.Strings (params.*1) in
  strings.Join
    (k ← keys;
     (λ v, url.QueryEscape k ++ str "=" ++ url.QueryEscape v)
       <$> sort.Strings (url.Values_lookup params k))
    (str "&").

Definition dropDefaultPort (u : url.URL) : url.URL :=
  let host := url.Hostname u in
  let port := url.Port u in
  if bool_decide (url.Scheme u = str "http") && bool_decide (port = str "80")
     || bool_decide (url.Scheme u = str "https") && bool_decide (port = str "443")
  then url.with_Host u host else u.

Definition sortQuery (u : url.URL) : url.URL :=
  if negb (bool_decide (url.RawQuery u = []))
  then url.with_RawQuery u (rebuildQuery (url.RawQuery u)) else u.

Definition trimSlash (u : url.URL) : url.URL :=
  if negb (bool_decide (url.Path u = str "/")) &&
     strings.HasSuffix (url.Path u) (str "/")
  then url.with_Path u (strings.TrimRight (url.Path u) (str "/")) else u.

Definition rootPath (u : url.URL) : url.URL :=
  if bool_decide (url.Path u = []) then url.with_Path u (str "/") else u.

Definition canonURL `{GoLib} (u : url.URL) : url.URL :=
  let u := url.with_Scheme u (strings.ToLower (url.Scheme u)) in
  let u := url.with_Host u (strings.ToLower (url.Host u)) in
  let u := url.with_Fragment u [] in
  rootPath (trimSlash (sortQuery (dropDefaultPort u))).

(** Bytes that url.Parse lets through raw and that do not end the path or
    the query: no control byte, no "#", no "?". *)
Definition url_safe_byte (c : ascii) : bool :=
  negb (bool_decide (c = "#"%char)) && negb (bool_decide (c = "?"%char)) &&
  negb ((byte_val c <? 32)%N || (byte_val c =? 127)%N).

(** The bytes of an escaped query component: moreover no "&", "=", ";". *)
Definition query_component_byte (c : ascii) : bool :=
  url_safe_byte c && negb (url.mem c "&=;").

Definition scheme_byte (c : ascii) : bool := url.isLetter c || url.isSchemeRest c.

(** A scheme as url.Parse returns it: a letter, then letters, digits and
    "+-.", in lower case. *)
Definition lower_scheme (sch : gostring) : bool :=
  match sch with
  | [] => false
  | c :: _ =>
      url.isLetter c && forallb scheme_byte sch &&
      bool_decide (strings.lowerByte <$> sch = sch)
  end.

(** The bytes of a plain host with its port. *)
Definition hostport_byte (c : ascii) : bool :=
  plain_byte c || bool_decide (c = ":"%char).

(** The query of a canonical URL: keys ascending and distinct, each with its
    values ascending. *)
Definition queryPair (k v : gostring) : gostring :=
  url.QueryEscape k ++ str "=" ++ url.QueryEscape v.

Definition queryPairs (groups : url.Values) : list gostring :=
  kv ← groups; queryPair kv.1 <$> kv.2.

Definition canonical_groups (groups : url.Values) : Prop :=
  Sorted sort.str_le (groups.*1) ∧ NoDup (groups.*1) ∧
  Forall (λ kv, kv.2 ≠ [] ∧ Sorted sort.str_le kv.2) groups.

Definition Values_wf (m : url.Values) : Prop :=
  NoDup (m.*1) ∧ Forall (λ kv, kv.2 ≠ []) m.

Definition sortedGroups (m : url.Values) : url.Values :=
  (λ k, (k, sort.Strings (url.Values_lookup m k))) <$> sort.Strings (m.*1).



(** The bytes that URL.String writes for a user name or a password. *)
Definition userinfo_byte (c : ascii) : bool :=
  url.isAlnum c || url.mem c "-._~$&+,;=%".

(** Userinfo as url.Parse builds it: no password unless one is set. *)
Definition userinfo_wf (user : option url.Userinfo) : Prop :=
  ∀ ui, user = Some ui → url.passwordSet ui = false → url.password ui = [].

Definition printedUser (user : option url.Userinfo) : gostring :=
  match user with
  | Some ui => url.Userinfo_String ui ++ str "@"
  | None => []
  end.

(** The fields of a parsed URL that has a host. *)
Definition host_url_facts (U : url.URL) : Prop :=
  url.Opaque U = [] ∧ url.OmitHost U = false ∧
  (url.Scheme U = [] ∨ lower_scheme (url.Scheme U) = true) ∧
  userinfo_wf (url.User U) ∧
  (url.Path U = [] ∨ head (url.Path U) = Some "/"%char) ∧
  (url.RawPath U = [] ∨ head (url.RawPath U) = Some "/"%char) ∧
  (url.ForceQuery U = true → url.RawQuery U = []).

(** CanonicalizeURL field by field. *)
Definition canonHost (scheme host : gostring) : gostring :=
  let port := (url.splitHostPort host).2 in
  if bool_decide (scheme = str "http") && bool_decide (port = str "80")
     || bool_decide (scheme = str "https") && bool_decide (port = str "443")
  then (url.splitHostPort host).1 else host.

Definition canonPath (path : gostring) : gostring :=
  let path :=
    if negb (bool_decide (path = str "/")) && strings.HasSuffix path (str "/")
    then strings.TrimRight path (str "/") else path in
  if bool_decide (path = []) then str "/" else path.

Definition canonQuery (query : gostring) : gostring :=
  if negb (bool_decide (query = [])) then rebuildQuery query else query.

(** What URL.String writes for a URL with a host, no opaque part and no
    fragment, whose escaped path starts with "/". *)
Definition printed (scheme : gostring) (user : option url.Userinfo)
    (host path : gostring) (forceQuery : bool) (query : gostring) : gostring :=
  (if bool_decide (scheme = []) then [] else scheme ++ str ":") ++
  str "//" ++ (printedUser user ++ host) ++ path ++
  (if forceQuery || negb (bool_decide (query = [])) then str "?" ++ query else []).

(** * Vocabulary of the further properties *)

(** ** Runs of the frontier

    The operations of the frontier that change it, and the frontier they
    lead to from NewFrontier. *)
Inductive frontierOp :=
| FPush (req : types.Request)
| FTryPop
| FClose
| FDrain
| FRestoreAll (reqs : list types.Request).

Definition run_frontierOp (f : Frontier.t) (op : frontierOp) : Frontier.t :=
  match op with
  | FPush req => Frontier.Push f req
  | FTryPop => (Frontier.TryPop f).2
  | FClose => Frontier.Close f
  | FDrain => (Frontier.Drain f).2
  | FRestoreAll reqs => Frontier.RestoreAll f reqs
  end.

Definition frontier_after (ops : list frontierOp) : Frontier.t :=
  fold_left run_frontierOp ops Frontier.New.

(** Every item of the queue records its own position. *)
Definition index_ok (h : priorityQueue.t) : Prop :=
  ∀ k it, h !! k = Some it → priorityQueue.index it = Z.of_nat k.

(** ** Fingerprints *)

(** The inverse of hex.EncodeToString on its own output. *)
Fixpoint hex_decode (s : gostring) : gostring :=
  match s with
  | a :: b :: rest => ascii_of_N (url.unhex a * 16 + url.unhex b) :: hex_decode rest
  | _ => []
  end.

(** ** URLs as they are written *)

(** A scheme that url.Parse accepts: a letter, then letters, digits and
    "+-.", in any case. *)
Definition valid_scheme (sch : gostring) : bool :=
  match sch with
  | [] => false
  | c :: _ => url.isLetter c && forallb scheme_byte sch
  end.

(** scheme "://" host path, followed by "?" query when there is a query. *)
Definition absoluteURL (scheme host path query : gostring) : gostring :=
  scheme ++ str "://" ++ host ++ path ++
  (if negb (bool_decide (query = [])) then str "?" ++ query else []).

(** A path as it may follow the host: empty or starting with "/", without
    control bytes, "#" and "?", and with well-formed percent escapes. *)
Definition written_path (path : gostring) : Prop :=
  (path = [] ∨ head path = Some "/"%char) ∧
  forallb url_safe_byte path = true ∧
  is_Some (url.unescape path url.encodePath).

(** A path of unreserved bytes and "/": nothing to escape or to unescape. *)
Definition plain_path_byte (c : ascii) : bool :=
  plain_byte c || bool_decide (c = "/"%char).

(** One piece of a query between two "&" as parseQuery reads it: the
    decoded key and value, or nothing when the piece is skipped. *)
Definition decodePair (piece : gostring) : option (gostring * gostring) :=
  if strings.Contains piece (str ";") then None
  else if bool_decide (piece = []) then None
  else
    let '(k, v, _) := strings.Cut piece (str "=") in
    match url.QueryUnescape k, url.QueryUnescape v with
    | Some k', Some v' => Some (k', v')
    | _, _ => None
    end.

(** The bytes of a piece of a written query: as in a path, and no "&". *)
Definition query_piece_byte (c : ascii) : bool :=
  url_safe_byte c && negb (bool_decide (c = "&"%char)).

(** The decoded pairs of a query put into url.Values one after the other. *)
Definition addPairs (kvs : list (gostring * gostring)) (m : url.Values) : url.Values :=
  fold_left (λ m kv, url.Values_add m kv.1 kv.2) kvs m.

(** ** robots.txt *)

(** What IsAllowed answers from the rules it has for a domain, [None]
    standing for the failure to get them. *)
Definition rules_allow (data : option RobotsManager.robotsData) (u : url.URL) : bool :=
  match data with
  | None => true
  | Some data =>
      let path := if bool_decide (url.Path u = []) then str "/" else url.Path u in
      if existsb (λ pattern, RobotsManager.matchRobotsPattern pattern path)
                 (RobotsManager.allowed data)
      then true
      else negb (existsb (λ pattern, RobotsManager.matchRobotsPattern pattern path)
                         (RobotsManager.disallowed data))
  end.

(** The manager with another network behind it. *)
Definition with_client (rm : RobotsManager.t)
    (client : gostring → option RobotsManager.robotsData) : RobotsManager.t :=
  {| RobotsManager.enabled := RobotsManager.enabled rm;
     RobotsManager.cache := RobotsManager.cache rm;
     RobotsManager.client := client |}.

(** The value of a line whose key is "sitemap". *)
Definition sitemapOf `{GoLib} (line : gostring) : option gostring :=
  match RobotsManager.splitLine line with
  | Some (key, value) => if bool_decide (key = str "sitemap") then Some value else None
  | None => None
  end.

(** ** The fetcher *)

(** The results of [k] successive calls of nextUserAgent. *)
Fixpoint userAgents_of (version : gostring) (k : nat) (f : fetcher.HTTPFetcher)
  : list (option gostring) :=
  match k with
  | O => []
  | S k =>
      let '(ua, f') := fetcher.nextUserAgent version f in
      ua :: userAgents_of version k f'
  end.

(** Reading with buffers of the given sizes, one call of Read for each,
    until io.EOF comes: the bytes read and whether io.EOF came. *)
Fixpoint readAll (sizes : list nat) (r : types.bytesReader) : gostring * bool :=
  match sizes with
  | [] => ([], false)
  | plen :: sizes =>
      let '(chunk, eof, r') := types.Read r plen in
      if eof then ([], true)
      else let '(rest, eof') := readAll sizes r' in (chunk ++ rest, eof')
  end.

(** ** The scheduler *)

(** Calls of applyThrottle, each with its domain, the clock at its entry
    and the overshoot of its sleep: the map they leave. *)
Definition throttle_after (delay : Z) (calls : list (gostring * Z * Z))
    (throttle : gmap gostring Z) : gmap gostring Z :=
  fold_left
    (λ throttle '(domain, now, overshoot),
       (Scheduler.applyThrottle delay throttle now overshoot domain).1)
    calls throttle.

(** A tick at which every worker is idle and the frontier is empty. *)
Definition idle_tick (concurrency : Z) (ev : Scheduler.monitorEvent) : bool :=
  match ev with
  | Scheduler.Tick idle queueLen => (concurrency <=? idle)%Z && (queueLen =? 0)
  | _ => false
  end.

Definition is_Tick (ev : Scheduler.monitorEvent) : bool :=
  match ev with Scheduler.Tick _ _ => true | _ => false end.

(** Three idle ticks in a row. *)
Definition three_idle_ticks (concurrency : Z) (events : list Scheduler.monitorEvent)
  : Prop :=
  ∃ pre t1 t2 t3 post,
    events = pre ++ t1 :: t2 :: t3 :: post ∧
    idle_tick concurrency t1 = true ∧ idle_tick concurrency t2 = true ∧
    idle_tick concurrency t3 = true.

(** The events begin with [n] idle ticks. *)
Definition idle_prefix (concurrency : Z) (n : nat)
    (events : list Scheduler.monitorEvent) : Prop :=
  ∃ l post, events = l ++ post ∧ length l = n ∧
            Forall (λ ev, idle_tick concurrency ev = true) l.

(** ** Runs of the engine *)

(** The engine that New and the setters SetFetcher, SetParser and
    OnResponse leave. *)
Definition engine_with (c : Engine.Config)
    (client : gostring → option RobotsManager.robotsData)
    (fetchers : gmap gostring Engine.Fetcher) (parser : option Engine.Parser)
    (callbacks : list (gostring * Engine.ResponseCallback)) : Engine.t :=
  let e := Engine.New c client in
  Engine.mk (Engine.cfg e) (Engine.frontier e) (Engine.dedup e) (Engine.robots e)
    fetchers parser callbacks (Engine.state e) (Engine.stats e)
    (Engine.itemChan e) (Engine.cancelled e) (Engine.paused e) (Engine.slept e).

(** The steps of a run of the engine in which one thing happens at a
    time: a call of one of its methods from start to return, a turn of a
    worker from the dequeue to the end of the processing, or the idle
    monitor's closing of the frontier.  No step begins before the step
    before it has ended, as with one worker and no call from another
    goroutine in the meantime. *)
Inductive engineOp :=
| EAddSeed (rawURL : gostring)
| EAddRequest (req : types.Request)
| EWork
| EIdleClose
| EStart
| EStop
| EPause
| EResume.

Definition run_engineOp `{GoLib} (e : Engine.t) (op : engineOp) : Engine.t :=
  match op with
  | EAddSeed rawURL => (Engine.AddSeed e rawURL).2
  | EAddRequest req => (Engine.AddRequest e req).2
  | EWork => Scheduler.worker_iteration e
  | EIdleClose => Engine.with_frontier e (Frontier.Close (Engine.frontier e))
  | EStart => (Engine.Start e).2
  | EStop => Engine.Stop e
  | EPause => Engine.Pause e
  | EResume => Engine.Resume e
  end.

Definition engine_after `{GoLib} (e : Engine.t) (ops : list engineOp) : Engine.t :=
  fold_left run_engineOp ops e.

(** The state of the lifecycle and the flags that go with it. *)
Definition lifecycle (e : Engine.t) : Engine.State * bool * bool * bool :=
  (Engine.state e, Engine.paused e, Engine.cancelled e,
   Frontier.IsClosed (Engine.frontier e)).

(** The later engine has the configuration of the earlier one and has seen
    every URL the earlier one has. *)
Definition extends (e e' : Engine.t) : Prop :=
  Engine.cfg e' = Engine.cfg e ∧
  Deduplicator.seen (Engine.dedup e) ⊆ Deduplicator.seen (Engine.dedup e').

(** The same, the lifecycle being where it was. *)
Definition steady (e e' : Engine.t) : Prop :=
  extends e e' ∧ lifecycle e' = lifecycle e.

(** A request as admission lets it into the queue. *)
Definition admitted `{GoLib} (e : Engine.t) (r : types.Request) : Prop :=
  (types.Depth r ≤ Engine.MaxDepth (Engine.cfg e))%Z ∧
  Deduplicator.IsSeen (Engine.dedup e) (types.URLString r) = true.

(** What the queue, the deduplicator and urls_enqueued have to do with
    each other; [slack] counts the requests that a worker holds. *)
Definition crawl_inv `{GoLib} (slack : nat) (e : Engine.t) : Prop :=
  frontier_inv (Engine.frontier e) ∧
  Forall (admitted e) (Frontier.Snapshot (Engine.frontier e)) ∧
  Engine.URLsEnqueued (Engine.stats e)
    = int64.wrap (Z.of_nat (Deduplicator.Count (Engine.dedup e))) ∧
  Frontier.Len (Engine.frontier e) + slack ≤ Deduplicator.Count (Engine.dedup e).

(** The flags follow the state. *)
Definition lifecycle_ok (e : Engine.t) : Prop :=
  Engine.paused e = bool_decide (Engine.state e = Engine.StatePaused) ∧
  Engine.cancelled e = bool_decide (Engine.state e = Engine.StateStopping) ∧
  (Engine.state e = Engine.StateStopping →
   Frontier.IsClosed (Engine.frontier e) = true).

(** The request that NewRequest makes for a URL of the concrete runs. *)
Definition request_for (rawURL : string) : types.Request :=
  default (tagged rawURL 2) (@types.NewRequest plainLib (str rawURL)).

(** The order of the lifecycle. *)
Definition state_rank (s : Engine.State) : nat :=
  match s with
  | Engine.StateIdle => 0
  | Engine.StateRunning | Engine.StatePaused => 1
  | Engine.StateStopping => 2
  | Engine.StateStopped => 3
  end.

(** ** Items *)

(** What processItems sends on for an item: nothing when the pipeline
    returns an error, else the item the pipeline returns. *)
Definition forwarded (pipeline : option Engine.Pipeline) (item : types.Item)
  : option (option types.Item) :=
  match pipeline with
  | None => Some (Some item)
  | Some process =>
      match process item with
      | Engine.Processed item => Some item
      | Engine.ProcessError => None
      end
  end.

(** ** Checkpoints *)

(** The entry that Save writes for a queued request, and the request that
    Load makes of it. *)
Definition checkpoint_of (req : types.Request) : CheckpointManager.checkpointReq :=
  {| CheckpointManager.cr_URL := types.URLString req;
     CheckpointManager.cr_Depth := types.Depth req;
     CheckpointManager.cr_Priority := types.Priority req;
     CheckpointManager.cr_ParentURL := types.ParentURL req |}.

Definition restored `{GoLib} (req : types.Request) : option types.Request :=
  CheckpointManager.newRequestFromCheckpoint (checkpoint_of req).

(** * The frontier is a binary min-heap on priority *)
Section FrontierProofs.
Local Open Scope Z_scope.

Lemma parent_cases (k : nat) :
  (k = 0 ∧ parent k = 0)%nat ∨ (k = 2 * parent k + 1)%nat ∨ (k = 2 * parent k + 2)%nat.
Proof.
  unfold parent.
  pose proof (Nat.div_mod_eq (k - 1) 2).
  pose proof (Nat.mod_upper_bound (k - 1) 2).
  destruct k; [left; split; [done | done] | right]. lia.
Qed.

Ltac parent_eqs :=
  repeat match goal with
  | H : parent ?a = ?b |- _ => rewrite H in *; clear H
  | H : ?b = parent ?a |- _ => rewrite <- H in *; clear H
  end.

Ltac parents :=
  repeat match goal with
  | |- context [parent ?k] =>
      lazymatch goal with
      | _ : (k = 0 ∧ parent k = 0)%nat ∨ _ |- _ => fail
      | _ => pose proof (parent_cases k)
      end
  | _ : context [parent ?k] |- _ =>
      lazymatch goal with
      | _ : (k = 0 ∧ parent k = 0)%nat ∨ _ |- _ => fail
      | _ => pose proof (parent_cases k)
      end
  end.

Lemma prio_lookup h k a : h !! k = Some a → prio h k = priorityQueue.priority a.
Proof. unfold prio. by intros ->. Qed.

Lemma Less_prio h i j :
  (i < length h)%nat → (j < length h)%nat →
  priorityQueue.Less h i j = (prio h i <? prio h j).
Proof.
  intros Hi Hj. unfold priorityQueue.Less, prio.
  destruct (lookup_lt_is_Some_2 h i Hi) as [a ->].
  destruct (lookup_lt_is_Some_2 h j Hj) as [b ->]. done.
Qed.

Lemma Swap_length h i j : length (priorityQueue.Swap h i j) = length h.
Proof.
  unfold priorityQueue.Swap. destruct (h !! i), (h !! j); try done.
  by rewrite !length_insert.
Qed.

Lemma Swap_lookup h i j k a b :
  h !! i = Some a → h !! j = Some b →
  priorityQueue.Swap h i j !! k =
    if decide (k = j) then Some (priorityQueue.set_index a (Z.of_nat j))
    else if decide (k = i) then Some (priorityQueue.set_index b (Z.of_nat i))
    else h !! k.
Proof.
  intros Ha Hb. unfold priorityQueue.Swap. rewrite Ha, Hb.
  pose proof (lookup_lt_Some _ _ _ Ha). pose proof (lookup_lt_Some _ _ _ Hb).
  destruct (decide (k = j)) as [->|].
  - rewrite list_lookup_insert_eq; [done | by rewrite length_insert].
  - rewrite list_lookup_insert_ne by done.
    destruct (decide (k = i)) as [->|].
    + by rewrite list_lookup_insert_eq.
    + by rewrite list_lookup_insert_ne.
Qed.

Lemma prio_Swap h i j k :
  (i < length h)%nat → (j < length h)%nat →
  prio (priorityQueue.Swap h i j) k =
    if decide (k = j) then prio h i
    else if decide (k = i) then prio h j
    else prio h k.
Proof.
  intros Hi Hj.
  destruct (lookup_lt_is_Some_2 h i Hi) as [a Ha].
  destruct (lookup_lt_is_Some_2 h j Hj) as [b Hb].
  unfold prio at 1. rewrite (Swap_lookup h i j k a b Ha Hb).
  repeat case_decide; simpl; by rewrite ?(prio_lookup _ _ _ Ha), ?(prio_lookup _ _ _ Hb).
Qed.

Lemma Swap_ge h i j k :
  (i < k)%nat → (j < k)%nat → priorityQueue.Swap h i j !! k = h !! k.
Proof.
  intros Hi Hj. unfold priorityQueue.Swap.
  destruct (h !! i), (h !! j); try done.
  rewrite !list_lookup_insert_ne by lia. done.
Qed.

Lemma swap_Permutation {A} (l : list A) i j x y :
  l !! i = Some x → l !! j = Some y → <[j:=x]> (<[i:=y]> l) ≡ₚ l.
Proof.
  intros Hx Hy.
  pose proof (lookup_lt_Some _ _ _ Hx). pose proof (lookup_lt_Some _ _ _ Hy).
  apply Permutation_inj. split; [by rewrite !length_insert |].
  exists (λ k, if decide (k = j) then i else if decide (k = i) then j else k).
  split.
  - intros a b. repeat case_decide; lia.
  - intros k. destruct (decide (k = j)) as [->|].
    + rewrite list_lookup_insert_eq; [done | by rewrite length_insert].
    + rewrite list_lookup_insert_ne by done.
      destruct (decide (k = i)) as [->|].
      * by rewrite list_lookup_insert_eq.
      * by rewrite list_lookup_insert_ne.
Qed.

Lemma Swap_erase h i j : erase <$> priorityQueue.Swap h i j ≡ₚ erase <$> h.
Proof.
  unfold priorityQueue.Swap.
  destruct (h !! i) as [a|] eqn:Ha; [|done].
  destruct (h !! j) as [b|] eqn:Hb; [|done].
  rewrite !list_fmap_insert.
  change (erase (priorityQueue.set_index a (Z.of_nat j))) with (erase a).
  change (erase (priorityQueue.set_index b (Z.of_nat i))) with (erase b).
  apply (swap_Permutation (erase <$> h) i j (erase a) (erase b));
    by rewrite list_lookup_fmap, ?Ha, ?Hb.
Qed.

Lemma up_loop_S fuel h j :
  heap.up_loop (S fuel) h j =
    if (parent j =? j)%nat || negb (priorityQueue.Less h j (parent j)) then h
    else heap.up_loop fuel (priorityQueue.Swap h (parent j) j) (parent j).
Proof. reflexivity. Qed.

Lemma down_loop_S fuel h i n :
  heap.down_loop (S fuel) h i n =
    if (n <=? 2 * i + 1)%nat then h
    else
      let j := if (2 * i + 1 + 1 <? n)%nat && priorityQueue.Less h (2 * i + 1 + 1) (2 * i + 1)
               then (2 * i + 1 + 1)%nat else (2 * i + 1)%nat in
      if negb (priorityQueue.Less h j i) then h
      else heap.down_loop fuel (priorityQueue.Swap h i j) j n.
Proof. reflexivity. Qed.

Lemma up_loop_erase fuel : ∀ h j, erase <$> heap.up_loop fuel h j ≡ₚ erase <$> h.
Proof.
  induction fuel as [|fuel IH]; intros h j; [done |].
  rewrite up_loop_S.
  destruct (_ || _); [done |]. rewrite IH. apply Swap_erase.
Qed.

Lemma down_loop_erase fuel : ∀ h i n, erase <$> heap.down_loop fuel h i n ≡ₚ erase <$> h.
Proof.
  induction fuel as [|fuel IH]; intros h i n; [done |].
  rewrite down_loop_S.
  destruct (_ <=? _)%nat; [done |]. cbv zeta.
  destruct (negb _); [done |]. rewrite IH. apply Swap_erase.
Qed.

Lemma erase_length (h h' : priorityQueue.t) :
  erase <$> h ≡ₚ erase <$> h' → length h = length h'.
Proof. intros Hp. apply Permutation_length in Hp. by rewrite !length_fmap in Hp. Qed.

Lemma up_loop_heap fuel : ∀ h j,
  (j ≤ fuel)%nat → (j < length h)%nat → up_inv h j → is_heap (heap.up_loop fuel h j).
Proof.
  induction fuel as [|fuel IH]; intros h j Hf Hj [H1 H2].
  - simpl. intros k Hk. apply H1; lia.
  - rewrite up_loop_S.
    assert (Hpj : (parent j < length h)%nat) by (parents; lia).
    destruct (Nat.eqb_spec (parent j) j) as [He|Hne]; simpl.
    { intros k Hk. apply H1; [done |]. parents; lia. }
    rewrite Less_prio by done.
    destruct (Z.ltb_spec (prio h j) (prio h (parent j))) as [Hlt|Hge]; simpl.
    2:{ intros k Hk. destruct (decide (k = j)) as [->|]; [lia | by apply H1]. }
    apply IH; [parents; lia | by rewrite Swap_length |].
    split.
    + intros k Hk Hkne. rewrite Swap_length in Hk.
      rewrite !prio_Swap by done.
      pose proof (H1 k Hk) as H1k. pose proof (H2 k Hk) as H2k.
      pose proof (H1 j) as H1j.
      repeat case_decide; parents; try lia; parent_eqs; try lia.
    + intros k Hk Hpk Hpos. rewrite Swap_length in Hk.
      rewrite !prio_Swap by done.
      pose proof (H1 k Hk) as H1k.
      pose proof (H1 (parent j)) as H1p.
      repeat case_decide; parents; try lia; parent_eqs; try lia.
Qed.

Lemma down_loop_heap fuel : ∀ h i n,
  (n - i ≤ fuel)%nat → (n ≤ length h)%nat → down_inv h i n →
  is_heap_upto (heap.down_loop fuel h i n) n.
Proof.
  induction fuel as [|fuel IH]; intros h i n Hf Hn [H1 H2].
  - simpl. intros k Hk. apply H1; [done |]. parents; lia.
  - rewrite down_loop_S.
    destruct (Nat.leb_spec n (2 * i + 1)) as [Hle|Hj1].
    { intros k Hk. apply H1; [done |]. parents; lia. }
    cbv zeta. set (j := if _ && _ then _ else _).
    assert (Hj : (j = 2 * i + 1 ∨ j = 2 * i + 2)%nat ∧ (j < n)%nat ∧
                 (∀ c, (c = 2 * i + 1 ∨ c = 2 * i + 2)%nat → (c < n)%nat →
                       prio h j ≤ prio h c)).
    { subst j. destruct (Nat.ltb_spec (2 * i + 1 + 1) n) as [Hj2|Hj2]; cbn [andb].
      - rewrite Less_prio by lia.
        replace (2 * i + 2)%nat with (2 * i + 1 + 1)%nat by lia.
        destruct (Z.ltb_spec (prio h (2 * i + 1 + 1)) (prio h (2 * i + 1)));
          (split; [lia |]); (split; [lia |]); intros c [->| ->] _; lia.
      - split; [lia |]. split; [lia |]. intros c [->| ->] Hc; lia. }
    clearbody j. destruct Hj as (Hjc & Hjn & Hjmin).
    rewrite Less_prio by lia.
    destruct (Z.ltb_spec (prio h j) (prio h i)) as [Hlt|Hge]; simpl.
    2:{ intros k Hk. destruct (decide (parent k = i)) as [Hp|Hp]; [|by apply H1].
        rewrite Hp. transitivity (prio h j); [lia |].
        apply Hjmin; [parents; lia | lia]. }
    apply IH; [lia | by rewrite Swap_length |].
    split.
    + intros k Hk Hpk. rewrite !prio_Swap by lia.
      pose proof (H1 k Hk) as H1k. pose proof (H2 k Hk) as H2k.
      pose proof (Hjmin k) as Hmk. pose proof (H2 j) as H2j.
      repeat case_decide; subst; parents; try lia; parent_eqs; try lia.
    + intros k Hk Hpk Hpos. rewrite !prio_Swap by lia.
      pose proof (H1 k Hk) as H1k.
      repeat case_decide; parents; try lia; parent_eqs; try lia.
Qed.

Lemma down_loop_ge fuel : ∀ h i n k,
  (n ≤ k)%nat → heap.down_loop fuel h i n !! k = h !! k.
Proof.
  induction fuel as [|fuel IH]; intros h i n k Hk; [done |].
  rewrite down_loop_S.
  destruct (Nat.leb_spec n (2 * i + 1)); [done |].
  cbv zeta. set (j := if _ && _ then _ else _).
  assert (j < n)%nat.
  { subst j. destruct (Nat.ltb_spec (2 * i + 1 + 1) n); cbn [andb]; [|lia].
    destruct (priorityQueue.Less _ _ _); lia. }
  destruct (negb _); [done |].
  rewrite IH by done. apply Swap_ge; lia.
Qed.

Lemma heap_root_min h n :
  is_heap_upto h n → ∀ k, (k < n)%nat → prio h 0 ≤ prio h k.
Proof.
  intros Hh k. induction k as [k IH] using lt_wf_ind. intros Hk.
  destruct (decide (k = 0%nat)) as [->|]; [lia |].
  transitivity (prio h (parent k)).
  - apply IH; parents; lia.
  - apply Hh. lia.
Qed.

Lemma prio_app_l (h x : priorityQueue.t) k :
  (k < length h)%nat → prio (h ++ x) k = prio h k.
Proof. intros Hk. unfold prio. by rewrite lookup_app_l. Qed.

Lemma prio_take (h : priorityQueue.t) n k :
  (k < n)%nat → prio (take n h) k = prio h k.
Proof. intros Hk. unfold prio. by rewrite lookup_take_lt. Qed.

Lemma heap_up_length h j : length (heap.up h j) = length h.
Proof. apply erase_length, up_loop_erase. Qed.

Lemma heap_Push_erase h x :
  erase <$> heap.Push h x ≡ₚ erase x :: (erase <$> h).
Proof.
  unfold heap.Push, heap.up. rewrite up_loop_erase. unfold priorityQueue.Push.
  rewrite fmap_app. simpl. change (erase (priorityQueue.set_index x _)) with (erase x).
  by rewrite Permutation_app_comm.
Qed.

Lemma heap_Push_length h x : length (heap.Push h x) = S (length h).
Proof.
  pose proof (heap_Push_erase h x) as Hp. apply Permutation_length in Hp.
  simpl in Hp. by rewrite !length_fmap in Hp.
Qed.

Lemma heap_Push_heap h x : is_heap h → is_heap (heap.Push h x).
Proof.
  intros Hh. unfold heap.Push, heap.up, priorityQueue.Len.
  assert (Hl : length (priorityQueue.Push h x) = S (length h)).
  { unfold priorityQueue.Push. rewrite length_app. simpl. lia. }
  rewrite Hl. replace (S (length h) - 1)%nat with (length h) by lia.
  apply up_loop_heap; [lia | lia |].
  split.
  - intros k Hk Hne. rewrite Hl in Hk. unfold priorityQueue.Push.
    rewrite !prio_app_l by (parents; lia). apply Hh. lia.
  - intros k Hk Hp Hpos. rewrite Hl in Hk. parents; lia.
Qed.

Lemma heap_Pop_spec h :
  h ≠ [] → is_heap h →
  ∃ item h', heap.Pop h = Some (item, h') ∧ is_heap h' ∧
    erase <$> h ≡ₚ erase item :: (erase <$> h') ∧
    Forall (λ y, priorityQueue.priority item ≤ priorityQueue.priority y) h'.
Proof.
  intros Hne Hh.
  destruct (length h) as [|n] eqn:Hlen; [by destruct h |].
  assert (H0 : (0 < length h)%nat) by lia.
  assert (Hn : (n < length h)%nat) by lia.
  destruct (lookup_lt_is_Some_2 h 0 H0) as [r Hr].
  destruct (lookup_lt_is_Some_2 h n Hn) as [l Hl].
  unfold heap.Pop, heap.down, priorityQueue.Len. rewrite Hlen.
  replace (S n - 1)%nat with n by lia.
  set (h1 := priorityQueue.Swap h 0 n). set (h2 := heap.down_loop (S n) h1 0 n).
  assert (Hlen1 : length h1 = S n) by (subst h1; by rewrite Swap_length).
  assert (Hp2 : erase <$> h2 ≡ₚ erase <$> h).
  { subst h2 h1. rewrite down_loop_erase. apply Swap_erase. }
  assert (Hlen2 : length h2 = S n) by (by rewrite (erase_length _ _ Hp2)).
  assert (Hlast : h2 !! n = Some (priorityQueue.set_index r (Z.of_nat n))).
  { subst h2. rewrite down_loop_ge by lia. subst h1.
    rewrite (Swap_lookup h 0 n n r l Hr Hl). by rewrite decide_True. }
  assert (Hheap2 : is_heap_upto h2 n).
  { subst h2. apply down_loop_heap; [lia | lia |]. split.
    - intros k Hk Hpk. subst h1. rewrite !prio_Swap by lia.
      pose proof (Hh k). rewrite Hlen in *.
      repeat case_decide; parents; try lia.
    - intros k Hk Hpk Hpos. lia. }
  unfold priorityQueue.Pop. rewrite Hlen2. replace (S n - 1)%nat with n by lia.
  rewrite Hlast. eexists _, _. split; [done |].
  assert (Hsplit : h2 = take n h2 ++ [priorityQueue.set_index r (Z.of_nat n)]).
  { rewrite <- (take_drop_middle h2 n _ Hlast) at 1.
    rewrite (drop_ge h2 (S n)) by lia. done. }
  assert (Hperm : erase <$> h ≡ₚ erase r :: (erase <$> take n h2)).
  { rewrite <- Hp2. rewrite Hsplit at 1. rewrite fmap_app. simpl.
    by rewrite Permutation_app_comm. }
  split; [|split; [done |]].
  - intros k Hk. rewrite length_take in Hk.
    rewrite !prio_take by (parents; lia). apply Hheap2. lia.
  - apply Forall_forall. intros y Hy. simpl.
    assert (He : erase y ∈ erase <$> h).
    { rewrite Hperm. right. by apply list_elem_of_fmap_2. }
    apply list_elem_of_fmap in He as (x & Hxy & Hx).
    apply list_elem_of_lookup in Hx as [k Hk].
    pose proof (lookup_lt_Some _ _ _ Hk).
    pose proof (heap_root_min h (length h) Hh k ltac:(lia)) as Hmin.
    rewrite (prio_lookup _ _ _ Hr), (prio_lookup _ _ _ Hk) in Hmin.
    injection Hxy as _ Hpy. lia.
Qed.

Lemma NewFrontier_inv : frontier_inv Frontier.New.
Proof. split; [intros k Hk; simpl in Hk; lia | constructor]. Qed.

Lemma Push_inv f req : frontier_inv f → frontier_inv (Frontier.Push f req).
Proof.
  intros [Hh Hc]. unfold Frontier.Push. destruct (Frontier.closed f); [done |]. split; simpl.
  - by apply heap_Push_heap.
  - rewrite heap_Push_erase. by constructor.
Qed.

Lemma Push_open_requests f req :
  Frontier.closed f = false → priorityQueue.request <$> Frontier.pq (Frontier.Push f req) ≡ₚ req :: (priorityQueue.request <$> Frontier.pq f).
Proof.
  intros Hc. unfold Frontier.Push. rewrite Hc. simpl.
  pose proof (heap_Push_erase (Frontier.pq f)
    {| priorityQueue.request := req; priorityQueue.priority := types.Priority req; priorityQueue.index := 0 |}) as Hp.
  apply (fmap_Permutation fst) in Hp. rewrite <- !list_fmap_compose in Hp.
  simpl in Hp. rewrite <- list_fmap_compose in Hp. exact Hp.
Qed.

Lemma push_all_spec reqs : ∀ f,
  Frontier.closed f = false → frontier_inv f →
  frontier_inv (push_all f reqs) ∧ Frontier.closed (push_all f reqs) = false ∧
  priorityQueue.request <$> Frontier.pq (push_all f reqs) ≡ₚ (priorityQueue.request <$> Frontier.pq f) ++ reqs.
Proof.
  induction reqs as [|r reqs IH]; intros f Hc Hi; simpl.
  - by rewrite app_nil_r.
  - assert (Hc' : Frontier.closed (Frontier.Push f r) = false) by (unfold Frontier.Push; by rewrite Hc).
    destruct (IH (Frontier.Push f r) Hc' (Push_inv f r Hi)) as (H1 & H2 & H3).
    split; [done |]. split; [done |].
    rewrite H3, (Push_open_requests f r Hc). by rewrite <- Permutation_middle.
Qed.

Lemma TryPop_spec f :
  frontier_inv f →
  match Frontier.TryPop f with
  | (None, f') => f' = f ∧ Frontier.pq f = []
  | (Some r, f') =>
      frontier_inv f' ∧ Frontier.closed f' = Frontier.closed f ∧
      priorityQueue.request <$> Frontier.pq f ≡ₚ r :: (priorityQueue.request <$> Frontier.pq f') ∧
      Forall (λ y, types.Priority r ≤ priorityQueue.priority y) (Frontier.pq f')
  end.
Proof.
  intros [Hh Hc]. unfold Frontier.TryPop, priorityQueue.Len.
  destruct (Frontier.pq f) as [|x h] eqn:Hpq; [done |]. rewrite <- Hpq in *.
  replace (length (Frontier.pq f) =? 0)%nat with false
    by (rewrite Hpq; done).
  destruct (heap_Pop_spec (Frontier.pq f)) as (item & h' & -> & Hh' & Hp & Hmin);
    [by rewrite Hpq | done |].
  rewrite Hp in Hc. apply Forall_cons in Hc as [Hci Hc'].
  split; [by split |]. split; [done |]. split.
  - apply (fmap_Permutation fst) in Hp. rewrite <- !list_fmap_compose in Hp.
    simpl in Hp. rewrite <- list_fmap_compose in Hp. exact Hp.
  - simpl. unfold consistent in Hci. simpl in Hci. by rewrite <- Hci.
Qed.

Lemma pop_n_spec k : ∀ f,
  frontier_inv f →
  StronglySorted Z.le (types.Priority <$> (pop_n k f).1) ∧
  priorityQueue.request <$> Frontier.pq f ≡ₚ (pop_n k f).1 ++ (priorityQueue.request <$> Frontier.pq (pop_n k f).2) ∧
  length (pop_n k f).1 = (k `min` length (Frontier.pq f))%nat.
Proof.
  induction k as [|k IH]; intros f Hi; simpl.
  - split; [constructor |]. split; [done | lia].
  - pose proof (TryPop_spec f Hi) as Hpop.
    destruct (Frontier.TryPop f) as [[r|] f'].
    + destruct Hpop as (Hi' & _ & Hp & Hmin).
      destruct (IH f' Hi') as (Hs & Hp' & Hl).
      destruct (pop_n k f') as [rs f''] eqn:Hrec. simpl in *.
      split; [|split].
      * constructor; [done |].
        apply Forall_forall. intros p Hp0.
        apply list_elem_of_fmap in Hp0 as (r' & -> & Hr').
        assert (Hin : r' ∈ priorityQueue.request <$> Frontier.pq f').
        { rewrite Hp'. apply elem_of_app. by left. }
        apply list_elem_of_fmap in Hin as (y & -> & Hy).
        rewrite Forall_forall in Hmin. specialize (Hmin y Hy).
        destruct Hi' as [_ Hc]. rewrite Forall_forall in Hc.
        specialize (Hc (erase y) (list_elem_of_fmap_2 _ _ _ Hy)).
        unfold consistent in Hc. simpl in Hc. lia.
      * by rewrite Hp, Hp'.
      * apply Permutation_length in Hp. simpl in Hp.
        rewrite !length_fmap in Hp. rewrite Hp. simpl. lia.
    + destruct Hpop as [-> Hnil].
      destruct (IH f Hi) as (Hs & Hp' & Hl).
      split; [done |]. split; [done |]. rewrite Hnil in *. simpl in *. lia.
Qed.

(** C1, amended. Whatever is pushed on a new frontier and however many pops
    follow, the popped requests come out in ascending order of priority,
    they are the first [min k n] of the [n] pushed, and with the requests
    still queued they are exactly the pushed ones.  Nothing is promised
    about the order of requests of equal priority. *)
Theorem frontier_pops_sorted (reqs : list types.Request) (k : nat) :
  let popped := (pop_n k (push_all Frontier.New reqs)).1 in
  let rest := (pop_n k (push_all Frontier.New reqs)).2 in
  Sorted Z.le (types.Priority <$> popped) ∧
  popped ++ Frontier.Snapshot rest ≡ₚ reqs ∧
  length popped = (k `min` length reqs)%nat.
Proof.
  destruct (push_all_spec reqs Frontier.New eq_refl NewFrontier_inv)
    as (Hi & _ & Hp).
  destruct (pop_n_spec k _ Hi) as (Hs & Hp' & Hl). simpl in Hp.
  split; [by apply StronglySorted_Sorted |]. split.
  - unfold Frontier.Snapshot. by rewrite <- Hp', Hp.
  - rewrite Hl. apply Permutation_length in Hp.
    rewrite length_fmap in Hp. by rewrite Hp.
Qed.

End FrontierProofs.

(** ** C1: the order of the pops *)

Lemma three_equal_priorities :
  (pop_n 3 (push_all Frontier.New
              [tagged "a" 2; tagged "b" 2; tagged "c" 2])).1
  = [tagged "a" 2; tagged "c" 2; tagged "b" 2].
Proof. vm_compute. reflexivity. Qed.

(** C1, as stated, fails: priorityQueue.Less compares the priority alone and
    there is no sequence number, so container/heap does not keep insertion
    order among equal priorities.  Pushing a, b, c with one priority pops
    a, c, b. *)
Lemma frontier_fifo_counterexample : ¬ frontier_ordering_as_specified.
Proof.
  intros Hspec.
  destruct (Hspec [tagged "a" 2; tagged "b" 2; tagged "c" 2] 3) as [_ Hfifo].
  cbv zeta in Hfifo. rewrite three_equal_priorities in Hfifo.
  specialize (Hfifo 1 2 (tagged "b" 2) (tagged "c" 2) 2 1).
  assert (2 < 1) as Habs; [|lia].
  apply Hfifo; (lia || reflexivity).
Qed.

(** ** C10: RestoreAll does not look at the closed flag *)

Lemma RestoreAll_length (f : Frontier.t) (reqs : list types.Request) :
  Frontier.Len (Frontier.RestoreAll f reqs) = Frontier.Len f + length reqs.
Proof.
  unfold Frontier.Len, Frontier.RestoreAll, priorityQueue.Len. simpl.
  generalize (Frontier.pq f). induction reqs as [|r reqs IH]; intros h; simpl.
  - lia.
  - rewrite IH, heap_Push_length. lia.
Qed.

Lemma requests_of_erase (h h' : priorityQueue.t) :
  erase <$> h ≡ₚ erase <$> h' →
  priorityQueue.request <$> h ≡ₚ priorityQueue.request <$> h'.
Proof.
  intros Hp. apply (fmap_Permutation fst) in Hp.
  by rewrite <- !list_fmap_compose in Hp.
Qed.

Lemma RestoreAll_requests (f : Frontier.t) (reqs : list types.Request) :
  Frontier.Snapshot (Frontier.RestoreAll f reqs) ≡ₚ Frontier.Snapshot f ++ reqs.
Proof.
  destruct f as [h c]. unfold Frontier.RestoreAll, Frontier.Snapshot.
  cbn [Frontier.pq Frontier.closed].
  revert h. induction reqs as [|r reqs IH]; intros h; cbn [fold_left].
  - by rewrite app_nil_r.
  - rewrite IH.
    rewrite (requests_of_erase _ (Frontier.item_of r :: h)
               (heap_Push_erase h (Frontier.item_of r))).
    rewrite fmap_cons. cbn [priorityQueue.request Frontier.item_of].
    by rewrite <- Permutation_middle.
Qed.

(** C10. On a closed frontier RestoreAll inserts every request it is given:
    afterwards the queue holds the requests it held and the given ones,
    each as often as it was queued or given, so the length grows by their
    number, and the frontier stays closed; Push on the same frontier
    inserts nothing and leaves the frontier as it is. *)
Theorem RestoreAll_on_closed_frontier
    (f : Frontier.t) (reqs : list types.Request) (req : types.Request) :
  Frontier.IsClosed f = true →
  Frontier.Snapshot (Frontier.RestoreAll f reqs) ≡ₚ Frontier.Snapshot f ++ reqs ∧
  Frontier.Len (Frontier.RestoreAll f reqs) = Frontier.Len f + length reqs ∧
  Frontier.IsClosed (Frontier.RestoreAll f reqs) = true ∧
  Frontier.Push f req = f ∧
  Frontier.Snapshot (Frontier.Push f req) = Frontier.Snapshot f ∧
  Frontier.Len (Frontier.Push f req) = Frontier.Len f.
Proof.
  unfold Frontier.IsClosed. intros Hc.
  split; [apply RestoreAll_requests |].
  split; [apply RestoreAll_length |]. split; [exact Hc |].
  unfold Frontier.Push. rewrite Hc. done.
Qed.

Lemma RestoreAll_on_closed_frontier_witness :
  Frontier.IsClosed (Frontier.Close Frontier.New) = true ∧
  Frontier.Snapshot (Frontier.RestoreAll (Frontier.Close Frontier.New)
                       [tagged "a" 2; tagged "b" 0])
  ≡ₚ [tagged "a" 2; tagged "b" 0] ∧
  Frontier.Len (Frontier.RestoreAll (Frontier.Close Frontier.New)
                  [tagged "a" 2; tagged "b" 0]) = 2 ∧
  Frontier.Len (Frontier.Push (Frontier.Close Frontier.New) (tagged "c" 1)) = 0.
Proof.
  split; [reflexivity |].
  destruct (RestoreAll_on_closed_frontier (Frontier.Close Frontier.New)
              [tagged "a" 2; tagged "b" 0] (tagged "c" 1) eq_refl)
    as (H0 & H1 & _ & _ & _ & H2).
  split; [exact H0 |]. split; [exact H1 | exact H2].
Defined.

(** * The scheduler's handling of fetch outcomes *)
Section SchedulerProofs.
Local Open Scope Z_scope.


(** ** C2: the retry path *)




(** ** Admission and extraction leave the fetch counters alone *)






(** ** C3: a cancelled fetch *)

Lemma cancelled_round_trip `{GoLib} now network req err :
  network req = fetcher.DoError err →
  fetcher.is_Canceled err = true →
  Scheduler.httpFetcher now network req
  = inr (Engine.IsFetchError
           {| types.FE_URL := types.URLString req; types.FE_StatusCode := 0;
              types.Retryable := false; types.RetryAfter := 0 |}).
Proof.
  intros Hn Hc. unfold Scheduler.httpFetcher, fetcher.Fetch. rewrite Hn.
  unfold fetcher.isRetryableError. by rewrite Hc.
Qed.

(** C3, as stated, fails: handleFetchError adds one to RequestsFailed before
    it looks at the error, so a cancelled fetch is counted as a failure. *)
Lemma cancellation_counterexample : ¬ cancellation_as_specified.
Proof.
  intros Hspec.
  destruct (Hspec plainLib (engine0 (λ _, fetcher.DoError canceled)) (tagged "a" 2)
              0 (λ _, fetcher.DoError canceled) canceled) as [_ Hcount];
    [reflexivity | reflexivity | reflexivity |].
  vm_compute in Hcount. discriminate Hcount.
Qed.

(** C3, amended. When the round trip of the HTTP fetcher is aborted by
    context cancellation the error is not retryable: the request is not
    pushed back (the frontier, the deduplicator and the admission counters
    stay as they are), and the outcome is counted as a failure:
    requests_sent, requests_failed and responses_error each grow by one,
    responses_ok does not. *)
Theorem cancelled_fetch_is_terminal_and_counted `{GoLib}
    (e : Engine.t) (req : types.Request) (now : Z)
    (network : types.Request → fetcher.roundTrip) (err : fetcher.neterror) :
  Engine.fetchers e !! fetcherType_of e req = Some (Scheduler.httpFetcher now network) →
  network req = fetcher.DoError err →
  fetcher.is_Canceled err = true →
  let e' := Scheduler.processRequest e req in
  Engine.frontier e' = Engine.frontier e ∧
  Engine.dedup e' = Engine.dedup e ∧
  Engine.RequestsSent (Engine.stats e')
    = int64.add (Engine.RequestsSent (Engine.stats e)) 1 ∧
  Engine.RequestsFailed (Engine.stats e')
    = int64.add (Engine.RequestsFailed (Engine.stats e)) 1 ∧
  Engine.ResponsesError (Engine.stats e')
    = int64.add (Engine.ResponsesError (Engine.stats e)) 1 ∧
  Engine.ResponsesOK (Engine.stats e') = Engine.ResponsesOK (Engine.stats e) ∧
  Engine.URLsEnqueued (Engine.stats e') = Engine.URLsEnqueued (Engine.stats e) ∧
  Engine.URLsFiltered (Engine.stats e') = Engine.URLsFiltered (Engine.stats e).
Proof.
  intros Hf Hn Hc e'. subst e'. unfold Scheduler.processRequest. cbv zeta.
  fold (fetcherType_of e req). rewrite Hf.
  rewrite (cancelled_round_trip now network req err Hn Hc).
  unfold Scheduler.handleFetchError. simpl. done.
Qed.

Lemma cancelled_fetch_is_terminal_and_counted_witness :
  let e := engine0 (λ _, fetcher.DoError canceled) in
  let e' := @Scheduler.processRequest plainLib e (tagged "a" 2) in
  Engine.frontier e' = Engine.frontier e ∧
  Engine.RequestsFailed (Engine.stats e') = 1 ∧
  Engine.ResponsesError (Engine.stats e') = 1.
Proof.
  destruct (@cancelled_fetch_is_terminal_and_counted plainLib
              (engine0 (λ _, fetcher.DoError canceled)) (tagged "a" 2) 0
              (λ _, fetcher.DoError canceled) canceled eq_refl eq_refl eq_refl)
    as (Hfr & _ & _ & Hfail & Herr & _).
  split; [exact Hfr |]. split; [exact Hfail | exact Herr].
Defined.

(** ** C4: a 4xx response other than 429 *)




End SchedulerProofs.

(** * The engine: lifecycle, admission, deduplication, Retry-After *)
Section EngineProofs.
Local Open Scope Z_scope.

(** ** C5: stop() on a paused engine *)

(** C5, as stated, fails: Stop is a compare-and-swap from StateRunning and
    returns at once from any other state; a paused engine stays paused. *)
Lemma stop_from_paused_counterexample : ¬ stop_from_paused_as_specified.
Proof.
  intros Hspec.
  specialize (Hspec (Engine.Pause (engine0 (λ _, fetcher.NewRequestError))) eq_refl).
  discriminate Hspec.
Qed.

(** C5, amended. Stop applies to StateRunning only: from there it moves the
    engine to StateStopping, closes the frontier and cancels the context;
    from every other state, StatePaused included, it changes nothing. *)
Theorem Stop_applies_to_Running_only (e : Engine.t) :
  match Engine.state e with
  | Engine.StateRunning =>
      Engine.state (Engine.Stop e) = Engine.StateStopping ∧
      Engine.frontier (Engine.Stop e) = Frontier.Close (Engine.frontier e) ∧
      Engine.cancelled (Engine.Stop e) = true
  | Engine.StateIdle | Engine.StatePaused
  | Engine.StateStopping | Engine.StateStopped =>
      Engine.Stop e = e
  end.
Proof. unfold Engine.Stop. destruct (Engine.state e) eqn:Hs; done. Qed.

(** ** C7: admission *)

Lemma isDomainAllowed_cfg (e e' : Engine.t) (domain : gostring) :
  Engine.cfg e' = Engine.cfg e →
  Engine.isDomainAllowed e' domain = Engine.isDomainAllowed e domain.
Proof. intros Hc. unfold Engine.isDomainAllowed. by rewrite Hc. Qed.

Lemma Count_MarkSeen_new `{GoLib} (d : Deduplicator.t) (u : gostring) :
  Deduplicator.IsSeen d u = false →
  Deduplicator.Count (Deduplicator.MarkSeen d u) = S (Deduplicator.Count d).
Proof.
  unfold Deduplicator.IsSeen, Deduplicator.Count, Deduplicator.MarkSeen.
  intros Hs. apply bool_decide_eq_false in Hs. cbn.
  rewrite size_union by set_solver. by rewrite size_singleton.
Qed.

Lemma IsSeen_MarkSeen `{GoLib} (d : Deduplicator.t) (u : gostring) :
  Deduplicator.IsSeen (Deduplicator.MarkSeen d u) u = true.
Proof.
  unfold Deduplicator.IsSeen, Deduplicator.MarkSeen. cbn.
  apply bool_decide_eq_true. set_solver.
Qed.

Lemma Push_Snapshot (f : Frontier.t) (req : types.Request) :
  if Frontier.IsClosed f
  then Frontier.Snapshot (Frontier.Push f req) = Frontier.Snapshot f
  else Frontier.Snapshot (Frontier.Push f req) ≡ₚ req :: Frontier.Snapshot f.
Proof.
  unfold Frontier.IsClosed. destruct (Frontier.closed f) eqn:Hc.
  - unfold Frontier.Push. by rewrite Hc.
  - unfold Frontier.Snapshot. by apply Push_open_requests.
Qed.

(** C7. AddRequest checks depth, then the deduplicator, then robots.txt
    (only when RespectRobotsTxt is set), then the domain lists, and returns
    the error of the first check that fails, a different error value for
    each.  A rejection adds one to urls_filtered and leaves urls_enqueued,
    the deduplicator and the frontier as they were; robots.txt is not
    consulted when an earlier check rejects.  An admission marks the URL
    seen, passes the request to Frontier.Push and adds one to
    urls_enqueued, leaving urls_filtered as it was: afterwards IsSeen of
    the URL is true, the deduplicator holds one fingerprint more and has
    lost none, and an open frontier holds the request in addition to the
    requests it held.  A closed frontier drops the request, as Push does,
    while the URL is marked and counted all the same. *)
Theorem AddRequest_checks_in_order `{GoLib} (e : Engine.t) (req : types.Request) :
  let urlStr := types.URLString req in
  let too_deep := Engine.MaxDepth (Engine.cfg e) <? types.Depth req in
  let duplicate := Deduplicator.IsSeen (Engine.dedup e) urlStr in
  let blocked :=
    Engine.RespectRobotsTxt (Engine.cfg e) &&
    negb (RobotsManager.IsAllowed (Engine.robots e) urlStr).1 in
  let foreign := negb (Engine.isDomainAllowed e (types.Domain req)) in
  let err := (Engine.AddRequest e req).1 in
  let e' := (Engine.AddRequest e req).2 in
  err = (if too_deep then Some types.ErrMaxDepth
         else if duplicate then Some types.ErrDuplicate
         else if blocked then Some types.ErrBlocked
         else if foreign then Some (types.ErrDomainNotAllowed (types.Domain req))
         else None) ∧
  (too_deep || duplicate = true → Engine.robots e' = Engine.robots e) ∧
  match err with
  | Some _ =>
      Engine.URLsFiltered (Engine.stats e')
        = int64.add (Engine.URLsFiltered (Engine.stats e)) 1 ∧
      Engine.URLsEnqueued (Engine.stats e') = Engine.URLsEnqueued (Engine.stats e) ∧
      Engine.dedup e' = Engine.dedup e ∧
      Engine.frontier e' = Engine.frontier e
  | None =>
      Engine.dedup e' = Deduplicator.MarkSeen (Engine.dedup e) urlStr ∧
      Engine.frontier e' = Frontier.Push (Engine.frontier e) req ∧
      Engine.URLsEnqueued (Engine.stats e')
        = int64.add (Engine.URLsEnqueued (Engine.stats e)) 1 ∧
      Engine.URLsFiltered (Engine.stats e') = Engine.URLsFiltered (Engine.stats e) ∧
      Deduplicator.IsSeen (Engine.dedup e') urlStr = true ∧
      Deduplicator.seen (Engine.dedup e) ⊆ Deduplicator.seen (Engine.dedup e') ∧
      Deduplicator.Count (Engine.dedup e') = S (Deduplicator.Count (Engine.dedup e)) ∧
      (if Frontier.IsClosed (Engine.frontier e)
       then Frontier.Snapshot (Engine.frontier e')
            = Frontier.Snapshot (Engine.frontier e)
       else Frontier.Snapshot (Engine.frontier e')
            ≡ₚ req :: Frontier.Snapshot (Engine.frontier e))
  end.
Proof.
  assert (Hadmit : ∀ d u f,
            Deduplicator.IsSeen d u = false →
            Deduplicator.IsSeen (Deduplicator.MarkSeen d u) u = true ∧
            Deduplicator.seen d ⊆ Deduplicator.seen (Deduplicator.MarkSeen d u) ∧
            Deduplicator.Count (Deduplicator.MarkSeen d u) = S (Deduplicator.Count d) ∧
            (if Frontier.IsClosed f
             then Frontier.Snapshot (Frontier.Push f req) = Frontier.Snapshot f
             else Frontier.Snapshot (Frontier.Push f req) ≡ₚ req :: Frontier.Snapshot f)).
  { intros d u f Hnew. split; [apply IsSeen_MarkSeen |].
    split; [unfold Deduplicator.MarkSeen; cbn; set_solver |].
    split; [by apply Count_MarkSeen_new | apply Push_Snapshot]. }
  cbv zeta. unfold Engine.AddRequest.
  destruct (Engine.MaxDepth (Engine.cfg e) <? types.Depth req); [done |].
  destruct (Deduplicator.IsSeen (Engine.dedup e) (types.URLString req)) eqn:Hseen;
    [done |].
  destruct (Hadmit (Engine.dedup e) (types.URLString req) (Engine.frontier e) Hseen)
    as (Hs1 & Hs2 & Hs3 & Hs4).
  clear Hadmit.
  destruct (Engine.RespectRobotsTxt (Engine.cfg e)); cbn [andb orb].
  - destruct (RobotsManager.IsAllowed (Engine.robots e) (types.URLString req))
      as [ok rm].
    destruct ok; cbn [negb fst snd]; [|done].
    rewrite (isDomainAllowed_cfg e (Engine.with_robots e rm)) by done.
    destruct (Engine.isDomainAllowed e (types.Domain req)); [|done].
    cbn [negb fst snd]. split; [done |]. split; [done |]. by repeat split.
  - destruct (Engine.isDomainAllowed e (types.Domain req)); [|done].
    cbn [negb fst snd]. split; [done |]. split; [done |]. by repeat split.
Qed.

(** C7 on a stopped engine: the admission succeeds and is counted, and
    nothing is queued. *)
Example AddRequest_on_closed_frontier :
  let e := Engine.Stop (engine0 (λ _, fetcher.NewRequestError)) in
  let r := @Engine.AddRequest plainLib e (tagged "a" 2) in
  r.1 = None ∧ Frontier.Len (Engine.frontier r.2) = 0%nat ∧
  Engine.URLsEnqueued (Engine.stats r.2) = 1.
Proof. vm_compute. by repeat split. Qed.

(** ** C9: the deduplicator *)

Lemma fold_insert_subseteq (hashes : list gostring) : ∀ s : gset gostring,
  s ⊆ fold_left (λ s h, {[h]} ∪ s) hashes s.
Proof.
  induction hashes as [|h hashes IH]; intros s; simpl; [done |].
  etrans; [|apply IH]. set_solver.
Qed.

Lemma Import_seen (hashes : list gostring) (d : Deduplicator.t) :
  Deduplicator.seen d ⊆ Deduplicator.seen (Deduplicator.Import d hashes).
Proof. unfold Deduplicator.Import. simpl. apply fold_insert_subseteq. Qed.

Lemma run_op_seen `{GoLib} (d : Deduplicator.t) (op : dedupOp) :
  is_Reset op = false →
  Deduplicator.seen d ⊆ Deduplicator.seen (run_op d op).
Proof.
  destruct op; simpl; intros Hr; try done.
  - set_solver.
  - apply Import_seen.
Qed.

Lemma run_ops_seen `{GoLib} (ops : list dedupOp) : ∀ d : Deduplicator.t,
  Forall (λ op, is_Reset op = false) ops →
  Deduplicator.seen d ⊆ Deduplicator.seen (fold_left run_op ops d).
Proof.
  induction ops as [|op ops IH]; intros d Hops; simpl; [done |].
  apply Forall_cons in Hops as [Hop Hops].
  etrans; [apply (run_op_seen d op Hop) | by apply IH].
Qed.

(** C9, as stated, fails: Reset is an operation of the deduplicator and it
    empties the set. *)
Lemma dedup_reset_counterexample : ¬ dedup_monotone_as_specified.
Proof.
  intros Hspec.
  specialize (Hspec plainLib Deduplicator.New (str "http://h/a") (str "http://h/a")
                    [OpReset] eq_refl).
  vm_compute in Hspec. discriminate Hspec.
Qed.

(** C9, amended. Once MarkSeen(u) has returned, IsSeen(v) is true for every
    v with the canonical form of u, after any sequence of IsSeen, MarkSeen,
    Count, Export and Import; none of these removes a fingerprint.  Reset,
    which empties the set, is the one operation excluded. *)
Theorem dedup_monotone_without_Reset `{GoLib}
    (d : Deduplicator.t) (u v : gostring) (ops : list dedupOp) :
  Forall (λ op, is_Reset op = false) ops →
  Deduplicator.CanonicalizeURL v = Deduplicator.CanonicalizeURL u →
  Deduplicator.IsSeen (fold_left run_op ops (Deduplicator.MarkSeen d u)) v = true ∧
  Deduplicator.seen d ⊆ Deduplicator.seen (fold_left run_op ops (Deduplicator.MarkSeen d u)).
Proof.
  intros Hops Hcanon.
  pose proof (run_ops_seen ops (Deduplicator.MarkSeen d u) Hops) as Hsub.
  split.
  - unfold Deduplicator.IsSeen. apply bool_decide_eq_true. rewrite Hcanon.
    apply Hsub. unfold Deduplicator.MarkSeen. simpl. set_solver.
  - etrans; [|exact Hsub]. unfold Deduplicator.MarkSeen. simpl. set_solver.
Qed.

Lemma dedup_monotone_without_Reset_witness :
  @Deduplicator.IsSeen plainLib
    (fold_left (@run_op plainLib)
       [OpMarkSeen (str "http://h/b"); OpCount; OpImport [str "00"]]
       (@Deduplicator.MarkSeen plainLib Deduplicator.New
          (str "https://Example.COM/Path?b=2&a=1")))
    (str "https://example.com/Path?a=1&b=2") = true.
Proof.
  apply (@dedup_monotone_without_Reset plainLib Deduplicator.New
           (str "https://Example.COM/Path?b=2&a=1")
           (str "https://example.com/Path?a=1&b=2")).
  - repeat constructor.
  - vm_compute. reflexivity.
Defined.

(** ** C6: Retry-After *)

Example parseRetryAfter_zero :
  @fetcher.parseRetryAfter plainLib 0 (str "0") = 0.
Proof. vm_compute. reflexivity. Qed.

(* a negative count of seconds below -2^63 / 10^9 wraps around in the
   multiplication by time.Second: about 292 years *)
Example parseRetryAfter_wraps :
  @fetcher.parseRetryAfter plainLib 0 (str "-9223372037") = 9223372036709551616.
Proof. vm_compute. reflexivity. Qed.

(** C6, as stated, fails: the integer form has a cap but no floor, so
    "Retry-After: 0" gives a back-off of zero. *)
Lemma retry_after_counterexample : ¬ retry_after_as_specified.
Proof.
  intros Hspec. specialize (Hspec plainLib 0 (str "0")).
  rewrite parseRetryAfter_zero in Hspec. unfold time.Second in Hspec. lia.
Qed.

(** C6, amended. For every Retry-After value that is not a negative integer
    the back-off lies between 0 and 120 seconds: a number n of seconds
    gives min(n, 120) seconds, with no floor (0 gives 0); an HTTP-date gives
    one second when it is in the past and otherwise the time until it,
    capped at 120 seconds; an empty or unreadable value gives 5 seconds. *)
Theorem parseRetryAfter_bounds `{GoLib} (now : Z) (header : gostring) :
  (∀ secs, strconv.Atoi (strings.TrimSpace header) = Some secs → 0 ≤ secs) →
  let d := fetcher.parseRetryAfter now header in
  0 ≤ d ≤ 120 * time.Second ∧
  (header = [] → d = 5 * time.Second) ∧
  (∀ secs, header ≠ [] → strconv.Atoi (strings.TrimSpace header) = Some secs →
     d = Z.min secs 120 * time.Second) ∧
  (∀ t, header ≠ [] → strconv.Atoi (strings.TrimSpace header) = None →
     http_ParseTime header = Some t →
     d = if t <? now then time.Second else Z.min (t - now) (120 * time.Second)) ∧
  (header ≠ [] → strconv.Atoi (strings.TrimSpace header) = None →
     http_ParseTime header = None → d = 5 * time.Second).
Proof.
  intros Hnonneg d. subst d. unfold fetcher.parseRetryAfter.
  destruct (decide (header = [])) as [->|Hne].
  { rewrite bool_decide_eq_true_2 by done. unfold time.Second.
    repeat split; (lia || done). }
  rewrite bool_decide_eq_false_2 by done.
  destruct (strconv.Atoi (strings.TrimSpace header)) as [secs|] eqn:Hatoi.
  - specialize (Hnonneg secs eq_refl).
    assert (Hmul : int64.mul (if 120 <? secs then 120 else secs) time.Second
                   = Z.min secs 120 * time.Second).
    { unfold int64.mul, int64.wrap, time.Second.
      destruct (Z.ltb_spec 120 secs).
      - rewrite Z.min_r by lia. reflexivity.
      - rewrite Z.min_l by lia.
        replace (secs * 1000000000 + 2 ^ 63)
          with (secs * 1000000000 + 2 ^ 63 + 0 * 2 ^ 64) by lia.
        rewrite Z.mod_small; lia. }
    rewrite Hmul. unfold time.Second.
    repeat split; try (intros; congruence); try lia;
      try (intros secs' _ [= <-]; done).
  - destruct (http_ParseTime header) as [t|] eqn:Hdate.
    + assert (Hd : (if time.Until now t <? 0 then time.Second
                    else if 2 * time.Minute <? time.Until now t then 2 * time.Minute
                    else time.Until now t)
                   = if t <? now then time.Second
                     else Z.min (t - now) (120 * time.Second)).
      { unfold time.Until.
        destruct (Z.ltb_spec (t - now) int64.min) as [H1|H1];
          [|destruct (Z.ltb_spec int64.max (t - now)) as [H2|H2]];
          unfold time.Minute, time.Second, int64.min, int64.max in *;
          change (2 ^ 63) with 9223372036854775808 in *;
          repeat (match goal with |- context [Z.ltb ?a ?b] =>
                    destruct (Z.ltb_spec a b) end); lia. }
      rewrite Hd. unfold time.Second.
      repeat split; try (intros; congruence);
        try (destruct (Z.ltb_spec t now); lia);
        try (intros t' _ _ [= <-]; done).
    + unfold time.Second. repeat split; try (intros; congruence); lia.
Qed.

Lemma parseRetryAfter_bounds_witness :
  @fetcher.parseRetryAfter plainLib 0 (str "300") = 120 * time.Second.
Proof.
  assert (Hnonneg : ∀ secs,
            strconv.Atoi (strings.TrimSpace (str "300")) = Some secs → 0 ≤ secs).
  { intros secs Hs. vm_compute in Hs. injection Hs as <-. lia. }
  destruct (@parseRetryAfter_bounds plainLib 0 (str "300") Hnonneg)
    as (_ & _ & Hint & _).
  apply (Hint 300); [discriminate | vm_compute; reflexivity].
Defined.

End EngineProofs.

(** * The frontier: draining, restoring, and the positions of the items *)
Section FrontierMore.
Local Open Scope Z_scope.

Implicit Types (f : Frontier.t) (h : priorityQueue.t) (req : types.Request).

Lemma RestoreAll_inv f reqs : frontier_inv f → frontier_inv (Frontier.RestoreAll f reqs).
Proof.
  destruct f as [h c]. unfold Frontier.RestoreAll. cbn [Frontier.pq Frontier.closed].
  revert h. induction reqs as [|r reqs IH]; intros h Hi; [done |].
  cbn [fold_left]. apply IH. destruct Hi as [Hh Hc]. split; cbn [Frontier.pq].
  - by apply heap_Push_heap.
  - rewrite heap_Push_erase. by constructor.
Qed.

Lemma pop_n_None k : ∀ f, Frontier.TryPop f = (None, f) → pop_n k f = ([], f).
Proof. induction k as [|k IH]; intros f Hf; [done |]. cbn [pop_n]. rewrite Hf. by apply IH. Qed.

Lemma Drain_loop_pop_n fuel : ∀ h c acc,
  Frontier.Drain_loop fuel h acc
  = (acc ++ (pop_n fuel (Frontier.mk h c)).1, Frontier.pq (pop_n fuel (Frontier.mk h c)).2).
Proof.
  induction fuel as [|fuel IH]; intros h c acc.
  - cbn. by rewrite app_nil_r.
  - cbn [Frontier.Drain_loop pop_n]. unfold Frontier.TryPop, priorityQueue.Len.
    cbn [Frontier.pq Frontier.closed].
    destruct h as [|x h].
    + cbn [length Nat.ltb Nat.leb Nat.eqb]. rewrite pop_n_None by done.
      cbn. by rewrite app_nil_r.
    + cbn [length Nat.ltb Nat.leb Nat.eqb].
      destruct (heap.Pop (x :: h)) as [[item h']|] eqn:Hpop.
      * rewrite (IH h' c). destruct (pop_n fuel (Frontier.mk h' c)) as [rs f''].
        cbn [fst snd]. by rewrite <- app_assoc.
      * rewrite pop_n_None.
        -- cbn. by rewrite app_nil_r.
        -- unfold Frontier.TryPop, priorityQueue.Len. cbn [Frontier.pq length Nat.eqb].
           by rewrite Hpop.
Qed.

Lemma pop_n_closed k : ∀ f, Frontier.closed (pop_n k f).2 = Frontier.closed f.
Proof.
  induction k as [|k IH]; intros f; [done |]. cbn [pop_n].
  destruct (Frontier.TryPop f) as [[r|] f'] eqn:Hp.
  - specialize (IH f'). destruct (pop_n k f') as [rs f'']. cbn [snd] in *. rewrite IH.
    unfold Frontier.TryPop in Hp. destruct (_ =? _)%nat; [by injection Hp as _ <- |].
    destruct (heap.Pop _) as [[??]|]; by injection Hp as _ <-.
  - rewrite IH. unfold Frontier.TryPop in Hp. destruct (_ =? _)%nat; [by injection Hp as <- |].
    destruct (heap.Pop _) as [[??]|]; [done | by injection Hp as <-].
Qed.

Lemma Drain_spec f :
  frontier_inv f →
  Sorted Z.le (types.Priority <$> (Frontier.Drain f).1) ∧
  (Frontier.Drain f).1 ≡ₚ Frontier.Snapshot f ∧
  Frontier.pq (Frontier.Drain f).2 = [] ∧
  Frontier.closed (Frontier.Drain f).2 = Frontier.closed f.
Proof.
  intros Hi. destruct f as [h c]. unfold Frontier.Drain, priorityQueue.Len.
  cbn [Frontier.pq Frontier.closed].
  rewrite (Drain_loop_pop_n (length h) h c []). cbn [app fst snd Frontier.pq Frontier.closed].
  destruct (pop_n_spec (length h) (Frontier.mk h c) Hi) as (Hs & Hp & Hl).
  cbn [Frontier.pq] in Hp, Hl. rewrite Nat.min_id in Hl.
  assert (Hnil : Frontier.pq (pop_n (length h) (Frontier.mk h c)).2 = []).
  { apply Permutation_length in Hp. rewrite length_app, !length_fmap, Hl in Hp.
    apply length_zero_iff_nil. lia. }
  split; [by apply StronglySorted_Sorted |]. split; [|done].
  unfold Frontier.Snapshot. cbn [Frontier.pq]. rewrite Hp, Hnil. by rewrite app_nil_r.
Qed.

Lemma Drain_inv f : frontier_inv f → frontier_inv (Frontier.Drain f).2.
Proof.
  intros Hi. destruct (Drain_spec f Hi) as (_ & _ & Hnil & _).
  destruct (Frontier.Drain f) as [rs f']. cbn [snd] in *. destruct f' as [h' c'].
  cbn [Frontier.pq] in Hnil. subst h'. split; [|constructor].
  intros k Hk. cbn in Hk. lia.
Qed.

Lemma TryPop_inv f : frontier_inv f → frontier_inv (Frontier.TryPop f).2.
Proof.
  intros Hi. pose proof (TryPop_spec f Hi) as Hs.
  destruct (Frontier.TryPop f) as [[r|] f']; cbn [snd].
  - by destruct Hs.
  - by destruct Hs as [-> _].
Qed.

Lemma frontier_after_inv ops : frontier_inv (frontier_after ops).
Proof.
  unfold frontier_after. generalize NewFrontier_inv. generalize Frontier.New.
  induction ops as [|op ops IH]; intros f Hi; [done |]. cbn [fold_left]. apply IH.
  destruct op; cbn [run_frontierOp].
  - by apply Push_inv.
  - by apply TryPop_inv.
  - done.
  - by apply Drain_inv.
  - by apply RestoreAll_inv.
Qed.

(** X1. Drain hands out every queued request, in ascending order of
    priority, and leaves the frontier empty; the closed flag is kept. *)
Theorem Drain_sorted_and_complete (ops : list frontierOp) :
  let f := frontier_after ops in
  Sorted Z.le (types.Priority <$> (Frontier.Drain f).1) ∧
  (Frontier.Drain f).1 ≡ₚ Frontier.Snapshot f ∧
  Frontier.Len (Frontier.Drain f).2 = 0%nat ∧
  Frontier.IsClosed (Frontier.Drain f).2 = Frontier.IsClosed f.
Proof.
  intros f. destruct (Drain_spec f (frontier_after_inv ops)) as (H1 & H2 & H3 & H4).
  split; [done |]. split; [done |]. split; [|done].
  unfold Frontier.Len, priorityQueue.Len. by rewrite H3.
Qed.

(** X2. Draining a frontier and restoring what was drained gives back the
    queued requests, each as often as before, also when the frontier is
    closed; a second Drain then yields the same priorities in the same
    order. *)
Theorem Drain_RestoreAll_round_trip (ops : list frontierOp) :
  let f := frontier_after ops in
  let restored := Frontier.RestoreAll (Frontier.Drain f).2 (Frontier.Drain f).1 in
  Frontier.Snapshot restored ≡ₚ Frontier.Snapshot f ∧
  Frontier.Len restored = Frontier.Len f ∧
  types.Priority <$> (Frontier.Drain restored).1
  = types.Priority <$> (Frontier.Drain f).1.
Proof.
  intros f restored.
  pose proof (frontier_after_inv ops) as Hi. fold f in Hi.
  destruct (Drain_spec f Hi) as (Hs & Hp & Hnil & Hc).
  assert (Hsnap : Frontier.Snapshot restored ≡ₚ Frontier.Snapshot f).
  { unfold restored. rewrite RestoreAll_requests. unfold Frontier.Snapshot at 1.
    rewrite Hnil. cbn [fmap list_fmap app]. done. }
  split; [done |]. split.
  { apply Permutation_length in Hsnap. unfold Frontier.Snapshot in Hsnap.
    by rewrite !length_fmap in Hsnap. }
  assert (Hi' : frontier_inv restored) by by apply RestoreAll_inv, Drain_inv.
  destruct (Drain_spec restored Hi') as (Hs' & Hp' & _ & _).
  apply (Sorted_unique Z.le); [done | done |].
  apply fmap_Permutation. by rewrite Hp', Hsnap, Hp.
Qed.

(** ** The index field *)

Lemma Swap_index h i j : index_ok h → index_ok (priorityQueue.Swap h i j).
Proof.
  intros Hi. unfold priorityQueue.Swap.
  destruct (h !! i) as [a|] eqn:Ha; [|done]. destruct (h !! j) as [b|] eqn:Hb; [|done].
  intros k it Hk.
  pose proof (Swap_lookup h i j k a b Ha Hb) as Hl. unfold priorityQueue.Swap in Hl.
  rewrite Ha, Hb in Hl. rewrite Hl in Hk.
  repeat case_decide; subst; [by injection Hk as <- .. | by apply Hi].
Qed.

Lemma up_loop_index fuel : ∀ h j, index_ok h → index_ok (heap.up_loop fuel h j).
Proof.
  induction fuel as [|fuel IH]; intros h j Hi; [done |].
  rewrite up_loop_S. destruct (_ || _); [done |]. by apply IH, Swap_index.
Qed.

Lemma down_loop_index fuel : ∀ h i n, index_ok h → index_ok (heap.down_loop fuel h i n).
Proof.
  induction fuel as [|fuel IH]; intros h i n Hi; [done |].
  rewrite down_loop_S. destruct (_ <=? _)%nat; [done |]. cbv zeta.
  destruct (negb _); [done |]. by apply IH, Swap_index.
Qed.

Lemma heap_Push_index h x : index_ok h → index_ok (heap.Push h x).
Proof.
  intros Hi. unfold heap.Push, heap.up. apply up_loop_index.
  unfold priorityQueue.Push. intros k it Hk.
  apply lookup_app_Some in Hk as [Hk|[Hge Hk]]; [by apply Hi |].
  apply list_lookup_singleton_Some in Hk as [Hk <-]. cbn. f_equal. lia.
Qed.

Lemma heap_Pop_index h item h' :
  index_ok h → heap.Pop h = Some (item, h') →
  index_ok h' ∧ priorityQueue.index item = -1.
Proof.
  intros Hi. unfold heap.Pop, heap.down, priorityQueue.Pop.
  set (h1 := heap.down_loop _ _ _ _).
  assert (Hi1 : index_ok h1) by by apply down_loop_index, Swap_index.
  destruct (h1 !! _) as [it|]; [|done]. intros [= <- <-]. split; [|done].
  intros k it' Hk. apply lookup_take_Some in Hk as [Hk _]. by apply Hi1.
Qed.

Lemma Drain_loop_index fuel : ∀ h acc,
  index_ok h → index_ok (Frontier.Drain_loop fuel h acc).2.
Proof.
  induction fuel as [|fuel IH]; intros h acc Hi; [done |]. cbn [Frontier.Drain_loop].
  destruct (_ <? _)%nat; [|done].
  destruct (heap.Pop h) as [[item h']|] eqn:Hp; [|done].
  apply IH. by destruct (heap_Pop_index h item h' Hi Hp).
Qed.

(** X3. Every item queued in the frontier records its own position in the
    slice: Swap, Push and Pop of the priority queue keep the index field up
    to date through every operation of the frontier. *)
Theorem frontier_index_is_position (ops : list frontierOp) :
  index_ok (Frontier.pq (frontier_after ops)).
Proof.
  unfold frontier_after.
  assert (H0 : index_ok (Frontier.pq Frontier.New)) by (intros k it Hk; done).
  revert H0. generalize Frontier.New.
  induction ops as [|op ops IH]; intros f Hi; [done |]. cbn [fold_left]. apply IH.
  destruct op; cbn [run_frontierOp].
  - unfold Frontier.Push. destruct (Frontier.closed f); [done |].
    by apply heap_Push_index.
  - unfold Frontier.TryPop. destruct (_ =? _)%nat; [done |].
    destruct (heap.Pop _) as [[item h']|] eqn:Hp; [|done].
    by destruct (heap_Pop_index _ item h' Hi Hp).
  - done.
  - unfold Frontier.Drain.
    pose proof (Drain_loop_index (priorityQueue.Len (Frontier.pq f)) (Frontier.pq f) [] Hi) as Hd.
    by destruct (Frontier.Drain_loop _ _ _).
  - unfold Frontier.RestoreAll. cbn [Frontier.pq]. revert Hi. generalize (Frontier.pq f).
    induction reqs as [|r reqs IHr]; intros h Hi; [done |]. cbn [fold_left].
    by apply IHr, heap_Push_index.
Qed.

End FrontierMore.

(** * The deduplicator: export, import, counting and fingerprints *)
Section DedupMore.

Implicit Types (d : Deduplicator.t) (s t u v : gostring).

Lemma fold_insert_union (hashes : list gostring) : ∀ s0 : gset gostring,
  fold_left (λ (acc : gset gostring) h, {[h]} ∪ acc) hashes s0 = s0 ∪ (list_to_set hashes : gset gostring).
Proof.
  induction hashes as [|h hashes IH]; intros s0; cbn [fold_left list_to_set].
  - set_solver.
  - rewrite IH. set_solver.
Qed.

Lemma Import_union d hashes :
  Deduplicator.seen (Deduplicator.Import d hashes)
  = Deduplicator.seen d ∪ (list_to_set hashes : gset gostring).
Proof. unfold Deduplicator.Import. cbn [Deduplicator.seen]. apply fold_insert_union. Qed.

(** X4. Export followed by Import is a round trip: loading the exported
    hashes, in whatever order the map iteration listed them, into a new
    deduplicator gives the same set of fingerprints and the same count;
    loading them into a used one adds them to what it holds. *)
Theorem Export_Import_round_trip (d d0 : Deduplicator.t) (hashes : list gostring) :
  hashes ≡ₚ Deduplicator.Export d →
  Deduplicator.Import Deduplicator.New hashes = d ∧
  Deduplicator.Count (Deduplicator.Import Deduplicator.New hashes)
  = Deduplicator.Count d ∧
  Deduplicator.seen (Deduplicator.Import d0 hashes)
  = Deduplicator.seen d0 ∪ Deduplicator.seen d.
Proof.
  intros Hp.
  assert (Hset : (list_to_set hashes : gset gostring) = Deduplicator.seen d).
  { unfold Deduplicator.Export in Hp. rewrite Hp. apply leibniz_equiv.
    apply list_to_set_elements. }
  assert (Hnew : Deduplicator.Import Deduplicator.New hashes = d).
  { destruct d as [sd]. unfold Deduplicator.Import. f_equal.
    cbn [Deduplicator.seen Deduplicator.New] in *.
    rewrite fold_insert_union, Hset. set_solver. }
  split; [done |]. split; [by rewrite Hnew |]. by rewrite Import_union, Hset.
Qed.

Lemma Export_Import_round_trip_witness :
  @Deduplicator.Import Deduplicator.New
    (Deduplicator.Export (@Deduplicator.MarkSeen plainLib Deduplicator.New (str "http://h/a")))
  = @Deduplicator.MarkSeen plainLib Deduplicator.New (str "http://h/a").
Proof.
  apply (Export_Import_round_trip
           (@Deduplicator.MarkSeen plainLib Deduplicator.New (str "http://h/a"))
           Deduplicator.New). reflexivity.
Defined.

(** X5. Count counts distinct fingerprints: MarkSeen adds one to it when the
    URL had not been seen and leaves it alone when it had, and afterwards
    the URL is seen. *)
Theorem MarkSeen_Count `{GoLib} (d : Deduplicator.t) (u : gostring) :
  Deduplicator.Count (Deduplicator.MarkSeen d u)
  = (if Deduplicator.IsSeen d u then Deduplicator.Count d
     else S (Deduplicator.Count d)) ∧
  Deduplicator.IsSeen (Deduplicator.MarkSeen d u) u = true.
Proof.
  unfold Deduplicator.Count, Deduplicator.MarkSeen, Deduplicator.IsSeen.
  cbn [Deduplicator.seen]. split.
  - case_bool_decide as Hin.
    + f_equal. set_solver.
    + rewrite size_union by set_solver. by rewrite size_singleton.
  - apply bool_decide_eq_true. set_solver.
Qed.

(** ** hex.EncodeToString *)

Ltac each_byte c := destruct c as [[] [] [] [] [] [] [] []].

Lemma hex_decode_encode_byte c :
  ascii_of_N (url.unhex (Deduplicator.lowerhex (N.shiftr (byte_val c) 4)) * 16
              + url.unhex (Deduplicator.lowerhex (N.land (byte_val c) 15))) = c.
Proof. each_byte c; reflexivity. Qed.

Lemma hex_decode_encode s : hex_decode (Deduplicator.hex_EncodeToString s) = s.
Proof.
  unfold Deduplicator.hex_EncodeToString.
  induction s as [|c s IH]; [done |]. rewrite bind_cons. cbn [app hex_decode].
  by rewrite hex_decode_encode_byte, IH.
Qed.

(** X6. The fingerprint keeps the first 16 bytes of the SHA-256 digest, in
    a hexadecimal form that can be read back: two canonical URLs have one
    fingerprint exactly when these 16 bytes agree, and the fingerprint has
    two characters for each of them. *)
Theorem hashURL_fingerprint `{GoLib} (u v : gostring) :
  (Deduplicator.hashURL u = Deduplicator.hashURL v ↔
   take 16 (sha256_Sum256 u) = take 16 (sha256_Sum256 v)) ∧
  hex_decode (Deduplicator.hashURL u) = take 16 (sha256_Sum256 u) ∧
  length (Deduplicator.hashURL u) = 2 * length (take 16 (sha256_Sum256 u)).
Proof.
  unfold Deduplicator.hashURL. split; [split |].
  - intros Heq. apply (f_equal hex_decode) in Heq. by rewrite !hex_decode_encode in Heq.
  - by intros ->.
  - split; [apply hex_decode_encode |].
    generalize (take 16 (sha256_Sum256 u)). intros s.
    unfold Deduplicator.hex_EncodeToString.
    induction s as [|c s IH]; [done |]. rewrite bind_cons, length_app, IH. cbn. lia.
Qed.

End DedupMore.

(** * Canonicalisation: facts about the string functions *)
Section StringFacts.

Implicit Types (s t : gostring) (c d : ascii).

Lemma HasPrefix_nil s : strings.HasPrefix s [] = true.
Proof. done. Qed.

Lemma HasPrefix_cons c s d t :
  strings.HasPrefix (c :: s) (d :: t) = bool_decide (c = d) && strings.HasPrefix s t.
Proof.
  unfold strings.HasPrefix. simpl.
  destruct (length t <=? length s) eqn:Hl; simpl.
  - destruct (decide (c = d)) as [->|Hne].
    + rewrite (bool_decide_eq_true_2 (d = d)) by done. simpl.
      apply bool_decide_ext. split; [by intros [= ->] | by intros ->].
    + rewrite (bool_decide_eq_false_2 (c = d)) by done. simpl.
      apply bool_decide_eq_false_2. by intros [= ? _].
  - by rewrite andb_false_r.
Qed.

Lemma HasPrefix_nil_cons d t : strings.HasPrefix [] (d :: t) = false.
Proof. done. Qed.

Lemma HasPrefix_byte s c :
  strings.HasPrefix s [c] = bool_decide (head s = Some c).
Proof.
  destruct s as [|x s]; [done |].
  rewrite HasPrefix_cons, HasPrefix_nil, andb_true_r. simpl.
  apply bool_decide_ext. split; [by intros -> | by intros [= ->]].
Qed.

Lemma Index_byte_None s c : c ∉ s → strings.Index s [c] = None.
Proof.
  induction s as [|x s IH]; intros Hc; simpl.
  - done.
  - rewrite HasPrefix_cons, HasPrefix_nil, andb_true_r.
    rewrite bool_decide_eq_false_2 by set_solver.
    rewrite IH; [done | set_solver].
Qed.

Lemma Index_byte_app s c t :
  c ∉ s → strings.Index (s ++ c :: t) [c] = Some (length s).
Proof.
  induction s as [|x s IH]; intros Hc; simpl.
  - rewrite HasPrefix_cons, HasPrefix_nil. by rewrite bool_decide_eq_true_2.
  - rewrite HasPrefix_cons, HasPrefix_nil, andb_true_r.
    rewrite bool_decide_eq_false_2 by set_solver.
    rewrite IH; [done | set_solver].
Qed.

Lemma Index_byte_Some s c i :
  strings.Index s [c] = Some i → (c ∉ take i s) ∧ s !! i = Some c.
Proof.
  revert i. induction s as [|x s IH]; intros i; simpl; [done |].
  rewrite HasPrefix_cons, HasPrefix_nil, andb_true_r.
  destruct (decide (x = c)) as [->|Hne].
  - rewrite bool_decide_eq_true_2 by done. intros [= <-]. simpl.
    split; [set_solver | done].
  - rewrite bool_decide_eq_false_2 by done.
    destruct (strings.Index s [c]) as [j|] eqn:Hj; simpl; [|done].
    intros [= <-]. destruct (IH j eq_refl) as [H1 H2]. simpl.
    split; [set_solver | done].
Qed.

Lemma Contains_byte s c : strings.Contains s [c] = bool_decide (c ∈ s).
Proof.
  unfold strings.Contains. apply bool_decide_ext.
  destruct (decide (c ∈ s)) as [Hin|Hnin].
  - apply list_elem_of_split in Hin as (s1 & s2 & ->).
    split; [intros _; set_solver |]. intros _.
    induction s1 as [|x s1 IH]; simpl.
    + rewrite HasPrefix_cons, HasPrefix_nil, bool_decide_eq_true_2 by done. by eexists.
    + destruct (strings.HasPrefix _ _); [by eexists |].
      destruct IH as [i ->]. by eexists.
  - rewrite Index_byte_None by done. split; [by intros [? ?] | done].
Qed.

Lemma Cut_byte_None s c : c ∉ s → strings.Cut s [c] = (s, [], false).
Proof. intros Hc. unfold strings.Cut. by rewrite Index_byte_None. Qed.

Lemma Cut_byte_app s c t :
  c ∉ s → strings.Cut (s ++ c :: t) [c] = (s, t, true).
Proof.
  intros Hc. unfold strings.Cut. rewrite Index_byte_app by done. simpl.
  by rewrite take_app_length, <- drop_drop, drop_app_length.
Qed.

Lemma LastIndex_byte_None s c : c ∉ s → strings.LastIndex s [c] = None.
Proof.
  induction s as [|x s IH]; intros Hc; simpl; [done |].
  rewrite IH by set_solver.
  rewrite HasPrefix_cons, HasPrefix_nil, andb_true_r.
  rewrite bool_decide_eq_false_2; [done | set_solver].
Qed.

Lemma LastIndex_byte_app s c t :
  c ∉ t → strings.LastIndex (s ++ c :: t) [c] = Some (length s).
Proof.
  intros Hc. induction s as [|x s IH]; simpl.
  - rewrite LastIndex_byte_None by done.
    by rewrite HasPrefix_cons, HasPrefix_nil, bool_decide_eq_true_2.
  - by rewrite IH.
Qed.

Lemma HasSuffix_byte s c :
  strings.HasSuffix s [c] = bool_decide (last s = Some c).
Proof.
  unfold strings.HasSuffix.
  destruct s as [|x s _] using rev_ind; [done |].
  rewrite length_app. cbn [length].
  replace (1 <=? length s + 1) with true by (symmetry; apply Nat.leb_le; lia).
  replace (length s + 1 - 1) with (length s) by lia.
  rewrite drop_app_length, last_snoc. cbn [andb].
  apply bool_decide_ext. split; [by intros [= ->] | by intros [= ->]].
Qed.

Lemma CountByte_notin s c : c ∉ s → strings.CountByte s c = 0.
Proof.
  intros Hc. unfold strings.CountByte.
  induction s as [|x s IH]; [done |].
  rewrite filter_cons_False by set_solver. apply IH. set_solver.
Qed.

Lemma CountByte_app s t c :
  strings.CountByte (s ++ t) c = strings.CountByte s c + strings.CountByte t c.
Proof. unfold strings.CountByte. by rewrite filter_app, length_app. Qed.

(** TrimRight with a one-byte cutset *)
Lemma TrimRight_byte_last s c :
  last (strings.TrimRight s [c]) ≠ Some c.
Proof.
  induction s as [|x s IH]; simpl; [done |].
  destruct (strings.TrimRight s [c]) as [|y t] eqn:Ht.
  - case_bool_decide as Hx; [done |]. simpl. intros [= ->]. set_solver.
  - rewrite last_cons. destruct (last (y :: t)) eqn:Hl; [done |].
    by apply last_None in Hl.
Qed.

Lemma TrimRight_byte_head s c x :
  head s = Some x → x ≠ c → head (strings.TrimRight s [c]) = Some x.
Proof.
  destruct s as [|y s]; [done |]. simpl. intros [= ->] Hne.
  destruct (strings.TrimRight s [c]); [|done].
  rewrite bool_decide_eq_false_2 by set_solver. done.
Qed.

Lemma TrimRight_byte_prefix s c :
  strings.TrimRight s [c] `prefix_of` s.
Proof.
  induction s as [|x s IH]; simpl; [done |].
  destruct (strings.TrimRight s [c]) as [|y t] eqn:Ht.
  - case_bool_decide; [apply prefix_nil | apply prefix_cons, prefix_nil].
  - by apply prefix_cons.
Qed.

(** ToLower on ASCII strings *)
Lemma lowerByte_idemp c : strings.lowerByte (strings.lowerByte c) = strings.lowerByte c.
Proof. destruct c as [[] [] [] [] [] [] [] []]; reflexivity. Qed.

Lemma lowerByte_ascii c :
  (byte_val c <? 128)%N = true → (byte_val (strings.lowerByte c) <? 128)%N = true.
Proof. destruct c as [[] [] [] [] [] [] [] []]; done. Qed.

Lemma isASCII_lower s :
  strings.isASCII s = true → strings.isASCII (strings.lowerByte <$> s) = true.
Proof.
  unfold strings.isASCII. induction s as [|x s IH]; simpl; [done |].
  intros [Hx Hs]%andb_true_iff. apply andb_true_iff.
  split; [by apply lowerByte_ascii | by apply IH].
Qed.

Lemma ToLower_ascii `{GoLib} s :
  strings.isASCII s = true → strings.ToLower s = strings.lowerByte <$> s.
Proof. intros Ha. unfold strings.ToLower. by rewrite Ha. Qed.

Lemma ToLower_idemp_ascii `{GoLib} s :
  strings.isASCII s = true →
  strings.ToLower (strings.ToLower s) = strings.ToLower s.
Proof.
  intros Ha. rewrite (ToLower_ascii s Ha).
  rewrite ToLower_ascii by by apply isASCII_lower.
  rewrite <- list_fmap_compose. apply list_fmap_ext. intros _ c _. simpl.
  apply lowerByte_idemp.
Qed.

End StringFacts.

(** * Canonicalisation: percent-encoding *)
Section EscapeFacts.

Implicit Types (s t : gostring) (c d : ascii).

Ltac each_byte c := destruct c as [[] [] [] [] [] [] [] []].

(** Escaping a byte for a path, a query component or userinfo and unescaping
    what follows gives the byte back. *)
Lemma unescape_ok_escape_byte_path c t :
  url.unescape_ok url.encodePath (url.escape_byte url.encodePath c ++ t)
  = url.unescape_ok url.encodePath t.
Proof. each_byte c; reflexivity. Qed.

Lemma unescape_bytes_escape_byte_path c t :
  url.unescape_bytes url.encodePath (url.escape_byte url.encodePath c ++ t)
  = c :: url.unescape_bytes url.encodePath t.
Proof. each_byte c; reflexivity. Qed.

Lemma unescape_ok_escape_byte_query c t :
  url.unescape_ok url.encodeQueryComponent
    (url.escape_byte url.encodeQueryComponent c ++ t)
  = url.unescape_ok url.encodeQueryComponent t.
Proof. each_byte c; reflexivity. Qed.

Lemma unescape_bytes_escape_byte_query c t :
  url.unescape_bytes url.encodeQueryComponent
    (url.escape_byte url.encodeQueryComponent c ++ t)
  = c :: url.unescape_bytes url.encodeQueryComponent t.
Proof. each_byte c; reflexivity. Qed.

Lemma unescape_ok_escape_byte_user c t :
  url.unescape_ok url.encodeUserPassword
    (url.escape_byte url.encodeUserPassword c ++ t)
  = url.unescape_ok url.encodeUserPassword t.
Proof. each_byte c; reflexivity. Qed.

Lemma unescape_bytes_escape_byte_user c t :
  url.unescape_bytes url.encodeUserPassword
    (url.escape_byte url.encodeUserPassword c ++ t)
  = c :: url.unescape_bytes url.encodeUserPassword t.
Proof. each_byte c; reflexivity. Qed.

Lemma escape_cons c s mode :
  url.escape (c :: s) mode = url.escape_byte mode c ++ url.escape s mode.
Proof. done. Qed.

Lemma escape_app s t mode :
  url.escape (s ++ t) mode = url.escape s mode ++ url.escape t mode.
Proof. unfold url.escape. apply bind_app. Qed.

Lemma unescape_escape_path s :
  url.unescape (url.escape s url.encodePath) url.encodePath = Some s.
Proof.
  unfold url.unescape.
  assert (url.unescape_ok url.encodePath (url.escape s url.encodePath) = true
          ∧ url.unescape_bytes url.encodePath (url.escape s url.encodePath) = s)
    as [-> ->]; [|done].
  induction s as [|c s [IH1 IH2]]; [done |].
  rewrite escape_cons, unescape_ok_escape_byte_path,
    unescape_bytes_escape_byte_path, IH1, IH2. done.
Qed.

Lemma unescape_escape_user s :
  url.unescape (url.escape s url.encodeUserPassword) url.encodeUserPassword = Some s.
Proof.
  unfold url.unescape.
  assert (url.unescape_ok url.encodeUserPassword
            (url.escape s url.encodeUserPassword) = true
          ∧ url.unescape_bytes url.encodeUserPassword
              (url.escape s url.encodeUserPassword) = s)
    as [-> ->]; [|done].
  induction s as [|c s [IH1 IH2]]; [done |].
  rewrite escape_cons, unescape_ok_escape_byte_user,
    unescape_bytes_escape_byte_user, IH1, IH2. done.
Qed.

Lemma unescape_escape_query s :
  url.QueryUnescape (url.QueryEscape s) = Some s.
Proof.
  unfold url.QueryUnescape, url.QueryEscape, url.unescape.
  assert (url.unescape_ok url.encodeQueryComponent
            (url.escape s url.encodeQueryComponent) = true
          ∧ url.unescape_bytes url.encodeQueryComponent
              (url.escape s url.encodeQueryComponent) = s)
    as [-> ->]; [|done].
  induction s as [|c s [IH1 IH2]]; [done |].
  rewrite escape_cons, unescape_ok_escape_byte_query,
    unescape_bytes_escape_byte_query, IH1, IH2. done.
Qed.

End EscapeFacts.

(** * Canonicalisation: the bytes of the printed parts *)
Section ByteFacts.

Implicit Types (s t : gostring) (c d : ascii).

Ltac each_byte c := destruct c as [[] [] [] [] [] [] [] []].

Lemma escape_byte_path_safe c :
  forallb url_safe_byte (url.escape_byte url.encodePath c) = true.
Proof. each_byte c; reflexivity. Qed.

Lemma escape_byte_query_safe c :
  forallb query_component_byte (url.escape_byte url.encodeQueryComponent c) = true.
Proof. each_byte c; reflexivity. Qed.

Lemma escape_path_safe s : forallb url_safe_byte (url.escape s url.encodePath) = true.
Proof.
  induction s as [|c s IH]; [done |].
  rewrite escape_cons, forallb_app, escape_byte_path_safe, IH. done.
Qed.

Lemma QueryEscape_safe s : forallb query_component_byte (url.QueryEscape s) = true.
Proof.
  unfold url.QueryEscape. induction s as [|c s IH]; [done |].
  rewrite escape_cons, forallb_app, escape_byte_query_safe, IH. done.
Qed.

Lemma escape_byte_user_bytes c :
  forallb userinfo_byte (url.escape_byte url.encodeUserPassword c) = true.
Proof. each_byte c; reflexivity. Qed.

Lemma escape_user_bytes s :
  forallb userinfo_byte (url.escape s url.encodeUserPassword) = true.
Proof.
  induction s as [|c s IH]; [done |].
  rewrite escape_cons, forallb_app, escape_byte_user_bytes, IH. done.
Qed.

Lemma userinfo_byte_safe c : userinfo_byte c = true → url_safe_byte c = true.
Proof. each_byte c; (reflexivity || discriminate). Qed.

Lemma userinfo_byte_valid c :
  userinfo_byte c = true →
  url.isAlnum c || url.mem c "-._:~!$&'()*+,;=%@" = true.
Proof. each_byte c; (reflexivity || discriminate). Qed.

Lemma validEncoded_byte_safe c :
  url.mem c "!$&'()*+,;=:@[]%" || negb (url.shouldEscape c url.encodePath) = true →
  url_safe_byte c = true.
Proof. each_byte c; (reflexivity || discriminate). Qed.

Lemma validEncoded_path_safe s :
  url.validEncoded s url.encodePath = true → forallb url_safe_byte s = true.
Proof.
  unfold url.validEncoded. induction s as [|c s IH]; [done |]. simpl.
  intros [Hc Hs]%andb_true_iff. by rewrite (validEncoded_byte_safe c Hc), IH.
Qed.

Lemma plain_byte_safe c : plain_byte c = true → url_safe_byte c = true.
Proof. each_byte c; (reflexivity || discriminate). Qed.

Lemma digit_safe c : strconv.isDigit c = true → url_safe_byte c = true.
Proof. each_byte c; (reflexivity || discriminate). Qed.

Lemma scheme_byte_safe c : scheme_byte c = true → url_safe_byte c = true.
Proof. each_byte c; (reflexivity || discriminate). Qed.

Lemma query_component_byte_safe c :
  query_component_byte c = true → url_safe_byte c = true.
Proof. unfold query_component_byte. by intros [? _]%andb_true_iff. Qed.

(** A byte that is not in a string all of whose bytes satisfy a test it fails. *)
Lemma forallb_notin (P : ascii → bool) s c :
  forallb P s = true → P c = false → c ∉ s.
Proof.
  intros Hs Hc Hin. rewrite forallb_forall in Hs.
  apply list_elem_of_In in Hin. specialize (Hs c Hin). congruence.
Qed.

Lemma safe_no_hash s : forallb url_safe_byte s = true → "#"%char ∉ s.
Proof. intros Hs. by apply (forallb_notin url_safe_byte). Qed.

Lemma safe_no_question s : forallb url_safe_byte s = true → "?"%char ∉ s.
Proof. intros Hs. by apply (forallb_notin url_safe_byte). Qed.

Lemma safe_no_CTL s :
  forallb url_safe_byte s = true → url.stringContainsCTLByte s = false.
Proof.
  unfold url.stringContainsCTLByte. induction s as [|c s IH]; [done |]. simpl.
  intros [Hc Hs]%andb_true_iff. rewrite (IH Hs), orb_false_r.
  unfold url_safe_byte in Hc. apply andb_true_iff in Hc as [_ Hc].
  by apply negb_true_iff in Hc.
Qed.

Lemma forallb_weaken (P Q : ascii → bool) s :
  (∀ c, P c = true → Q c = true) → forallb P s = true → forallb Q s = true.
Proof.
  intros HPQ. rewrite !forallb_forall. intros Hs c Hc. apply HPQ, Hs, Hc.
Qed.

Lemma forallb_fmap_weaken (P Q : ascii → bool) (f : ascii → ascii) s :
  (∀ c, P c = true → Q (f c) = true) →
  forallb P s = true → forallb Q (f <$> s) = true.
Proof.
  intros HPQ. induction s as [|c s IH]; [done |]. simpl.
  intros [Hc Hs]%andb_true_iff. apply andb_true_iff.
  split; [by apply HPQ | by apply IH].
Qed.

End ByteFacts.

(** * Canonicalisation: schemes and plain hosts *)
Section SchemeHostFacts.

Implicit Types (s t : gostring) (c d : ascii).

Ltac each_byte c := destruct c as [[] [] [] [] [] [] [] []].
Ltac by_bytes H := first [discriminate H | reflexivity].

(** ** getScheme *)

Lemma getScheme_loop_inv s : ∀ pre sch rest,
  forallb scheme_byte pre = true →
  (∀ c, head pre = Some c → url.isLetter c = true) →
  url.getScheme_loop (pre ++ s) (length pre) s = Some (sch, rest) →
  (sch = [] ∧ rest = pre ++ s) ∨
  (forallb scheme_byte sch = true ∧
   (∃ c, head sch = Some c ∧ url.isLetter c = true) ∧
   pre ++ s = sch ++ ":"%char :: rest).
Proof.
  induction s as [|c s IH]; intros pre sch rest Hpre Hhead; simpl.
  { intros [= <- <-]. by left. }
  assert (Hstep : ∀ sch rest,
            scheme_byte c = true →
            (pre = [] → url.isLetter c = true) →
            url.getScheme_loop (pre ++ c :: s) (S (length pre)) s = Some (sch, rest) →
            (sch = [] ∧ rest = pre ++ c :: s) ∨
            (forallb scheme_byte sch = true ∧
             (∃ c, head sch = Some c ∧ url.isLetter c = true) ∧
             pre ++ c :: s = sch ++ ":"%char :: rest)).
  { intros sch' rest' Hc Hl Hloop.
    replace (pre ++ c :: s) with ((pre ++ [c]) ++ s) in * by by rewrite <- app_assoc.
    replace (S (length pre)) with (length (pre ++ [c])) in Hloop
      by (rewrite length_app; simpl; lia).
    apply IH in Hloop; [done | |].
    - rewrite forallb_app, Hpre. simpl. by rewrite Hc.
    - intros x. destruct pre as [|y pre]; simpl.
      + intros [= <-]. by apply Hl.
      + intros [= <-]. by apply Hhead. }
  destruct (url.isLetter c) eqn:Hletter.
  { apply Hstep; [|done]. unfold scheme_byte. by rewrite Hletter. }
  destruct (url.isSchemeRest c) eqn:Hrest.
  { destruct (Nat.eqb_spec (length pre) 0) as [Hz|Hnz].
    - intros [= <- <-]. by left.
    - apply Hstep; [unfold scheme_byte; by rewrite Hrest, orb_true_r |].
      intros ->. done. }
  case_bool_decide as Hcolon; [|intros [= <- <-]; by left].
  destruct (Nat.eqb_spec (length pre) 0) as [Hz|Hnz]; [done |].
  intros [= <- <-]. right.
  rewrite take_app_length, <- drop_drop, drop_app_length. simpl.
  split; [done |]. split; [|by rewrite Hcolon].
  destruct pre as [|y pre]; [done |]. exists y. split; [done |]. by apply Hhead.
Qed.

Lemma getScheme_inv rawURL sch rest :
  url.getScheme rawURL = Some (sch, rest) →
  (sch = [] ∧ rest = rawURL) ∨
  (forallb scheme_byte sch = true ∧
   (∃ c, head sch = Some c ∧ url.isLetter c = true) ∧
   rawURL = sch ++ ":"%char :: rest).
Proof. intros Hg. by apply (getScheme_loop_inv rawURL [] sch rest). Qed.

Lemma scheme_byte_not_colon c : scheme_byte c = true → c ≠ ":"%char.
Proof. intros Hc ->. done. Qed.

Lemma getScheme_loop_scheme s1 : ∀ pre rest,
  forallb scheme_byte s1 = true →
  (pre = [] → ∀ c, head s1 = Some c → url.isLetter c = true) →
  pre ++ s1 ≠ [] →
  url.getScheme_loop (pre ++ s1 ++ ":"%char :: rest) (length pre)
    (s1 ++ ":"%char :: rest) = Some (pre ++ s1, rest).
Proof.
  induction s1 as [|c s1 IH]; intros pre rest Hs Hhead Hne; simpl.
  - rewrite app_nil_r in *. destruct pre as [|y pre]; [done |].
    rewrite take_app_length, <- drop_drop, drop_app_length. done.
  - simpl in Hs. apply andb_true_iff in Hs as [Hc Hs].
    assert (Hrec : url.getScheme_loop (pre ++ c :: s1 ++ ":"%char :: rest)
                     (S (length pre)) (s1 ++ ":"%char :: rest)
                   = Some (pre ++ c :: s1, rest)).
    { replace (pre ++ c :: s1 ++ ":"%char :: rest)
        with ((pre ++ [c]) ++ s1 ++ ":"%char :: rest) by by rewrite <- app_assoc.
      replace (S (length pre)) with (length (pre ++ [c]))
        by (rewrite length_app; simpl; lia).
      rewrite IH; [by rewrite <- app_assoc | done | | ].
      - intros Hnil. by destruct pre.
      - by destruct pre. }
    destruct (url.isLetter c) eqn:Hletter; [done |].
    unfold scheme_byte in Hc. rewrite Hletter in Hc. simpl in Hc. rewrite Hc.
    destruct (Nat.eqb_spec (length pre) 0) as [Hz|Hnz]; [|done].
    destruct pre; [|done]. specialize (Hhead eq_refl c eq_refl). congruence.
Qed.

Lemma getScheme_printed sch rest :
  lower_scheme sch = true →
  url.getScheme (sch ++ ":"%char :: rest) = Some (sch, rest).
Proof.
  unfold lower_scheme. destruct sch as [|c sch]; [done |].
  intros [[Hl Hs]%andb_true_iff _]%andb_true_iff.
  apply (getScheme_loop_scheme (c :: sch) [] rest); [exact Hs | | done].
  intros _ x [= <-]. exact Hl.
Qed.

Lemma getScheme_slash s :
  url.getScheme ("/"%char :: s) = Some ([], "/"%char :: s).
Proof. done. Qed.

Lemma scheme_byte_lower c :
  scheme_byte c = true → scheme_byte (strings.lowerByte c) = true.
Proof. each_byte c; intros Hc; by_bytes Hc. Qed.

Lemma isLetter_lower c :
  url.isLetter c = true → url.isLetter (strings.lowerByte c) = true.
Proof. each_byte c; intros Hc; by_bytes Hc. Qed.

Lemma scheme_byte_ascii c : scheme_byte c = true → (byte_val c <? 128)%N = true.
Proof. each_byte c; intros Hc; by_bytes Hc. Qed.

Lemma lower_scheme_of_getScheme sch :
  forallb scheme_byte sch = true →
  (∃ c, head sch = Some c ∧ url.isLetter c = true) →
  strings.isASCII sch = true ∧ lower_scheme (strings.lowerByte <$> sch) = true.
Proof.
  intros Hs (c & Hhead & Hl). split.
  - unfold strings.isASCII. eapply forallb_weaken; [|exact Hs].
    apply scheme_byte_ascii.
  - destruct sch as [|x sch]; [done |]. injection Hhead as ->.
    unfold lower_scheme. rewrite fmap_cons, isLetter_lower by done.
    rewrite <- fmap_cons. apply andb_true_iff. split.
    + eapply forallb_fmap_weaken; [|exact Hs]. apply scheme_byte_lower.
    + apply bool_decide_eq_true. rewrite <- list_fmap_compose.
      apply list_fmap_ext. intros _ y _. apply lowerByte_idemp.
Qed.

Lemma lower_scheme_ToLower `{GoLib} sch :
  lower_scheme sch = true → strings.ToLower sch = sch.
Proof.
  unfold lower_scheme. destruct sch as [|c sch]; [done |].
  intros [[_ Hs]%andb_true_iff Hl]%andb_true_iff.
  apply bool_decide_eq_true in Hl.
  rewrite ToLower_ascii; [done |].
  unfold strings.isASCII. eapply forallb_weaken; [|exact Hs].
  apply scheme_byte_ascii.
Qed.

Lemma lower_scheme_safe sch :
  lower_scheme sch = true → forallb url_safe_byte sch = true.
Proof.
  unfold lower_scheme. destruct sch as [|c sch]; [done |].
  intros [[_ Hs]%andb_true_iff _]%andb_true_iff.
  eapply forallb_weaken; [|exact Hs]. apply scheme_byte_safe.
Qed.

End SchemeHostFacts.

(** * Canonicalisation: plain hosts *)
Section HostFacts.

Implicit Types (s t h : gostring) (c d : ascii).

Ltac each_byte c := destruct c as [[] [] [] [] [] [] [] []].
Ltac by_bytes H := first [discriminate H | reflexivity].

Lemma hostport_escape_byte c :
  hostport_byte c = true → url.escape_byte url.encodeHost c = [c].
Proof. each_byte c; intros Hc; by_bytes Hc. Qed.

Lemma hostport_unescape_ok c t :
  hostport_byte c = true →
  url.unescape_ok url.encodeHost (c :: t) = url.unescape_ok url.encodeHost t.
Proof. each_byte c; intros Hc; by_bytes Hc. Qed.

Lemma hostport_unescape_bytes c t :
  hostport_byte c = true →
  url.unescape_bytes url.encodeHost (c :: t) = c :: url.unescape_bytes url.encodeHost t.
Proof. each_byte c; intros Hc; by_bytes Hc. Qed.

Lemma hostport_byte_safe c : hostport_byte c = true → url_safe_byte c = true.
Proof. each_byte c; intros Hc; by_bytes Hc. Qed.

Lemma hostport_byte_lower c :
  hostport_byte c = true → hostport_byte (strings.lowerByte c) = true.
Proof. each_byte c; intros Hc; by_bytes Hc. Qed.

Lemma hostport_byte_ascii c : hostport_byte c = true → (byte_val c <? 128)%N = true.
Proof. each_byte c; intros Hc; by_bytes Hc. Qed.

Lemma plain_byte_lower c : plain_byte c = true → plain_byte (strings.lowerByte c) = true.
Proof. each_byte c; intros Hc; by_bytes Hc. Qed.

Lemma digit_lower c : strconv.isDigit c = true → strings.lowerByte c = c.
Proof. each_byte c; intros Hc; by_bytes Hc. Qed.

Lemma plain_hostport c : plain_byte c = true → hostport_byte c = true.
Proof. unfold hostport_byte. by intros ->. Qed.

Lemma digit_plain c : strconv.isDigit c = true → plain_byte c = true.
Proof. each_byte c; intros Hc; by_bytes Hc. Qed.

Lemma escape_hostport h :
  forallb hostport_byte h = true → url.escape h url.encodeHost = h.
Proof.
  induction h as [|c h IH]; [done |].
  intros Hh. simpl in Hh. apply andb_true_iff in Hh as [Hc Hh].
  rewrite escape_cons, hostport_escape_byte, IH by done. done.
Qed.

Lemma unescape_hostport h :
  forallb hostport_byte h = true → url.unescape h url.encodeHost = Some h.
Proof.
  intros Hh. unfold url.unescape.
  assert (url.unescape_ok url.encodeHost h = true
          ∧ url.unescape_bytes url.encodeHost h = h) as [-> ->]; [|done].
  induction h as [|c h IH]; [done |]. simpl in Hh.
  apply andb_true_iff in Hh as [Hc Hh]. destruct (IH Hh) as [IH1 IH2].
  by rewrite hostport_unescape_ok, hostport_unescape_bytes, IH1, IH2.
Qed.

(** The two shapes of a plain host. *)
Lemma plain_host_bytes h : plain_host h → forallb hostport_byte h = true.
Proof.
  intros (name & port & -> & _ & Hname & Hport). rewrite forallb_app.
  apply andb_true_iff. split.
  - eapply forallb_weaken; [|exact Hname]. apply plain_hostport.
  - destruct Hport as [->|(ds & -> & Hds)]; [done |]. simpl.
    eapply forallb_weaken; [|exact Hds].
    intros c Hc. by apply plain_hostport, digit_plain.
Qed.

Lemma plain_no_colon name : forallb plain_byte name = true → ":"%char ∉ name.
Proof. intros Hn. by apply (forallb_notin plain_byte). Qed.

Lemma digits_no_colon ds : forallb strconv.isDigit ds = true → ":"%char ∉ ds.
Proof. intros Hn. by apply (forallb_notin strconv.isDigit). Qed.

Lemma plain_head_not name c x :
  forallb plain_byte name = true → plain_byte x = false →
  head name = Some c → c ≠ x.
Proof.
  destruct name as [|y name]; [done |]. simpl.
  intros [Hy _]%andb_true_iff Hx [= <-] ->. congruence.
Qed.

Lemma HasPrefix_plain name x :
  forallb plain_byte name = true → plain_byte x = false →
  strings.HasPrefix name [x] = false.
Proof.
  intros Hn Hx. rewrite HasPrefix_byte. apply bool_decide_eq_false_2.
  intros Hh. by apply (plain_head_not name x x Hn Hx).
Qed.

Lemma validOptionalPort_digits ds :
  forallb strconv.isDigit ds = true → url.validOptionalPort (":"%char :: ds) = true.
Proof. intros Hds. simpl. exact Hds. Qed.

Lemma splitHostPort_name name :
  forallb plain_byte name = true → url.splitHostPort name = (name, []).
Proof.
  intros Hn. unfold url.splitHostPort.
  change (str ":") with [":"%char]. change (str "[") with ["["%char].
  rewrite LastIndex_byte_None by by apply plain_no_colon.
  by rewrite HasPrefix_plain.
Qed.

Lemma splitHostPort_port name ds :
  forallb plain_byte name = true → forallb strconv.isDigit ds = true →
  url.splitHostPort (name ++ ":"%char :: ds) = (name, ds).
Proof.
  intros Hn Hds. unfold url.splitHostPort.
  change (str ":") with [":"%char]. change (str "[") with ["["%char].
  rewrite LastIndex_byte_app by by apply digits_no_colon.
  rewrite drop_app_length, validOptionalPort_digits by done.
  rewrite take_app_length, <- drop_drop, drop_app_length. simpl.
  by rewrite HasPrefix_plain.
Qed.

Lemma parseHost_plain h : plain_host h → url.parseHost h = Some h.
Proof.
  intros Hp. pose proof (plain_host_bytes h Hp) as Hb.
  destruct Hp as (name & port & -> & Hne & Hname & Hport).
  unfold url.parseHost.
  change (str ":") with [":"%char]. change (str "[") with ["["%char].
  assert (strings.HasPrefix (name ++ port) ["["%char] = false) as ->.
  { rewrite HasPrefix_byte. apply bool_decide_eq_false_2.
    destruct name as [|y name]; [done |]. simpl. intros [= ->].
    simpl in Hname. discriminate Hname. }
  destruct Hport as [->|(ds & -> & Hds)].
  - rewrite app_nil_r in *.
    rewrite LastIndex_byte_None by by apply plain_no_colon.
    by apply unescape_hostport.
  - rewrite LastIndex_byte_app by by apply digits_no_colon.
    rewrite drop_app_length, validOptionalPort_digits by done. simpl.
    by apply unescape_hostport.
Qed.

Lemma parseAuthority_plain h : plain_host h → url.parseAuthority h = Some (None, h).
Proof.
  intros Hp. unfold url.parseAuthority. change (str "@") with ["@"%char].
  rewrite LastIndex_byte_None.
  - by rewrite parseHost_plain.
  - apply (forallb_notin hostport_byte); [by apply plain_host_bytes | done].
Qed.

Lemma plain_host_lower h : plain_host h → plain_host (strings.lowerByte <$> h).
Proof.
  intros (name & port & -> & Hne & Hname & Hport).
  exists (strings.lowerByte <$> name), (strings.lowerByte <$> port).
  split; [by rewrite fmap_app |]. split; [by destruct name |]. split.
  - eapply forallb_fmap_weaken; [|exact Hname]. apply plain_byte_lower.
  - destruct Hport as [->|(ds & -> & Hds)]; [by left | right].
    exists ds. split; [|done]. rewrite fmap_cons. f_equal.
    clear -Hds. induction ds as [|d ds IH]; [done |]. simpl in Hds.
    apply andb_true_iff in Hds as [Hd Hds].
    by rewrite fmap_cons, digit_lower, IH.
Qed.

Lemma plain_host_ascii h : plain_host h → strings.isASCII h = true.
Proof.
  intros Hp. unfold strings.isASCII.
  eapply forallb_weaken; [|by apply plain_host_bytes]. apply hostport_byte_ascii.
Qed.

Lemma plain_host_safe h : plain_host h → forallb url_safe_byte h = true.
Proof.
  intros Hp. eapply forallb_weaken; [|by apply plain_host_bytes].
  apply hostport_byte_safe.
Qed.

Lemma plain_host_name name :
  name ≠ [] → forallb plain_byte name = true → plain_host name.
Proof. intros Hne Hn. exists name, []. rewrite app_nil_r. eauto. Qed.

End HostFacts.

(** * Canonicalisation: the sorted query *)
Section QueryFacts.

Implicit Types (s t k v : gostring) (c d : ascii) (m : url.Values).

(** ** The order of sort.Strings *)

Lemma byte_val_inj c d : byte_val c = byte_val d → c = d.
Proof.
  unfold byte_val. intros Heq.
  by rewrite <- (ascii_N_embedding c), <- (ascii_N_embedding d), Heq.
Qed.

Lemma str_leb_refl s : sort.str_leb s s = true.
Proof. induction s as [|c s IH]; [done |]. simpl. by rewrite N.ltb_irrefl. Qed.

Lemma str_leb_trans s : ∀ t r,
  sort.str_leb s t = true → sort.str_leb t r = true → sort.str_leb s r = true.
Proof.
  induction s as [|x s IH]; intros [|y t] [|z r]; simpl; try done.
  destruct (N.ltb_spec (byte_val x) (byte_val y)),
           (N.ltb_spec (byte_val y) (byte_val x)),
           (N.ltb_spec (byte_val y) (byte_val z)),
           (N.ltb_spec (byte_val z) (byte_val y)),
           (N.ltb_spec (byte_val x) (byte_val z)),
           (N.ltb_spec (byte_val z) (byte_val x));
    try done; try lia.
  apply IH.
Qed.

Lemma str_leb_antisym s : ∀ t,
  sort.str_leb s t = true → sort.str_leb t s = true → s = t.
Proof.
  induction s as [|x s IH]; intros [|y t]; simpl; try done.
  destruct (N.ltb_spec (byte_val x) (byte_val y)),
           (N.ltb_spec (byte_val y) (byte_val x)); try done; try lia.
  intros H1 H2. f_equal; [apply byte_val_inj; lia | by apply IH].
Qed.

Lemma str_leb_total s : ∀ t, sort.str_leb s t = true ∨ sort.str_leb t s = true.
Proof.
  induction s as [|x s IH]; intros [|y t]; simpl; auto.
  destruct (N.ltb_spec (byte_val x) (byte_val y)),
           (N.ltb_spec (byte_val y) (byte_val x)); auto.
Qed.

Global Instance str_le_trans : Transitive sort.str_le.
Proof.
  intros s t r H1%Is_true_true H2%Is_true_true. apply Is_true_true.
  by apply (str_leb_trans s t r).
Qed.

Global Instance str_le_antisym : AntiSymm (=) sort.str_le.
Proof.
  intros s t H1%Is_true_true H2%Is_true_true. by apply str_leb_antisym.
Qed.

Global Instance str_le_total : Total sort.str_le.
Proof.
  intros s t. unfold sort.str_le.
  destruct (str_leb_total s t) as [Hl|Hl]; rewrite Hl; simpl; auto.
Qed.

Lemma Strings_Sorted (l : list gostring) : Sorted sort.str_le (sort.Strings l).
Proof. apply Sorted_merge_sort, _. Qed.

Lemma Strings_Permutation (l : list gostring) : sort.Strings l ≡ₚ l.
Proof. apply merge_sort_Permutation. Qed.

Lemma Strings_sorted_id (l : list gostring) :
  Sorted sort.str_le l → sort.Strings l = l.
Proof.
  intros Hs. apply (Sorted_unique sort.str_le); [apply Strings_Sorted | done |].
  apply Strings_Permutation.
Qed.

(** ** Splitting what Join put together *)

Lemma SplitByte_piece s sep : ∀ cur,
  sep ∉ s → strings.SplitByte cur s sep = [reverse cur ++ s].
Proof.
  induction s as [|c s IH]; intros cur Hs; simpl.
  - by rewrite app_nil_r.
  - rewrite bool_decide_eq_false_2 by set_solver.
    rewrite IH by set_solver. by rewrite reverse_cons, <- app_assoc.
Qed.

Lemma SplitByte_app s sep t : ∀ cur,
  sep ∉ s →
  strings.SplitByte cur (s ++ sep :: t) sep
  = (reverse cur ++ s) :: strings.SplitByte [] t sep.
Proof.
  induction s as [|c s IH]; intros cur Hs; simpl.
  - rewrite bool_decide_eq_true_2 by done. by rewrite app_nil_r.
  - rewrite bool_decide_eq_false_2 by set_solver.
    rewrite IH by set_solver. by rewrite reverse_cons, <- app_assoc.
Qed.

Lemma SplitByte_Join (l : list gostring) sep :
  l ≠ [] → Forall (λ s, sep ∉ s) l →
  strings.SplitByte [] (strings.Join l [sep]) sep = l.
Proof.
  induction l as [|e l IH]; [done |]. intros _ Hl.
  apply Forall_cons in Hl as [He Hl].
  destruct l as [|e' l].
  - simpl. by rewrite SplitByte_piece.
  - change (strings.Join (e :: e' :: l) [sep])
      with (e ++ sep :: strings.Join (e' :: l) [sep]).
    rewrite SplitByte_app by done. rewrite IH by done. done.
Qed.

End QueryFacts.

(** * Canonicalisation: parsing the sorted query again *)
Section QueryValues.

Implicit Types (s t k v : gostring) (c d : ascii) (m : url.Values).

(** ** url.Values *)

Lemma Values_add_fresh m k v :
  k ∉ m.*1 → url.Values_add m k v = m ++ [(k, [v])].
Proof.
  induction m as [|[k' vs] m IH]; intros Hk; simpl; [done |].
  rewrite bool_decide_eq_false_2 by set_solver.
  rewrite IH by set_solver. done.
Qed.

Lemma Values_add_last m k vs v :
  k ∉ m.*1 → url.Values_add (m ++ [(k, vs)]) k v = m ++ [(k, vs ++ [v])].
Proof.
  induction m as [|[k' vs'] m IH]; intros Hk; simpl.
  - by rewrite bool_decide_eq_true_2.
  - rewrite bool_decide_eq_false_2 by set_solver.
    rewrite IH by set_solver. done.
Qed.

Lemma Values_add_keys m k v :
  (url.Values_add m k v).*1 = if bool_decide (k ∈ m.*1) then m.*1 else m.*1 ++ [k].
Proof.
  induction m as [|[k' vs] m IH]; [done |].
  cbn [url.Values_add]. rewrite !fmap_cons. cbn [fst].
  destruct (decide (k' = k)) as [->|Hne].
  - rewrite bool_decide_eq_true_2 by done. rewrite fmap_cons. cbn [fst].
    rewrite bool_decide_eq_true_2 by set_solver. done.
  - rewrite bool_decide_eq_false_2 by done. rewrite fmap_cons, IH. cbn [fst].
    destruct (decide (k ∈ m.*1)) as [Hin|Hnin].
    + rewrite !bool_decide_eq_true_2 by set_solver. done.
    + rewrite !bool_decide_eq_false_2 by set_solver. done.
Qed.

Lemma Values_add_wf m k v : Values_wf m → Values_wf (url.Values_add m k v).
Proof.
  intros [Hnd Hne]. split.
  - rewrite Values_add_keys. case_bool_decide as Hin; [done |].
    apply NoDup_app. split; [done |]. split; [|apply NoDup_singleton].
    intros x Hx ->%list_elem_of_singleton. done.
  - clear Hnd. induction m as [|[k' vs] m IH]; simpl.
    + by repeat constructor.
    + apply Forall_cons in Hne as [Hvs Hne]. case_bool_decide.
      * constructor; [|done]. simpl. by destruct vs.
      * constructor; [done | by apply IH].
Qed.

Lemma parseQuery_pairs_wf (pairs : list gostring) : ∀ m,
  Values_wf m → Values_wf (url.parseQuery_pairs m pairs).
Proof.
  induction pairs as [|p pairs IH]; intros m Hm; [done |].
  cbn [url.parseQuery_pairs].
  destruct (strings.Contains p (str ";")); [by apply IH |].
  case_bool_decide; [by apply IH |].
  destruct (strings.Cut p (str "=")) as [[k v] found].
  destruct (url.QueryUnescape k) as [k'|]; [|by apply IH].
  destruct (url.QueryUnescape v) as [v'|]; [|by apply IH].
  by apply IH, Values_add_wf.
Qed.

Lemma ParseQuery_wf s : Values_wf (url.ParseQuery s).
Proof. apply parseQuery_pairs_wf. split; constructor. Qed.

Lemma Values_lookup_in m k :
  Values_wf m → k ∈ m.*1 → url.Values_lookup m k ≠ [].
Proof.
  intros [_ Hne]. induction m as [|[k' vs] m IH]; simpl; [set_solver |].
  apply Forall_cons in Hne as [Hvs Hne]. intros Hk.
  case_bool_decide as Heq; [done |]. apply IH; [done | set_solver].
Qed.

Lemma Values_lookup_head m k vs : url.Values_lookup ((k, vs) :: m) k = vs.
Proof. simpl. by rewrite bool_decide_eq_true_2. Qed.

Lemma Values_lookup_tail m k vs k' :
  k ≠ k' → url.Values_lookup ((k, vs) :: m) k' = url.Values_lookup m k'.
Proof. intros Hne. simpl. by rewrite bool_decide_eq_false_2. Qed.

(** ** One pair *)

Lemma query_component_no (k : gostring) c :
  query_component_byte c = false → c ∉ url.QueryEscape k.
Proof.
  intros Hc. apply (forallb_notin query_component_byte); [|done].
  apply QueryEscape_safe.
Qed.

Lemma parseQuery_pairs_pair m k v (rest : list gostring) :
  url.parseQuery_pairs m (queryPair k v :: rest)
  = url.parseQuery_pairs (url.Values_add m k v) rest.
Proof.
  unfold queryPair. change (str "=") with ["="%char]. simpl.
  change (str ";") with [";"%char]. change (str "=") with ["="%char].
  rewrite Contains_byte.
  rewrite bool_decide_eq_false_2.
  2:{ rewrite elem_of_app, elem_of_cons.
      intros [H|[H|H]]; [|done |]; by apply query_component_no in H. }
  rewrite bool_decide_eq_false_2 by by destruct (url.QueryEscape k).
  rewrite Cut_byte_app by by apply query_component_no.
  by rewrite !unescape_escape_query.
Qed.

Lemma parseQuery_pairs_group (vs : list gostring) : ∀ m k vs0 rest,
  k ∉ m.*1 →
  url.parseQuery_pairs (m ++ [(k, vs0)]) ((queryPair k <$> vs) ++ rest)
  = url.parseQuery_pairs (m ++ [(k, vs0 ++ vs)]) rest.
Proof.
  induction vs as [|v vs IH]; intros m k vs0 rest Hk.
  - by rewrite app_nil_r.
  - rewrite fmap_cons, <- app_comm_cons, parseQuery_pairs_pair.
    rewrite Values_add_last by done. rewrite IH by done.
    by rewrite <- app_assoc.
Qed.

Lemma parseQuery_pairs_groups (groups : url.Values) : ∀ m,
  NoDup (m.*1 ++ groups.*1) → Forall (λ kv, kv.2 ≠ []) groups →
  url.parseQuery_pairs m (queryPairs groups) = m ++ groups.
Proof.
  unfold queryPairs.
  induction groups as [|[k vs] groups IH]; intros m Hnd Hne.
  - by rewrite app_nil_r.
  - apply Forall_cons in Hne as [Hvs Hne]. simpl in Hvs.
    destruct vs as [|v vs]; [done |].
    assert (Hk : k ∉ m.*1).
    { apply NoDup_app in Hnd as (_ & Hd & _). intros Hin.
      apply (Hd k Hin). simpl. set_solver. }
    rewrite bind_cons. cbn [fst snd]. rewrite fmap_cons, <- app_comm_cons.
    rewrite parseQuery_pairs_pair, Values_add_fresh by done.
    rewrite parseQuery_pairs_group by done. simpl.
    rewrite IH; [by rewrite <- app_assoc | | done].
    rewrite fmap_app. simpl. rewrite <- app_assoc. exact Hnd.
Qed.

End QueryValues.

(** * Canonicalisation: rebuilding the query is idempotent *)
Section QueryRebuild.

Implicit Types (s t k v q : gostring) (c d : ascii) (m : url.Values).

Lemma queryPairs_fmap (f : gostring → list gostring) (keys : list gostring) :
  queryPairs ((λ k, (k, f k)) <$> keys) = k ← keys; queryPair k <$> f k.
Proof.
  unfold queryPairs. induction keys as [|k keys IH]; [done |].
  rewrite fmap_cons, !bind_cons, IH. done.
Qed.

Lemma rebuildQuery_groups q :
  rebuildQuery q
  = strings.Join (queryPairs (sortedGroups (url.ParseQuery q))) (str "&").
Proof. unfold rebuildQuery, sortedGroups. by rewrite queryPairs_fmap. Qed.

Lemma sortedGroups_keys m : (sortedGroups m).*1 = sort.Strings (m.*1).
Proof.
  unfold sortedGroups. rewrite <- list_fmap_compose.
  induction (sort.Strings m.*1) as [|k l IH]; [done |].
  by rewrite fmap_cons, IH.
Qed.

Lemma sortedGroups_canonical m : Values_wf m → canonical_groups (sortedGroups m).
Proof.
  intros Hwf. pose proof Hwf as [Hnd Hne]. unfold canonical_groups.
  rewrite sortedGroups_keys.
  split; [apply Strings_Sorted |]. split; [by rewrite Strings_Permutation |].
  unfold sortedGroups. apply Forall_fmap, Forall_forall. intros k Hk. simpl.
  rewrite Strings_Permutation in Hk. split; [|apply Strings_Sorted].
  intros Hnil. apply (Values_lookup_in m k Hwf Hk).
  apply Permutation_nil_r. rewrite <- Hnil. symmetry. apply Strings_Permutation.
Qed.

Lemma sortedGroups_fixed (groups : url.Values) :
  canonical_groups groups → sortedGroups groups = groups.
Proof.
  intros (Hs & Hnd & Hvs). unfold sortedGroups.
  rewrite Strings_sorted_id by done. clear Hs.
  induction groups as [|[k vs] groups IH]; [done |].
  rewrite !fmap_cons in *. cbn [fst] in *.
  apply NoDup_cons in Hnd as [Hk Hnd]. apply Forall_cons in Hvs as [[_ Hsv] Hvs].
  rewrite Values_lookup_head, Strings_sorted_id by done. f_equal.
  rewrite <- (IH Hnd Hvs) at 2. apply list_fmap_ext. intros i k' Hi.
  rewrite Values_lookup_tail; [done |]. intros ->.
  apply Hk, list_elem_of_lookup. eauto.
Qed.

Lemma queryPair_no_amp k v : "&"%char ∉ queryPair k v.
Proof.
  unfold queryPair. change (str "=") with ["="%char].
  rewrite !elem_of_app.
  intros [H|[H%list_elem_of_singleton|H]]; [|done |];
    by apply query_component_no in H.
Qed.

Lemma queryPairs_no_amp (groups : url.Values) :
  Forall (λ s, "&"%char ∉ s) (queryPairs groups).
Proof.
  unfold queryPairs. apply Forall_forall. intros p Hp.
  apply list_elem_of_bind in Hp as ([k vs] & Hp & _). simpl in Hp.
  apply list_elem_of_fmap in Hp as (v & -> & _). apply queryPair_no_amp.
Qed.

Lemma queryPairs_nil (groups : url.Values) :
  Forall (λ kv, kv.2 ≠ []) groups → queryPairs groups = [] → groups = [].
Proof.
  destruct groups as [|[k vs] groups]; [done |].
  intros [Hvs _]%Forall_cons. unfold queryPairs. rewrite bind_cons. simpl in *.
  destruct vs; done.
Qed.

Lemma ParseQuery_rebuilt (groups : url.Values) :
  canonical_groups groups →
  url.ParseQuery (strings.Join (queryPairs groups) (str "&")) = groups.
Proof.
  intros (_ & Hnd & Hvs).
  assert (Hne : Forall (λ kv : gostring * list gostring, kv.2 ≠ []) groups).
  { eapply Forall_impl; [exact Hvs |]. by intros kv [? _]. }
  unfold url.ParseQuery. change (str "&") with ["&"%char].
  destruct (decide (queryPairs groups = [])) as [Hnil|Hnn].
  - rewrite Hnil. by rewrite (queryPairs_nil groups Hne Hnil).
  - rewrite SplitByte_Join by (done || apply queryPairs_no_amp).
    by rewrite parseQuery_pairs_groups.
Qed.

(** Rebuilding a rebuilt query changes nothing. *)
Lemma rebuildQuery_idemp q : rebuildQuery (rebuildQuery q) = rebuildQuery q.
Proof.
  rewrite (rebuildQuery_groups q).
  set (groups := sortedGroups (url.ParseQuery q)).
  assert (Hc : canonical_groups groups)
    by apply sortedGroups_canonical, ParseQuery_wf.
  by rewrite rebuildQuery_groups, ParseQuery_rebuilt, sortedGroups_fixed.
Qed.

Lemma Join_safe (l : list gostring) sep :
  Forall (λ s, forallb url_safe_byte s = true) l →
  forallb url_safe_byte sep = true →
  forallb url_safe_byte (strings.Join l sep) = true.
Proof.
  intros Hl Hsep. induction l as [|e l IH]; [done |].
  apply Forall_cons in Hl as [He Hl]. destruct l as [|e' l]; [done |].
  change (strings.Join (e :: e' :: l) sep)
    with (e ++ sep ++ strings.Join (e' :: l) sep).
  rewrite !forallb_app, He, Hsep, IH by done. done.
Qed.

Lemma QueryEscape_url_safe k : forallb url_safe_byte (url.QueryEscape k) = true.
Proof.
  eapply forallb_weaken; [|apply QueryEscape_safe]. apply query_component_byte_safe.
Qed.

Lemma rebuildQuery_safe q : forallb url_safe_byte (rebuildQuery q) = true.
Proof.
  rewrite rebuildQuery_groups. apply Join_safe; [|done].
  unfold queryPairs. apply Forall_forall. intros p Hp.
  apply list_elem_of_bind in Hp as ([k vs] & Hp & _). simpl in Hp.
  apply list_elem_of_fmap in Hp as (v & -> & _).
  unfold queryPair. rewrite !forallb_app, !QueryEscape_url_safe. done.
Qed.

End QueryRebuild.

(** * Canonicalisation: what url.Parse returns for a URL with a host *)
Section ParseFacts.
Context `{GoLib}.

Implicit Types (s t p q h : gostring) (c d : ascii) (u U : url.URL).

Lemma setPath_Some u p U :
  url.setPath u p = Some U →
  ∃ path,
    url.unescape p url.encodePath = Some path ∧
    U = url.mkURL (url.Scheme u) (url.Opaque u) (url.User u) (url.Host u) path
          (if bool_decide (p = url.escape path url.encodePath) then [] else p)
          (url.OmitHost u) (url.ForceQuery u) (url.RawQuery u) (url.Fragment u)
          (url.RawFragment u).
Proof.
  unfold url.setPath. destruct (url.unescape p url.encodePath) as [path|]; [|done].
  cbn [mbind option_bind]. intros [= <-]. by exists path.
Qed.

Lemma setFragment_Some u f U :
  url.setFragment u f = Some U →
  ∃ frag raw,
    U = url.mkURL (url.Scheme u) (url.Opaque u) (url.User u) (url.Host u)
          (url.Path u) (url.RawPath u) (url.OmitHost u) (url.ForceQuery u)
          (url.RawQuery u) frag raw.
Proof.
  unfold url.setFragment. destruct (url.unescape f url.encodeFragment) as [frag|]; [|done].
  cbn [mbind option_bind]. intros [= <-]. by eexists _, _.
Qed.

Lemma unescape_path_head p path :
  url.unescape p url.encodePath = Some path →
  (p = [] → path = []) ∧ (head p = Some "/"%char → head path = Some "/"%char).
Proof.
  unfold url.unescape. destruct (url.unescape_ok url.encodePath p); [|done].
  intros [= <-]. split; [by intros -> |].
  destruct p as [|c p]; [done |]. by intros [= ->].
Qed.

Lemma splitQuery_force rest0 rest q fq :
  url.splitQuery rest0 = (rest, q, fq) → fq = true → q = [].
Proof.
  unfold url.splitQuery. destruct (_ && _).
  - by intros [= <- <- <-].
  - destruct (strings.Cut rest0 (str "?")) as [[r q'] f]. by intros [= <- <- <-].
Qed.

Lemma splitAuthority_rest rest0 authority rest :
  url.splitAuthority rest0 = (authority, rest) →
  rest = [] ∨ head rest = Some "/"%char.
Proof.
  unfold url.splitAuthority. change (str "/") with ["/"%char].
  destruct (strings.Index (drop 2 rest0) ["/"%char]) as [i|] eqn:Hi.
  - intros [= <- <-]. right. apply Index_byte_Some in Hi as [_ Hl].
    by rewrite head_lookup, lookup_drop, Nat.add_0_r.
  - intros [= <- <-]. by left.
Qed.

Lemma parseAuthority_wf authority user host :
  url.parseAuthority authority = Some (user, host) → userinfo_wf user.
Proof.
  unfold url.parseAuthority, userinfo_wf.
  destruct (strings.LastIndex authority (str "@")) as [i|].
  - destruct (url.parseHost _) as [h|]; [|done]. cbn [mbind option_bind].
    destruct (negb (url.validUserinfo _)); [done |].
    destruct (negb (strings.Contains _ _)).
    + destruct (url.unescape _ _) as [name|]; [|done]. cbn [mbind option_bind].
      by intros [= <- <-] ui [= <-].
    + destruct (strings.Cut _ _) as [[name pw] ?].
      destruct (url.unescape name _) as [name'|]; [|done]. cbn [mbind option_bind].
      destruct (url.unescape pw _) as [pw'|]; [|done]. cbn [mbind option_bind].
      by intros [= <- <-] ui [= <-].
  - destruct (url.parseHost _) as [h|]; [|done]. cbn [mbind option_bind].
    by intros [= <- <-].
Qed.

Lemma ToLower_nil : strings.ToLower [] = [].
Proof. done. Qed.

Lemma parse_scheme rawURL scheme0 rest0 :
  url.getScheme rawURL = Some (scheme0, rest0) →
  strings.ToLower scheme0 = [] ∨ lower_scheme (strings.ToLower scheme0) = true.
Proof.
  intros [[-> _]|(Hs & Hh & _)]%getScheme_inv; [by left | right].
  destruct (lower_scheme_of_getScheme scheme0 Hs Hh) as [Ha Hl].
  by rewrite ToLower_ascii.
Qed.

Lemma parse_host_facts rawURL U :
  url.parse rawURL = Some U → url.Host U ≠ [] → host_url_facts U.
Proof.
  unfold url.parse.
  destruct (url.stringContainsCTLByte rawURL); [done |].
  case_bool_decide; [by intros [= <-] |].
  destruct (url.getScheme rawURL) as [[scheme0 rest0]|] eqn:Hg; [|done].
  cbn [mbind option_bind].
  pose proof (parse_scheme rawURL scheme0 rest0 Hg) as Hsch.
  destruct (url.splitQuery rest0) as [[rest q] fq] eqn:Hq.
  pose proof (splitQuery_force rest0 rest q fq Hq) as Hforce.
  destruct (_ && _); [by intros [= <-] |].
  destruct (_ && _); [done |].
  destruct (_ && _).
  - destruct (url.splitAuthority rest) as [authority rest'] eqn:Ha.
    pose proof (splitAuthority_rest rest authority rest' Ha) as Hrest.
    destruct (url.parseAuthority authority) as [[user host]|] eqn:Hauth; [|done].
    apply parseAuthority_wf in Hauth.
    cbn [mbind option_bind].
    intros (path & Hun & ->)%setPath_Some _. unfold host_url_facts. simpl.
    destruct (unescape_path_head rest' path Hun) as [Hnil Hslash].
    repeat split; try done.
    + destruct Hrest as [->|Hh]; [left; by apply Hnil | right; by apply Hslash].
    + case_bool_decide; [by left | done].
  - destruct (_ && _); by intros (path & Hun & ->)%setPath_Some.
Qed.

Lemma Parse_host_facts rawURL U :
  url.Parse rawURL = Some U → url.Host U ≠ [] → host_url_facts U.
Proof.
  unfold url.Parse. destruct (strings.Cut rawURL (str "#")) as [[u0 frag] f].
  destruct (url.parse u0) as [u1|] eqn:Hp; [|done]. cbn [mbind option_bind].
  case_bool_decide.
  - intros [= <-]. by apply (parse_host_facts u0).
  - intros (fr & raw & ->)%setFragment_Some Hh. simpl in Hh.
    by apply (parse_host_facts u0 u1 Hp) in Hh.
Qed.

End ParseFacts.

(** * Canonicalisation: url.Parse reads back what URL.String wrote *)
Section Reparse.
Context `{GoLib}.

Implicit Types (s t p q h ep sch : gostring) (c d : ascii) (u U : url.URL).

Ltac each_byte c := destruct c as [[] [] [] [] [] [] [] []].

Lemma safe_last_not_question s : forallb url_safe_byte s = true → last s ≠ Some "?"%char.
Proof.
  intros Hs Hl. apply last_Some_elem_of in Hl. by apply safe_no_question in Hs.
Qed.

Lemma splitQuery_printed s fq q :
  forallb url_safe_byte s = true → forallb url_safe_byte q = true →
  (fq = true → q = []) →
  url.splitQuery
    (s ++ (if fq || negb (bool_decide (q = [])) then str "?" ++ q else []))
  = (s, q, fq).
Proof.
  intros Hs Hq Hfq. unfold url.splitQuery. change (str "?") with ["?"%char].
  rewrite HasSuffix_byte.
  pose proof (safe_no_question s Hs) as Hns.
  destruct fq; cbn [orb].
  - rewrite (Hfq eq_refl). cbn [app]. rewrite last_snoc, bool_decide_eq_true_2 by done.
    rewrite CountByte_app, CountByte_notin by done. cbn [andb].
    replace (strings.CountByte ["?"%char] "?"%char) with 1 by done. cbn [Nat.add Nat.eqb].
    rewrite length_app. cbn [length]. replace (length s + 1 - 1) with (length s) by lia.
    by rewrite take_app_length.
  - destruct (decide (q = [])) as [->|Hqe].
    + rewrite (bool_decide_eq_true_2 ([] = [])) by done. cbn [negb]. rewrite app_nil_r.
      rewrite bool_decide_eq_false_2 by by apply safe_last_not_question.
      cbn [andb]. by rewrite Cut_byte_None.
    + rewrite (bool_decide_eq_false_2 (q = [])) by done. cbn [negb app].
      rewrite bool_decide_eq_false_2.
      * cbn [andb]. by rewrite Cut_byte_app.
      * rewrite last_app, last_cons. destruct (last q) as [x|] eqn:Hl.
        -- intros [= ->]. by apply (safe_last_not_question q).
        -- by apply last_None in Hl.
Qed.

Lemma splitAuthority_printed s ep :
  "/"%char ∉ s → head ep = Some "/"%char →
  url.splitAuthority ("/"%char :: "/"%char :: s ++ ep) = (s, ep).
Proof.
  intros Hh Hep. destruct ep as [|c ep']; [done |]. injection Hep as ->.
  unfold url.splitAuthority. change (str "/") with ["/"%char]. cbv zeta. cbn [drop].
  rewrite !drop_0.
  rewrite Index_byte_app by done. by rewrite take_app_length, drop_app_length.
Qed.

Lemma plain_no_slash name : forallb plain_byte name = true → "/"%char ∉ name.
Proof. intros Hn. by apply (forallb_notin plain_byte). Qed.

Lemma digits_no_slash ds : forallb strconv.isDigit ds = true → "/"%char ∉ ds.
Proof. intros Hn. by apply (forallb_notin strconv.isDigit). Qed.

Lemma plain_host_no_slash h : plain_host h → "/"%char ∉ h.
Proof.
  intros (name & port & -> & _ & Hn & Hp). apply not_elem_of_app. split.
  - by apply plain_no_slash.
  - destruct Hp as [->|(ds & -> & Hd)]; [apply not_elem_of_nil |].
    apply not_elem_of_cons. split; [done | by apply digits_no_slash].
Qed.

Lemma plain_host_head h :
  plain_host h → ∃ c h', h = c :: h' ∧ plain_byte c = true.
Proof.
  intros (name & port & -> & Hne & Hn & _). destruct name as [|c name]; [done |].
  exists c, (name ++ port). split; [done |].
  cbn [forallb] in Hn. by apply andb_prop in Hn as [? _].
Qed.

(** ** Userinfo *)

Lemma Userinfo_String_bytes ui :
  forallb (λ c, userinfo_byte c || bool_decide (c = ":"%char))
    (url.Userinfo_String ui) = true.
Proof.
  unfold url.Userinfo_String. rewrite forallb_app. apply andb_true_intro. split.
  - eapply forallb_weaken; [|apply escape_user_bytes]. by intros c ->.
  - destruct (url.passwordSet ui); [|done]. cbv [str list_ascii_of_string]; cbn [app forallb].
    eapply forallb_weaken; [|apply escape_user_bytes]. by intros c ->.
Qed.

Lemma printedUser_bytes user :
  forallb (λ c, userinfo_byte c || url.mem c ":@") (printedUser user) = true.
Proof.
  destruct user as [ui|]; [|done]. unfold printedUser.
  rewrite forallb_app. apply andb_true_intro. split; [|done].
  eapply forallb_weaken; [|apply Userinfo_String_bytes].
  intros c [Hc|Hc]%orb_prop; [by rewrite Hc |].
  apply bool_decide_eq_true in Hc as ->. done.
Qed.

Lemma printedUser_byte_safe c :
  userinfo_byte c || url.mem c ":@" = true → url_safe_byte c = true.
Proof. each_byte c; (reflexivity || discriminate). Qed.

Lemma printedUser_safe user : forallb url_safe_byte (printedUser user) = true.
Proof.
  eapply forallb_weaken; [|apply printedUser_bytes]. apply printedUser_byte_safe.
Qed.

Lemma printedUser_no_slash user : "/"%char ∉ printedUser user.
Proof. eapply forallb_notin; [apply printedUser_bytes | done]. Qed.

Lemma escape_user_notin s c :
  userinfo_byte c = false → c ∉ url.escape s url.encodeUserPassword.
Proof. intros Hc. eapply forallb_notin; [apply escape_user_bytes | done]. Qed.

Lemma validUserinfo_printed ui : url.validUserinfo (url.Userinfo_String ui) = true.
Proof.
  unfold url.validUserinfo. eapply forallb_weaken; [|apply Userinfo_String_bytes].
  intros c [Hc|Hc]%orb_prop; [by apply userinfo_byte_valid |].
  apply bool_decide_eq_true in Hc as ->. done.
Qed.

Lemma plain_host_no_at h : plain_host h → "@"%char ∉ h.
Proof.
  intros Hh. eapply forallb_notin; [by apply plain_host_bytes | done].
Qed.

Lemma parseAuthority_printed user h :
  userinfo_wf user → plain_host h →
  url.parseAuthority (printedUser user ++ h) = Some (user, h).
Proof.
  intros Hwf Hh. destruct user as [[name pw pwset]|]; [|by apply parseAuthority_plain].
  specialize (Hwf _ eq_refl). cbn [url.passwordSet url.password] in Hwf.
  unfold printedUser, url.parseAuthority. change (str "@") with ["@"%char].
  rewrite <- app_assoc. cbn [app].
  rewrite LastIndex_byte_app by by apply plain_host_no_at.
  rewrite take_app_length.
  replace (drop (length (url.Userinfo_String (url.mkUserinfo name pw pwset)) + 1)
             (url.Userinfo_String (url.mkUserinfo name pw pwset) ++ "@"%char :: h))
    with h.
  2:{ rewrite drop_app_ge by lia.
      by replace (length (url.Userinfo_String (url.mkUserinfo name pw pwset)) + 1
                  - length (url.Userinfo_String (url.mkUserinfo name pw pwset)))
        with 1 by lia. }
  rewrite parseHost_plain by done. cbn [mbind option_bind].
  rewrite validUserinfo_printed. cbn [negb].
  unfold url.Userinfo_String. cbn [url.username url.password url.passwordSet].
  change (str ":") with [":"%char]. rewrite Contains_byte.
  destruct pwset.
  - cbn [app]. rewrite bool_decide_eq_true_2.
    2:{ apply elem_of_app. right. apply list_elem_of_here. }
    cbn [negb]. rewrite Cut_byte_app by by apply escape_user_notin.
    by rewrite !unescape_escape_user.
  - rewrite app_nil_r, bool_decide_eq_false_2 by by apply escape_user_notin.
    cbn [negb]. rewrite unescape_escape_user. cbn [mbind option_bind].
    by rewrite Hwf.
Qed.

Lemma authority_head user h :
  plain_host h → ∃ c s, printedUser user ++ h = c :: s ∧ c ≠ "/"%char.
Proof.
  intros Hh.
  assert (Hno : "/"%char ∉ printedUser user ++ h).
  { apply not_elem_of_app. split;
      [apply printedUser_no_slash | by apply plain_host_no_slash]. }
  destruct (plain_host_head h Hh) as (c0 & h' & Hhc & _).
  destruct (printedUser user ++ h) as [|c s] eqn:Ha.
  - apply app_eq_nil in Ha as [_ ?]. by subst.
  - exists c, s. split; [done |]. intros ->. apply Hno, list_elem_of_here.
Qed.

Lemma CTL_app s t :
  url.stringContainsCTLByte (s ++ t)
  = url.stringContainsCTLByte s || url.stringContainsCTLByte t.
Proof. apply existsb_app. Qed.

Lemma printed_split sch user h ep fq q :
  printed sch user h ep fq q
  = (if bool_decide (sch = []) then [] else sch ++ [":"%char]) ++
    ("/"%char :: "/"%char :: (printedUser user ++ h) ++ ep) ++
    (if fq || negb (bool_decide (q = [])) then str "?" ++ q else []).
Proof.
  unfold printed. f_equal. cbv [str list_ascii_of_string]; cbn [app].
  by rewrite <- (app_assoc (printedUser user ++ h) ep).
Qed.

Lemma scheme_prefix_safe sch :
  sch = [] ∨ lower_scheme sch = true →
  forallb url_safe_byte (if bool_decide (sch = []) then [] else sch ++ [":"%char]) = true.
Proof.
  intros [->|Hl]; [done |]. case_bool_decide; [done |].
  rewrite forallb_app, lower_scheme_safe by done. done.
Qed.

Lemma ToLower_scheme sch :
  sch = [] ∨ lower_scheme sch = true → strings.ToLower sch = sch.
Proof. intros [->|Hl]; [done | by apply lower_scheme_ToLower]. Qed.

Lemma getScheme_of_printed sch s :
  sch = [] ∨ lower_scheme sch = true →
  url.getScheme
    ((if bool_decide (sch = []) then [] else sch ++ [":"%char]) ++ "/"%char :: s)
  = Some (sch, "/"%char :: s).
Proof.
  intros [->|Hl].
  - apply getScheme_slash.
  - rewrite bool_decide_eq_false_2 by by intros ->.
    rewrite <- app_assoc. by apply getScheme_printed.
Qed.

Lemma parse_printed sch user h ep p fq q :
  sch = [] ∨ lower_scheme sch = true →
  userinfo_wf user →
  plain_host h →
  head ep = Some "/"%char →
  forallb url_safe_byte ep = true →
  url.unescape ep url.encodePath = Some p →
  forallb url_safe_byte q = true →
  (fq = true → q = []) →
  url.parse (printed sch user h ep fq q)
  = Some (url.mkURL sch [] user h p
            (if bool_decide (ep = url.escape p url.encodePath) then [] else ep)
            false fq q [] []).
Proof.
  intros Hsch Hwf Hh Hep Hsafe Hun Hq Hfq.
  set (a := printedUser user ++ h).
  assert (Ha : forallb url_safe_byte a = true).
  { unfold a. by rewrite forallb_app, printedUser_safe, plain_host_safe. }
  assert (Hno : "/"%char ∉ a).
  { apply not_elem_of_app. split;
      [apply printedUser_no_slash | by apply plain_host_no_slash]. }
  assert (HR : forallb url_safe_byte ("/"%char :: "/"%char :: a ++ ep) = true).
  { cbn [forallb]. by rewrite forallb_app, Ha, Hsafe. }
  assert (Htail : url.stringContainsCTLByte
            (if fq || negb (bool_decide (q = [])) then str "?" ++ q else []) = false).
  { destruct (_ || _); [|done]. cbv [str list_ascii_of_string]; cbn [app].
    by apply (safe_no_CTL q) in Hq. }
  assert (Hp1 : strings.HasPrefix ("/"%char :: "/"%char :: a ++ ep) (str "/") = true).
  { cbv [str list_ascii_of_string]. by rewrite HasPrefix_cons, HasPrefix_nil. }
  assert (Hp2 : strings.HasPrefix ("/"%char :: "/"%char :: a ++ ep) (str "//") = true).
  { cbv [str list_ascii_of_string]. by rewrite !HasPrefix_cons, HasPrefix_nil. }
  assert (Hp3 : strings.HasPrefix ("/"%char :: "/"%char :: a ++ ep) (str "///") = false).
  { destruct (authority_head user h Hh) as (c & a' & Hac & Hc). fold a in Hac.
    rewrite Hac. cbv [str list_ascii_of_string]; cbn [app].
    rewrite !HasPrefix_cons, HasPrefix_nil.
    by rewrite (bool_decide_eq_false_2 (c = "/"%char)). }
  unfold url.parse. rewrite printed_split. fold a.
  rewrite !CTL_app, Htail, (safe_no_CTL _ HR), (safe_no_CTL _ (scheme_prefix_safe sch Hsch)).
  cbn [orb]. rewrite bool_decide_eq_false_2.
  2:{ intros Heq. apply (f_equal (λ s, bool_decide ("/"%char ∈ s))) in Heq.
      rewrite bool_decide_eq_true_2 in Heq; [done |].
      rewrite !elem_of_app. right; left. apply list_elem_of_here. }
  cbn [app]. rewrite getScheme_of_printed by done. cbn [mbind option_bind].
  rewrite ToLower_scheme by done.
  rewrite (app_comm_cons _ _ "/"%char), (app_comm_cons _ _ "/"%char).
  rewrite splitQuery_printed by done.
  rewrite Hp1, Hp2, Hp3. cbn [negb andb]. rewrite orb_true_r. cbn [andb].
  rewrite splitAuthority_printed by done.
  unfold a. rewrite parseAuthority_printed by done. cbn [mbind option_bind].
  unfold url.setPath. rewrite Hun. done.
Qed.

Lemma Parse_printed sch user h ep p fq q :
  sch = [] ∨ lower_scheme sch = true →
  userinfo_wf user →
  plain_host h →
  head ep = Some "/"%char →
  forallb url_safe_byte ep = true →
  url.unescape ep url.encodePath = Some p →
  forallb url_safe_byte q = true →
  (fq = true → q = []) →
  url.Parse (printed sch user h ep fq q)
  = Some (url.mkURL sch [] user h p
            (if bool_decide (ep = url.escape p url.encodePath) then [] else ep)
            false fq q [] []).
Proof.
  intros Hsch Hwf Hh Hep Hsafe Hun Hq Hfq.
  unfold url.Parse. change (str "#") with ["#"%char]. rewrite Cut_byte_None.
  - rewrite (parse_printed sch user h ep p fq q) by done. done.
  - rewrite printed_split, !not_elem_of_app. split_and!.
    + apply safe_no_hash. by apply scheme_prefix_safe.
    + apply safe_no_hash. cbn [forallb].
      by rewrite !forallb_app, printedUser_safe, plain_host_safe, Hsafe.
    + destruct (_ || _); [|apply not_elem_of_nil].
      cbv [str list_ascii_of_string]; cbn [app].
      apply not_elem_of_cons. split; [done | by apply safe_no_hash].
Qed.

End Reparse.

(** * Canonicalisation: the canonical form is a fixed point *)
Section Canonical.
Context `{GoLib}.

Implicit Types (s t p q h ep sch : gostring) (c d : ascii) (u U V : url.URL).

Lemma CanonicalizeURL_unfold s :
  Deduplicator.CanonicalizeURL s
  = match url.Parse s with
    | None => s
    | Some U => url.URL_String (canonURL U)
    end.
Proof. reflexivity. Qed.

Lemma dropDefaultPort_fields sch op us h p rp oh fq q fr rfr :
  dropDefaultPort (url.mkURL sch op us h p rp oh fq q fr rfr)
  = url.mkURL sch op us (canonHost sch h) p rp oh fq q fr rfr.
Proof.
  unfold dropDefaultPort, canonHost, url.Hostname, url.Port, url.with_Host.
  cbn [url.Scheme url.Opaque url.User url.Host url.Path url.RawPath url.OmitHost
       url.ForceQuery url.RawQuery url.Fragment url.RawFragment].
  cbv zeta. by destruct (_ || _).
Qed.

Lemma sortQuery_fields sch op us h p rp oh fq q fr rfr :
  sortQuery (url.mkURL sch op us h p rp oh fq q fr rfr)
  = url.mkURL sch op us h p rp oh fq (canonQuery q) fr rfr.
Proof.
  unfold sortQuery, canonQuery, url.with_RawQuery.
  cbn [url.Scheme url.Opaque url.User url.Host url.Path url.RawPath url.OmitHost
       url.ForceQuery url.RawQuery url.Fragment url.RawFragment].
  by destruct (negb _).
Qed.

Lemma trimSlash_rootPath_fields sch op us h p rp oh fq q fr rfr :
  rootPath (trimSlash (url.mkURL sch op us h p rp oh fq q fr rfr))
  = url.mkURL sch op us h (canonPath p) rp oh fq q fr rfr.
Proof.
  unfold rootPath, trimSlash, canonPath, url.with_Path.
  cbn [url.Scheme url.Opaque url.User url.Host url.Path url.RawPath url.OmitHost
       url.ForceQuery url.RawQuery url.Fragment url.RawFragment].
  cbv zeta. destruct (negb _ && _);
    cbn [url.Scheme url.Opaque url.User url.Host url.Path url.RawPath url.OmitHost
         url.ForceQuery url.RawQuery url.Fragment url.RawFragment];
    by case_bool_decide.
Qed.

Lemma canonURL_fields U :
  canonURL U
  = url.mkURL (strings.ToLower (url.Scheme U)) (url.Opaque U) (url.User U)
      (canonHost (strings.ToLower (url.Scheme U)) (strings.ToLower (url.Host U)))
      (canonPath (url.Path U)) (url.RawPath U) (url.OmitHost U) (url.ForceQuery U)
      (canonQuery (url.RawQuery U)) [] (url.RawFragment U).
Proof.
  destruct U as [sch op us h p rp oh fq q fr rfr].
  unfold canonURL, url.with_Scheme, url.with_Host, url.with_Fragment.
  cbn [url.Scheme url.Opaque url.User url.Host url.Path url.RawPath url.OmitHost
       url.ForceQuery url.RawQuery url.Fragment url.RawFragment].
  by rewrite dropDefaultPort_fields, sortQuery_fields, trimSlash_rootPath_fields.
Qed.

(** ** The host *)

Lemma plain_name_lower name port :
  forallb plain_byte name = true → name ≠ [] → plain_host (name ++ port) →
  strings.ToLower (name ++ port) = name ++ port →
  strings.ToLower name = name.
Proof.
  intros Hn Hne Hh Hl.
  rewrite ToLower_ascii in Hl by by apply plain_host_ascii.
  rewrite ToLower_ascii by by apply plain_host_ascii, plain_host_name.
  rewrite fmap_app in Hl. apply app_inj_1 in Hl as [Hl _]; [done |].
  by rewrite length_fmap.
Qed.

Lemma canonHost_name sch name :
  forallb plain_byte name = true → canonHost sch name = name.
Proof.
  intros Hn. unfold canonHost. rewrite splitHostPort_name by done.
  by destruct (_ || _).
Qed.

Lemma canonHost_port sch name ds :
  forallb plain_byte name = true → forallb strconv.isDigit ds = true →
  canonHost sch (name ++ ":"%char :: ds)
  = if bool_decide (sch = str "http") && bool_decide (ds = str "80")
       || bool_decide (sch = str "https") && bool_decide (ds = str "443")
    then name else name ++ ":"%char :: ds.
Proof. intros Hn Hd. unfold canonHost. by rewrite splitHostPort_port. Qed.

Lemma canonHost_plain sch h :
  plain_host h → strings.ToLower h = h →
  plain_host (canonHost sch h) ∧
  strings.ToLower (canonHost sch h) = canonHost sch h ∧
  canonHost sch (canonHost sch h) = canonHost sch h.
Proof.
  intros Hh Hl. pose proof Hh as (name & port & -> & Hne & Hn & Hp).
  destruct Hp as [->|(ds & -> & Hd)].
  - rewrite app_nil_r in *. by rewrite !canonHost_name.
  - rewrite !(canonHost_port sch name ds) by done.
    destruct (_ || _) eqn:Hc.
    + split_and!.
      * by apply plain_host_name.
      * by apply (plain_name_lower name (":"%char :: ds)).
      * by apply canonHost_name.
    + split_and!; [done.. |]. by rewrite canonHost_port, Hc.
Qed.

(** ** The path *)

Lemma canonPath_root : canonPath (str "/") = str "/".
Proof. reflexivity. Qed.

Lemma canonPath_kept p :
  p ≠ [] → last p ≠ Some "/"%char → canonPath p = p.
Proof.
  intros Hne Hl. unfold canonPath. change (str "/") with ["/"%char].
  rewrite HasSuffix_byte, (bool_decide_eq_false_2 (last p = _)) by done.
  rewrite andb_false_r. by rewrite bool_decide_eq_false_2.
Qed.

Lemma canonPath_cases p :
  canonPath p = str "/" ∨
  (canonPath p ≠ [] ∧ last (canonPath p) ≠ Some "/"%char ∧
   canonPath p `prefix_of` p).
Proof.
  unfold canonPath. change (str "/") with ["/"%char]. rewrite HasSuffix_byte.
  destruct (negb _ && _) eqn:Hc.
  - destruct (decide (strings.TrimRight p ["/"%char] = [])) as [He|He].
    + rewrite bool_decide_eq_true_2 by done. by left.
    + rewrite bool_decide_eq_false_2 by done. right.
      split_and!; [done | apply TrimRight_byte_last | apply TrimRight_byte_prefix].
  - destruct (decide (p = [])) as [He|He].
    + rewrite bool_decide_eq_true_2 by done. by left.
    + rewrite bool_decide_eq_false_2 by done.
      apply andb_false_iff in Hc as [Hc|Hc].
      * left. by apply negb_false_iff, bool_decide_eq_true in Hc.
      * right. by apply bool_decide_eq_false in Hc.
Qed.

Lemma canonPath_idemp p : canonPath (canonPath p) = canonPath p.
Proof.
  destruct (canonPath_cases p) as [->|(Hne & Hl & _)]; [done |].
  by apply canonPath_kept.
Qed.

Lemma canonPath_head p :
  p = [] ∨ head p = Some "/"%char → head (canonPath p) = Some "/"%char.
Proof.
  intros Hp. destruct (canonPath_cases p) as [->|(Hne & _ & [k Hk])]; [done |].
  destruct (canonPath p) as [|c p']; [done |].
  destruct Hp as [Hp|Hp]; rewrite Hk in Hp; [done |]. by injection Hp as ->.
Qed.

(** ** The query *)

Lemma canonQuery_idemp q : canonQuery (canonQuery q) = canonQuery q.
Proof.
  unfold canonQuery. case_bool_decide as Hq; cbn [negb].
  - by rewrite Hq.
  - case_bool_decide; cbn [negb]; [done | apply rebuildQuery_idemp].
Qed.

Lemma canonQuery_safe q : forallb url_safe_byte (canonQuery q) = true.
Proof.
  unfold canonQuery. case_bool_decide as Hq; cbn [negb].
  - by rewrite Hq.
  - apply rebuildQuery_safe.
Qed.

(** ** The escaped path *)

Lemma escape_path_head p :
  head p = Some "/"%char → head (url.escape p url.encodePath) = Some "/"%char.
Proof. destruct p as [|c p']; [done |]. intros [= ->]. by rewrite escape_cons. Qed.

Lemma EscapedPath_cases U :
  head (url.Path U) = Some "/"%char →
  url.RawPath U = [] ∨ head (url.RawPath U) = Some "/"%char →
  let ep := url.EscapedPath U in
  head ep = Some "/"%char ∧ forallb url_safe_byte ep = true ∧
  url.unescape ep url.encodePath = Some (url.Path U) ∧
  (ep = url.escape (url.Path U) url.encodePath ∨
   url.validEncoded ep url.encodePath = true).
Proof.
  intros Hp Hrp. unfold url.EscapedPath.
  destruct (_ && _ && _) eqn:Hc.
  - apply andb_prop in Hc as [[Hne Hv]%andb_prop Hu].
    apply negb_true_iff, bool_decide_eq_false in Hne.
    apply bool_decide_eq_true in Hu.
    split_and!; [by destruct Hrp | by apply validEncoded_path_safe | done | by right].
  - rewrite bool_decide_eq_false_2.
    2:{ intros Heq. by rewrite Heq in Hp. }
    split_and!;
      [by apply escape_path_head | apply escape_path_safe
      | apply unescape_escape_path | by left].
Qed.

Lemma EscapedPath_reparsed sch user h p ep fq q :
  head p = Some "/"%char → ep ≠ [] →
  url.unescape ep url.encodePath = Some p →
  ep = url.escape p url.encodePath ∨ url.validEncoded ep url.encodePath = true →
  url.EscapedPath
    (url.mkURL sch [] user h p
       (if bool_decide (ep = url.escape p url.encodePath) then [] else ep)
       false fq q [] [])
  = ep.
Proof.
  intros Hp Hne Hun Hep. unfold url.EscapedPath.
  cbn [url.Path url.RawPath].
  assert (Hstar : p ≠ str "*") by (intros Heq; by rewrite Heq in Hp).
  destruct (decide (ep = url.escape p url.encodePath)) as [He|He].
  - rewrite (bool_decide_eq_true_2 (ep = _)) by done.
    rewrite (bool_decide_eq_true_2 ([] = [])) by done. cbn [negb andb].
    by rewrite bool_decide_eq_false_2.
  - rewrite (bool_decide_eq_false_2 (ep = url.escape _ _)) by done.
    destruct Hep as [Hep|Hv]; [done |].
    by rewrite Hv, (bool_decide_eq_false_2 (ep = [])), bool_decide_eq_true_2.
Qed.

(** ** Printing *)

Lemma URL_String_printed sch user h p rp fq q rfr :
  plain_host h →
  head (url.EscapedPath (url.mkURL sch [] user h p rp false fq q [] rfr))
  = Some "/"%char →
  url.URL_String (url.mkURL sch [] user h p rp false fq q [] rfr)
  = printed sch user h
      (url.EscapedPath (url.mkURL sch [] user h p rp false fq q [] rfr)) fq q.
Proof.
  intros Hh Hep. unfold url.URL_String, printed, printedUser.
  set (ep := url.EscapedPath _) in *.
  destruct (plain_host_head h Hh) as (c & h' & Hhc & Hc).
  assert (Hp1 : strings.HasPrefix ep (str "/") = true).
  { change (str "/") with ["/"%char]. by rewrite HasPrefix_byte, Hep. }
  cbv beta iota delta
    [url.Scheme url.Opaque url.User url.Host url.Path url.RawPath url.OmitHost
     url.ForceQuery url.RawQuery url.Fragment url.RawFragment].
  rewrite !(bool_decide_eq_true_2 ([] = [])) by done.
  rewrite !(bool_decide_eq_false_2 (h = [])) by by rewrite Hhc.
  rewrite escape_hostport by by apply plain_host_bytes.
  cbn [negb andb orb]. rewrite !orb_true_r, !Hp1. cbn [negb andb orb].
  rewrite !andb_false_r. cbn [andb].
  rewrite !(bool_decide_eq_false_2 (_ ++ h = [])).
  2:{ rewrite Hhc. intros Heq. by apply app_eq_nil in Heq as [_ ?]. }
  cbn [andb]. destruct user as [ui|], (fq || _); rewrite <- ?app_assoc;
    rewrite ?app_nil_r; try done.
Qed.

End Canonical.

(** * Canonicalisation is idempotent on URLs with a plain host (C8) *)
Section Idempotence.
Context `{GoLib}.

Implicit Types (s t p q h ep sch : gostring) (c d : ascii) (u U V : url.URL).

(** A URL in canonical form is printed to a string that canonicalises to
    itself. *)
Lemma canonical_reparse sch user h p rp fq q rfr :
  sch = [] ∨ lower_scheme sch = true →
  userinfo_wf user →
  plain_host h → strings.ToLower h = h → canonHost sch h = h →
  head p = Some "/"%char → canonPath p = p →
  rp = [] ∨ head rp = Some "/"%char →
  forallb url_safe_byte q = true → canonQuery q = q → (fq = true → q = []) →
  Deduplicator.CanonicalizeURL
    (url.URL_String (url.mkURL sch [] user h p rp false fq q [] rfr))
  = url.URL_String (url.mkURL sch [] user h p rp false fq q [] rfr).
Proof.
  intros Hsch Hwf Hh Hhl Hhc Hp Hpc Hrp Hq Hqc Hfq.
  destruct (EscapedPath_cases (url.mkURL sch [] user h p rp false fq q [] rfr) Hp Hrp)
    as (Hep & Hsafe & Hun & Hor).
  cbn [url.Path] in Hun, Hor.
  rewrite (URL_String_printed sch user h p rp fq q rfr Hh Hep).
  set (ep := url.EscapedPath _) in *.
  assert (Hne : ep ≠ []) by (intros Heq; by rewrite Heq in Hep).
  rewrite CanonicalizeURL_unfold, (Parse_printed sch user h ep p fq q) by done.
  rewrite canonURL_fields.
  cbn [url.Scheme url.Opaque url.User url.Host url.Path url.RawPath url.OmitHost
       url.ForceQuery url.RawQuery url.Fragment url.RawFragment].
  rewrite (ToLower_scheme sch), Hhl, Hhc, Hpc, Hqc by done.
  pose proof (EscapedPath_reparsed sch user h p ep fq q Hp Hne Hun Hor) as Hep2.
  rewrite URL_String_printed; rewrite ?Hep2; done.
Qed.

(** C8, amended. CanonicalizeURL is idempotent on every string that url.Parse
    rejects (it is returned unchanged) and on every string that parses to a
    URL whose host is plain: a non-empty name of letters, digits and "-._~",
    optionally followed by ":" and a decimal port. *)
Theorem canonicalize_idempotent_plain (u : gostring) :
  (∀ U, url.Parse u = Some U → plain_host (url.Host U)) →
  Deduplicator.CanonicalizeURL (Deduplicator.CanonicalizeURL u)
  = Deduplicator.CanonicalizeURL u.
Proof.
  intros Hu. rewrite (CanonicalizeURL_unfold u).
  destruct (url.Parse u) as [U|] eqn:HP.
  - pose proof (Hu U eq_refl) as Hh.
    assert (Hne : url.Host U ≠ []).
    { destruct (plain_host_head _ Hh) as (c & h' & Hhc & _). by rewrite Hhc. }
    destruct (Parse_host_facts u U HP Hne)
      as (Hop & Hoh & Hsch & Hwf & Hp & Hrp & Hfq).
    rewrite canonURL_fields, Hop, Hoh, (ToLower_scheme _ Hsch).
    assert (Hlow : plain_host (strings.ToLower (url.Host U)) ∧
                   strings.ToLower (strings.ToLower (url.Host U))
                   = strings.ToLower (url.Host U)).
    { split.
      - rewrite ToLower_ascii by by apply plain_host_ascii.
        by apply plain_host_lower.
      - by apply ToLower_idemp_ascii, plain_host_ascii. }
    destruct Hlow as [Hhl Hhi].
    destruct (canonHost_plain (url.Scheme U) _ Hhl Hhi) as (Hc1 & Hc2 & Hc3).
    apply canonical_reparse; try done.
    + by apply canonPath_head.
    + apply canonPath_idemp.
    + apply canonQuery_safe.
    + apply canonQuery_idemp.
    + intros Hf. by rewrite (Hfq Hf).
  - by rewrite CanonicalizeURL_unfold, HP.
Qed.

End Idempotence.

Lemma canonicalize_idempotent_plain_witness :
  @Deduplicator.CanonicalizeURL plainLib
    (@Deduplicator.CanonicalizeURL plainLib
       (str "https://me:pw@Example.COM:443/a/b/?b=2&a=1#top"))
  = @Deduplicator.CanonicalizeURL plainLib
      (str "https://me:pw@Example.COM:443/a/b/?b=2&a=1#top").
Proof.
  apply (@canonicalize_idempotent_plain plainLib).
  intros U HU. vm_compute in HU. injection HU as <-.
  exists (str "Example.COM"), (str ":443").
  split_and!; [reflexivity | discriminate | reflexivity |].
  right. exists (str "443"). split; reflexivity.
Defined.

(** C8 as stated fails: url.Parse accepts the host "a:80:80", of which
    Hostname and Port split off the last ":80" only, so that each pass of
    CanonicalizeURL drops one default port. *)
Lemma canonicalize_idempotent_counterexample :
  ¬ canonicalize_idempotent_as_specified.
Proof.
  intros Hc. specialize (Hc plainLib (str "http://a:80:80/")).
  vm_compute in Hc. discriminate Hc.
Qed.

Example canonicalize_twice :
  @Deduplicator.CanonicalizeURL plainLib (str "http://a:80:80/") = str "http://a:80/" ∧
  @Deduplicator.CanonicalizeURL plainLib (str "http://a:80/") = str "http://a/".
Proof. split; vm_compute; reflexivity. Qed.

(** Outside plain hosts a second pass can change the result as well: a
    bracketed host loses its brackets with the default port, and a path that
    unescapes to a leading "//" is printed as an authority. *)
Example canonicalize_twice_bracketed :
  @Deduplicator.CanonicalizeURL plainLib (str "http://[::80]:80/") = str "http://::80/" ∧
  @Deduplicator.CanonicalizeURL plainLib (str "http://::80/") = str "http://:/".
Proof. split; vm_compute; reflexivity. Qed.

Example canonicalize_twice_hostless :
  @Deduplicator.CanonicalizeURL plainLib (str "%2F/foo/") = str "//foo" ∧
  @Deduplicator.CanonicalizeURL plainLib (str "//foo") = str "//foo/".
Proof. split; vm_compute; reflexivity. Qed.

(** * Canonicalisation of absolute URLs *)
Section AbsoluteURLs.
Context `{GoLib}.

Implicit Types (s t p q h ep sch : gostring) (c d : ascii) (u U V : url.URL).

Lemma valid_scheme_inv sch :
  valid_scheme sch = true →
  sch ≠ [] ∧ forallb scheme_byte sch = true ∧
  ∃ c, head sch = Some c ∧ url.isLetter c = true.
Proof.
  unfold valid_scheme. destruct sch as [|c sch]; [done |].
  intros [Hl Hs]%andb_true_iff. split; [done |]. split; [done |]. by exists c.
Qed.

Lemma getScheme_valid sch rest :
  valid_scheme sch = true →
  url.getScheme (sch ++ ":"%char :: rest) = Some (sch, rest).
Proof.
  intros (Hne & Hs & c & Hc & Hl)%valid_scheme_inv.
  apply (getScheme_loop_scheme sch [] rest); [done | | done].
  intros _ x Hx. rewrite Hc in Hx. by injection Hx as <-.
Qed.

Lemma valid_scheme_safe sch : valid_scheme sch = true → forallb url_safe_byte sch = true.
Proof.
  intros (_ & Hs & _)%valid_scheme_inv. eapply forallb_weaken; [|exact Hs].
  apply scheme_byte_safe.
Qed.

Lemma valid_scheme_ascii sch : valid_scheme sch = true → strings.isASCII sch = true.
Proof.
  intros (_ & Hs & _)%valid_scheme_inv. eapply forallb_weaken; [|exact Hs].
  apply scheme_byte_ascii.
Qed.

Lemma valid_scheme_lower sch :
  valid_scheme sch = true → valid_scheme (strings.ToLower sch) = true.
Proof.
  intros Hv. rewrite ToLower_ascii by by apply valid_scheme_ascii.
  apply valid_scheme_inv in Hv as (Hne & Hs & c & Hc & Hl).
  destruct sch as [|c0 sch]; [done |]. injection Hc as ->.
  cbn [fmap list_fmap valid_scheme]. rewrite isLetter_lower by done. cbn [andb].
  change (forallb scheme_byte (strings.lowerByte <$> c :: sch) = true).
  eapply forallb_fmap_weaken; [|exact Hs]. apply scheme_byte_lower.
Qed.

Lemma splitAuthority_written s ep :
  "/"%char ∉ s → ep = [] ∨ head ep = Some "/"%char →
  url.splitAuthority ("/"%char :: "/"%char :: s ++ ep) = (s, ep).
Proof.
  intros Hs [->|Hep]; [|by apply splitAuthority_printed].
  rewrite app_nil_r. unfold url.splitAuthority. change (str "/") with ["/"%char].
  cbv zeta. cbn [drop]. rewrite !drop_0. by rewrite Index_byte_None.
Qed.

Lemma absoluteURL_split sch h ep q :
  absoluteURL sch h ep q
  = sch ++ ":"%char ::
      ("/"%char :: "/"%char :: h ++ ep) ++
      (if negb (bool_decide (q = [])) then str "?" ++ q else []).
Proof.
  unfold absoluteURL. cbv [str list_ascii_of_string]; cbn [app].
  by rewrite <- (app_assoc h ep).
Qed.

Lemma parse_absolute sch h ep p q :
  valid_scheme sch = true →
  plain_host h →
  ep = [] ∨ head ep = Some "/"%char →
  forallb url_safe_byte ep = true →
  url.unescape ep url.encodePath = Some p →
  forallb url_safe_byte q = true →
  url.parse (absoluteURL sch h ep q)
  = Some (url.mkURL (strings.ToLower sch) [] None h p
            (if bool_decide (ep = url.escape p url.encodePath) then [] else ep)
            false false q [] []).
Proof.
  intros Hsch Hh Hep Hsafe Hun Hq.
  assert (Hno : "/"%char ∉ h) by by apply plain_host_no_slash.
  assert (HR : forallb url_safe_byte ("/"%char :: "/"%char :: h ++ ep) = true).
  { cbn [forallb]. by rewrite forallb_app, plain_host_safe, Hsafe. }
  assert (Htail : url.stringContainsCTLByte
            (if negb (bool_decide (q = [])) then str "?" ++ q else []) = false).
  { destruct (negb _); [|done]. cbv [str list_ascii_of_string]; cbn [app].
    by apply (safe_no_CTL q) in Hq. }
  assert (Hp1 : strings.HasPrefix ("/"%char :: "/"%char :: h ++ ep) (str "/") = true).
  { cbv [str list_ascii_of_string]. by rewrite HasPrefix_cons, HasPrefix_nil. }
  assert (Hp2 : strings.HasPrefix ("/"%char :: "/"%char :: h ++ ep) (str "//") = true).
  { cbv [str list_ascii_of_string]. by rewrite !HasPrefix_cons, HasPrefix_nil. }
  assert (Hp3 : strings.HasPrefix ("/"%char :: "/"%char :: h ++ ep) (str "///") = false).
  { destruct (plain_host_head h Hh) as (c & h' & -> & Hc).
    cbv [str list_ascii_of_string]; cbn [app].
    rewrite !HasPrefix_cons, HasPrefix_nil.
    rewrite (bool_decide_eq_false_2 (c = "/"%char)); [done |]. by intros ->. }
  assert (Hctl : url.stringContainsCTLByte
            (sch ++ ":"%char :: ("/"%char :: "/"%char :: h ++ ep) ++
             (if negb (bool_decide (q = [])) then str "?" ++ q else []))
          = false).
  { rewrite CTL_app, (safe_no_CTL _ (valid_scheme_safe sch Hsch)). cbn [orb].
    change (":"%char :: ?s) with ([":"%char] ++ s).
    by rewrite !CTL_app, Htail, (safe_no_CTL _ HR). }
  unfold url.parse. rewrite absoluteURL_split, Hctl.
  rewrite bool_decide_eq_false_2.
  2:{ intros Heq. apply (f_equal (λ s, bool_decide ("/"%char ∈ s))) in Heq.
      rewrite bool_decide_eq_true_2 in Heq; [done |].
      rewrite elem_of_app. right. right. rewrite elem_of_app. left. apply list_elem_of_here. }
  rewrite getScheme_valid by done. cbn [mbind option_bind].
  pose proof (splitQuery_printed _ false q HR Hq (λ Hf, False_ind _ (diff_false_true Hf)))
    as Hsq.
  cbn [orb] in Hsq. rewrite Hsq.
  rewrite Hp1, Hp2, Hp3. cbn [negb andb]. rewrite orb_true_r. cbn [andb].
  rewrite splitAuthority_written by done.
  rewrite parseAuthority_plain by done. cbn [mbind option_bind].
  unfold url.setPath. rewrite Hun. done.
Qed.

Lemma absoluteURL_no_hash sch h ep q :
  valid_scheme sch = true → plain_host h →
  forallb url_safe_byte ep = true → forallb url_safe_byte q = true →
  "#"%char ∉ absoluteURL sch h ep q.
Proof.
  intros Hsch Hh Hsafe Hq. rewrite absoluteURL_split.
  rewrite not_elem_of_app, not_elem_of_cons, not_elem_of_app. split_and!.
  - by apply safe_no_hash, valid_scheme_safe.
  - done.
  - apply safe_no_hash. cbn [forallb]. by rewrite forallb_app, plain_host_safe, Hsafe.
  - destruct (negb _); [|apply not_elem_of_nil].
    cbv [str list_ascii_of_string]; cbn [app].
    apply not_elem_of_cons. split; [done | by apply safe_no_hash].
Qed.

Lemma Parse_absolute sch h ep p q :
  valid_scheme sch = true →
  plain_host h →
  ep = [] ∨ head ep = Some "/"%char →
  forallb url_safe_byte ep = true →
  url.unescape ep url.encodePath = Some p →
  forallb url_safe_byte q = true →
  url.Parse (absoluteURL sch h ep q)
  = Some (url.mkURL (strings.ToLower sch) [] None h p
            (if bool_decide (ep = url.escape p url.encodePath) then [] else ep)
            false false q [] []).
Proof.
  intros Hsch Hh Hep Hsafe Hun Hq.
  unfold url.Parse. change (str "#") with ["#"%char].
  rewrite Cut_byte_None by by apply absoluteURL_no_hash.
  by rewrite (parse_absolute sch h ep p q).
Qed.

(** The canonical form of an absolute URL with a plain host. *)
Lemma Canonicalize_absolute sch h ep p q :
  valid_scheme sch = true →
  plain_host h →
  ep = [] ∨ head ep = Some "/"%char →
  forallb url_safe_byte ep = true →
  url.unescape ep url.encodePath = Some p →
  forallb url_safe_byte q = true →
  Deduplicator.CanonicalizeURL (absoluteURL sch h ep q)
  = url.URL_String
      (url.mkURL (strings.ToLower sch) [] None
         (canonHost (strings.ToLower sch) (strings.ToLower h)) (canonPath p)
         (if bool_decide (ep = url.escape p url.encodePath) then [] else ep)
         false false (canonQuery q) [] []).
Proof.
  intros Hsch Hh Hep Hsafe Hun Hq.
  rewrite CanonicalizeURL_unfold, (Parse_absolute sch h ep p q) by done.
  rewrite canonURL_fields.
  cbn [url.Scheme url.Opaque url.User url.Host url.Path url.RawPath url.OmitHost
       url.ForceQuery url.RawQuery url.Fragment url.RawFragment].
  by rewrite ToLower_idemp_ascii by by apply valid_scheme_ascii.
Qed.

End AbsoluteURLs.

(** * Canonicalisation: the URLs that CanonicalizeURL identifies *)
Section Equivalences.
Context `{GoLib}.

Implicit Types (s t p q h ep sch : gostring) (c d : ascii) (u U V : url.URL).

Ltac each_byte c := destruct c as [[] [] [] [] [] [] [] []].

(** ** The fragment *)

Lemma URL_String_RawFragment sch op us h p rp oh fq q rfr rfr' :
  url.URL_String (url.mkURL sch op us h p rp oh fq q [] rfr)
  = url.URL_String (url.mkURL sch op us h p rp oh fq q [] rfr').
Proof.
  unfold url.URL_String.
  change (url.EscapedPath (url.mkURL sch op us h p rp oh fq q [] rfr))
    with (url.EscapedPath (url.mkURL sch op us h p rp oh fq q [] rfr')).
  cbv beta iota delta
    [url.Scheme url.Opaque url.User url.Host url.Path url.RawPath url.OmitHost
     url.ForceQuery url.RawQuery url.Fragment url.RawFragment].
  rewrite !(bool_decide_eq_true_2 ([] = [])) by done. reflexivity.
Qed.

(** X7. The fragment is ignored: a URL and the same URL followed by "#" and
    any fragment have one canonical form. *)
Theorem fragment_is_ignored (u frag : gostring) :
  "#"%char ∉ u →
  is_Some (url.Parse (u ++ str "#" ++ frag)) →
  Deduplicator.CanonicalizeURL (u ++ str "#" ++ frag)
  = Deduplicator.CanonicalizeURL u.
Proof.
  intros Hu Hp. rewrite !CanonicalizeURL_unfold. revert Hp.
  unfold url.Parse. change (str "#") with ["#"%char]. cbn [app].
  rewrite Cut_byte_app, Cut_byte_None by done.
  destruct (url.parse u) as [U0|]; [|by intros [? ?]]. cbn [mbind option_bind].
  rewrite (bool_decide_eq_true_2 ([] = [])) by done.
  case_bool_decide as Hf; [done |].
  destruct (url.setFragment U0 frag) as [U1|] eqn:Hset; [|by intros [? ?]].
  intros _. apply setFragment_Some in Hset as (fr & raw & ->).
  rewrite !canonURL_fields.
  cbn [url.Scheme url.Opaque url.User url.Host url.Path url.RawPath url.OmitHost
       url.ForceQuery url.RawQuery url.Fragment url.RawFragment].
  apply URL_String_RawFragment.
Qed.

(** ** The case of the scheme and of the host *)

Lemma written_path_unescape ep :
  written_path ep →
  ∃ p, url.unescape ep url.encodePath = Some p ∧
       (ep = [] ∨ head ep = Some "/"%char) ∧ forallb url_safe_byte ep = true.
Proof. intros (Hh & Hs & [p Hp]). by exists p. Qed.

Lemma plain_host_ToLower h :
  plain_host h → plain_host (strings.ToLower h) ∧
  strings.ToLower (strings.ToLower h) = strings.ToLower h.
Proof.
  intros Hh. split.
  - rewrite ToLower_ascii by by apply plain_host_ascii. by apply plain_host_lower.
  - by apply ToLower_idemp_ascii, plain_host_ascii.
Qed.

(** X8. The case of the scheme and of the host is ignored: an absolute URL
    with a plain host and the same URL with scheme and host in lower case
    have one canonical form. *)
Theorem scheme_and_host_case_is_ignored (sch h path q : gostring) :
  valid_scheme sch = true → plain_host h → written_path path →
  forallb url_safe_byte q = true →
  Deduplicator.CanonicalizeURL (absoluteURL sch h path q)
  = Deduplicator.CanonicalizeURL
      (absoluteURL (strings.ToLower sch) (strings.ToLower h) path q).
Proof.
  intros Hsch Hh (p & Hun & Hhead & Hsafe)%written_path_unescape Hq.
  destruct (plain_host_ToLower h Hh) as [Hhl Hhi].
  rewrite (Canonicalize_absolute sch h path p q) by done.
  rewrite (Canonicalize_absolute (strings.ToLower sch) (strings.ToLower h) path p q)
    by (done || by apply valid_scheme_lower).
  by rewrite Hhi, (ToLower_idemp_ascii sch) by by apply valid_scheme_ascii.
Qed.

(** ** The default port *)

Lemma plain_name_port name port :
  name ≠ [] → forallb plain_byte name = true → forallb strconv.isDigit port = true →
  plain_host (name ++ ":"%char :: port).
Proof. intros Hne Hn Hp. exists name, (":"%char :: port). split_and!; try done. right. by exists port. Qed.

Lemma digits_lower port :
  forallb strconv.isDigit port = true → strings.lowerByte <$> port = port.
Proof.
  induction port as [|c port IH]; [done |]. cbn [forallb].
  intros [Hc Hp]%andb_true_iff. by rewrite fmap_cons, digit_lower, IH.
Qed.

Lemma ToLower_name_port name port :
  forallb plain_byte name = true → forallb strconv.isDigit port = true →
  strings.ToLower (name ++ ":"%char :: port)
  = strings.ToLower name ++ ":"%char :: port.
Proof.
  intros Hn Hp.
  assert (Ha : strings.isASCII name = true).
  { eapply forallb_weaken; [|exact Hn]. intros c Hc.
    by apply hostport_byte_ascii, plain_hostport. }
  assert (Hb : strings.isASCII (name ++ ":"%char :: port) = true).
  { unfold strings.isASCII in *. rewrite forallb_app, Ha. cbn [forallb andb].
    change ((byte_val ":"%char <? 128)%N) with true. cbn [andb].
    eapply forallb_weaken; [|exact Hp].
    intros c Hc. by apply hostport_byte_ascii, plain_hostport, digit_plain. }
  rewrite !ToLower_ascii by done.
  rewrite fmap_app, fmap_cons, (digits_lower port) by done. reflexivity.
Qed.

Lemma plain_name_ToLower name :
  forallb plain_byte name = true →
  forallb plain_byte (strings.ToLower name) = true.
Proof.
  intros Hn. rewrite ToLower_ascii.
  - eapply forallb_fmap_weaken; [|exact Hn]. apply plain_byte_lower.
  - eapply forallb_weaken; [|exact Hn]. intros c Hc.
    by apply hostport_byte_ascii, plain_hostport.
Qed.

(** X9. The default port is dropped after a plain host name: for a host
    name of letters, digits and "-._~", "http" with port 80 and "https"
    with port 443, the scheme in any case, give the canonical form of the
    same URL without the port.  (A bracketed address is not covered: it
    loses its brackets together with the port.) *)
Theorem default_port_is_dropped (sch name port path q : gostring) :
  valid_scheme sch = true →
  strings.ToLower sch = str "http" ∧ port = str "80" ∨
  strings.ToLower sch = str "https" ∧ port = str "443" →
  name ≠ [] → forallb plain_byte name = true →
  written_path path → forallb url_safe_byte q = true →
  Deduplicator.CanonicalizeURL (absoluteURL sch (name ++ str ":" ++ port) path q)
  = Deduplicator.CanonicalizeURL (absoluteURL sch name path q).
Proof.
  intros Hsch Hdef Hne Hn (p & Hun & Hhead & Hsafe)%written_path_unescape Hq.
  assert (Hport : forallb strconv.isDigit port = true).
  { by destruct Hdef as [[_ ->]|[_ ->]]. }
  change (str ":" ++ port) with (":"%char :: port).
  rewrite (Canonicalize_absolute sch (name ++ ":"%char :: port) path p q)
    by (done || by apply plain_name_port).
  rewrite (Canonicalize_absolute sch name path p q)
    by (done || by apply plain_host_name).
  rewrite ToLower_name_port by done.
  rewrite canonHost_port by (done || by apply plain_name_ToLower).
  rewrite canonHost_name by by apply plain_name_ToLower.
  destruct Hdef as [[-> ->]|[-> ->]]; done.
Qed.

End Equivalences.

Lemma fragment_is_ignored_witness :
  @Deduplicator.CanonicalizeURL plainLib (str "http://h/a" ++ str "#" ++ str "top")
  = @Deduplicator.CanonicalizeURL plainLib (str "http://h/a").
Proof.
  apply (@fragment_is_ignored plainLib (str "http://h/a") (str "top")).
  - apply (bool_decide_eq_false_1 ("#"%char ∈ str "http://h/a")). reflexivity.
  - vm_compute. eexists. reflexivity.
Defined.

Lemma scheme_and_host_case_is_ignored_witness :
  @Deduplicator.CanonicalizeURL plainLib
    (absoluteURL (str "HTTPS") (str "Example.COM") (str "/Path") (str "b=2&a=1"))
  = @Deduplicator.CanonicalizeURL plainLib
      (absoluteURL (@strings.ToLower plainLib (str "HTTPS"))
         (@strings.ToLower plainLib (str "Example.COM")) (str "/Path") (str "b=2&a=1")).
Proof.
  apply (@scheme_and_host_case_is_ignored plainLib).
  - reflexivity.
  - exists (str "Example.COM"), []. split_and!; [reflexivity | discriminate | reflexivity |].
    by left.
  - split_and!; [by right | reflexivity | vm_compute; by eexists].
  - reflexivity.
Defined.

Lemma default_port_is_dropped_witness :
  @Deduplicator.CanonicalizeURL plainLib
    (absoluteURL (str "HTTP") (str "example.com" ++ str ":" ++ str "80") (str "/a") [])
  = @Deduplicator.CanonicalizeURL plainLib
      (absoluteURL (str "HTTP") (str "example.com") (str "/a") []).
Proof.
  apply (@default_port_is_dropped plainLib).
  - reflexivity.
  - left. split; reflexivity.
  - discriminate.
  - reflexivity.
  - split_and!; [by right | reflexivity | vm_compute; by eexists].
  - reflexivity.
Defined.


(** * Canonicalisation: the trailing slash and the order of the query *)
Section Equivalences2.
Context `{GoLib}.

Implicit Types (s t p q h ep sch k v : gostring) (c d : ascii) (m : url.Values).

Ltac each_byte c := destruct c as [[] [] [] [] [] [] [] []].

(** ** The trailing slash *)

Lemma TrimRight_snoc s c : strings.TrimRight (s ++ [c]) [c] = strings.TrimRight s [c].
Proof.
  induction s as [|x s IH]; cbn [app strings.TrimRight].
  - rewrite bool_decide_eq_true_2; [done | apply list_elem_of_here].
  - by rewrite IH.
Qed.

Lemma TrimRight_id s c : last s ≠ Some c → strings.TrimRight s [c] = s.
Proof.
  induction s as [|x s IH]; [done |]. intros Hl. cbn [strings.TrimRight].
  destruct s as [|y s].
  - cbn [strings.TrimRight]. rewrite bool_decide_eq_false_2; [done |].
    intros ->%list_elem_of_singleton. by apply Hl.
  - rewrite IH; [done |]. by rewrite last_cons_cons in Hl.
Qed.

Lemma canonPath_TrimRight p :
  canonPath p
  = if bool_decide (strings.TrimRight p (str "/") = []) then str "/"
    else strings.TrimRight p (str "/").
Proof.
  unfold canonPath. change (str "/") with ["/"%char]. rewrite HasSuffix_byte.
  destruct (decide (last p = Some "/"%char)) as [Hl|Hl].
  - rewrite (bool_decide_eq_true_2 (last p = _)) by done. rewrite andb_true_r.
    destruct (decide (p = ["/"%char])) as [->|Hp].
    + reflexivity.
    + by rewrite (bool_decide_eq_false_2 (p = _)) by done.
  - rewrite (bool_decide_eq_false_2 (last p = _)) by done. rewrite andb_false_r.
    by rewrite TrimRight_id.
Qed.

Lemma canonPath_snoc p : canonPath (p ++ str "/") = canonPath p.
Proof.
  rewrite !canonPath_TrimRight. change (str "/") with ["/"%char].
  by rewrite TrimRight_snoc.
Qed.

Lemma plain_path_escape_byte c :
  plain_path_byte c = true → url.escape_byte url.encodePath c = [c].
Proof. each_byte c; intros Hc; first [discriminate Hc | reflexivity]. Qed.

Lemma plain_path_unescape_ok c t :
  plain_path_byte c = true →
  url.unescape_ok url.encodePath (c :: t) = url.unescape_ok url.encodePath t.
Proof. each_byte c; intros Hc; first [discriminate Hc | reflexivity]. Qed.

Lemma plain_path_unescape_bytes c t :
  plain_path_byte c = true →
  url.unescape_bytes url.encodePath (c :: t) = c :: url.unescape_bytes url.encodePath t.
Proof. each_byte c; intros Hc; first [discriminate Hc | reflexivity]. Qed.

Lemma plain_path_byte_safe c : plain_path_byte c = true → url_safe_byte c = true.
Proof. each_byte c; intros Hc; first [discriminate Hc | reflexivity]. Qed.

Lemma plain_path_escape p :
  forallb plain_path_byte p = true → url.escape p url.encodePath = p.
Proof.
  induction p as [|c p IH]; [done |]. cbn [forallb]. intros [Hc Hp]%andb_true_iff.
  by rewrite escape_cons, plain_path_escape_byte, IH.
Qed.

Lemma plain_path_unescape p :
  forallb plain_path_byte p = true → url.unescape p url.encodePath = Some p.
Proof.
  intros Hp. unfold url.unescape.
  assert (url.unescape_ok url.encodePath p = true ∧ url.unescape_bytes url.encodePath p = p)
    as [-> ->]; [|done].
  induction p as [|c p IH]; [done |]. cbn [forallb] in Hp.
  apply andb_true_iff in Hp as [Hc Hp]. destruct (IH Hp) as [IH1 IH2].
  by rewrite plain_path_unescape_ok, plain_path_unescape_bytes, IH1, IH2.
Qed.

(** X10. A trailing slash is ignored: for a path of letters, digits, "-._~"
    and "/", the URL with one more "/" at the end of the path has the same
    canonical form. *)
Theorem trailing_slash_is_ignored (sch h path q : gostring) :
  valid_scheme sch = true → plain_host h →
  path = [] ∨ head path = Some "/"%char →
  forallb plain_path_byte path = true →
  forallb url_safe_byte q = true →
  Deduplicator.CanonicalizeURL (absoluteURL sch h (path ++ str "/") q)
  = Deduplicator.CanonicalizeURL (absoluteURL sch h path q).
Proof.
  intros Hsch Hh Hhead Hp Hq.
  assert (Hp' : forallb plain_path_byte (path ++ str "/") = true)
    by by rewrite forallb_app, Hp.
  rewrite (Canonicalize_absolute sch h (path ++ str "/") (path ++ str "/") q);
    [|done | done | | | by apply plain_path_unescape | done].
  - rewrite (Canonicalize_absolute sch h path path q);
      [|done | done | done | | by apply plain_path_unescape | done].
    + by rewrite canonPath_snoc, !plain_path_escape, !bool_decide_eq_true_2.
    + eapply forallb_weaken; [|exact Hp]. apply plain_path_byte_safe.
  - right. destruct Hhead as [->|Hhead]; [done |]. by destruct path.
  - eapply forallb_weaken; [|exact Hp']. apply plain_path_byte_safe.
Qed.

(** ** The order of the query parameters *)

Lemma Strings_perm (l1 l2 : list gostring) :
  l1 ≡ₚ l2 → sort.Strings l1 = sort.Strings l2.
Proof.
  intros Hp. apply (Sorted_unique sort.str_le); [apply Strings_Sorted.. |].
  by rewrite !Strings_Permutation.
Qed.

Lemma parseQuery_pairs_step m piece (rest : list gostring) :
  url.parseQuery_pairs m (piece :: rest)
  = match decodePair piece with
    | Some (k, v) => url.parseQuery_pairs (url.Values_add m k v) rest
    | None => url.parseQuery_pairs m rest
    end.
Proof.
  cbn [url.parseQuery_pairs]. unfold decodePair.
  destruct (strings.Contains piece (str ";")); [done |].
  destruct (bool_decide (piece = [])); [done |].
  destruct (strings.Cut piece (str "=")) as [[k v] ?].
  destruct (url.QueryUnescape k) as [k'|]; [|done].
  by destruct (url.QueryUnescape v) as [v'|].
Qed.

Lemma parseQuery_pairs_decode (pairs : list gostring) : ∀ m,
  url.parseQuery_pairs m pairs = addPairs (omap decodePair pairs) m.
Proof.
  induction pairs as [|piece pairs IH]; intros m; [done |].
  rewrite parseQuery_pairs_step.
  change (omap decodePair (piece :: pairs))
    with (match decodePair piece with
          | Some y => y :: omap decodePair pairs
          | None => omap decodePair pairs
          end).
  destruct (decodePair piece) as [[k v]|]; by rewrite IH.
Qed.

Lemma Values_lookup_add m k v k' :
  url.Values_lookup (url.Values_add m k v) k'
  = if bool_decide (k = k') then url.Values_lookup m k' ++ [v]
    else url.Values_lookup m k'.
Proof.
  induction m as [|[k0 vs] m IH]; cbn [url.Values_add url.Values_lookup].
  - by destruct (bool_decide (k = k')).
  - destruct (decide (k0 = k)) as [->|Hk0].
    + rewrite (bool_decide_eq_true_2 (k = k)) by done. cbn [url.Values_lookup].
      by destruct (bool_decide (k = k')).
    + rewrite (bool_decide_eq_false_2 (k0 = k)) by done. cbn [url.Values_lookup].
      destruct (decide (k0 = k')) as [->|Hk'].
      * rewrite (bool_decide_eq_true_2 (k' = k')) by done.
        by rewrite (bool_decide_eq_false_2 (k = k')) by done.
      * by rewrite (bool_decide_eq_false_2 (k0 = k')) by done.
Qed.

Lemma addPairs_lookup (kvs : list (gostring * gostring)) : ∀ m k,
  url.Values_lookup (addPairs kvs m) k
  = url.Values_lookup m k ++ (filter (λ kv, kv.1 = k) kvs).*2.
Proof.
  unfold addPairs.
  induction kvs as [|[k0 v0] kvs IH]; intros m k; cbn [fold_left].
  - by rewrite app_nil_r.
  - rewrite IH, Values_lookup_add. cbn [fst snd]. rewrite filter_cons. cbn [fst].
    case_bool_decide as Hk; case_decide; try done.
    by rewrite fmap_cons, <- app_assoc.
Qed.

Lemma addPairs_keys (kvs : list (gostring * gostring)) : ∀ m k,
  k ∈ (addPairs kvs m).*1 ↔ k ∈ m.*1 ∨ k ∈ kvs.*1.
Proof.
  unfold addPairs.
  induction kvs as [|[k0 v0] kvs IH]; intros m k; cbn [fold_left].
  - rewrite fmap_nil. set_solver.
  - rewrite IH, Values_add_keys, fmap_cons. cbn [fst snd].
    case_bool_decide; set_solver.
Qed.

Lemma addPairs_wf (kvs : list (gostring * gostring)) : ∀ m,
  Values_wf m → Values_wf (addPairs kvs m).
Proof.
  unfold addPairs. induction kvs as [|[k0 v0] kvs IH]; intros m Hm; [done |].
  cbn [fold_left]. by apply IH, Values_add_wf.
Qed.

Lemma sortedGroups_perm (kvs1 kvs2 : list (gostring * gostring)) :
  kvs1 ≡ₚ kvs2 → sortedGroups (addPairs kvs1 []) = sortedGroups (addPairs kvs2 []).
Proof.
  intros Hp. unfold sortedGroups.
  assert (Hwf : Values_wf []) by (split; constructor).
  assert (Hkeys : sort.Strings (addPairs kvs1 []).*1 = sort.Strings (addPairs kvs2 []).*1).
  { apply Strings_perm, NoDup_Permutation.
    - by apply (addPairs_wf kvs1 []).
    - by apply (addPairs_wf kvs2 []).
    - intros k. rewrite !addPairs_keys. by rewrite Hp. }
  rewrite Hkeys. apply list_fmap_ext. intros _ k _. f_equal.
  apply Strings_perm. rewrite !addPairs_lookup. cbn [url.Values_lookup app].
  by rewrite Hp.
Qed.

Lemma ParseQuery_Join (pieces : list gostring) :
  Forall (λ s, "&"%char ∉ s) pieces →
  url.ParseQuery (strings.Join pieces (str "&")) = addPairs (omap decodePair pieces) [].
Proof.
  intros Hno. unfold url.ParseQuery. rewrite parseQuery_pairs_decode.
  destruct pieces as [|x pieces]; [done |].
  change (str "&") with ["&"%char]. by rewrite SplitByte_Join.
Qed.

Lemma rebuildQuery_perm (pieces1 pieces2 : list gostring) :
  Forall (λ s, "&"%char ∉ s) pieces1 → pieces1 ≡ₚ pieces2 →
  rebuildQuery (strings.Join pieces1 (str "&"))
  = rebuildQuery (strings.Join pieces2 (str "&")).
Proof.
  intros Hno Hp. rewrite !rebuildQuery_groups.
  rewrite !ParseQuery_Join by (done || by rewrite <- Hp).
  rewrite (sortedGroups_perm (omap decodePair pieces1) (omap decodePair pieces2)); [done |].
  by rewrite Hp.
Qed.

Lemma canonQuery_rebuild q : canonQuery q = rebuildQuery q.
Proof. unfold canonQuery. by case_bool_decide as Hq; [rewrite Hq |]. Qed.

Lemma query_piece_safe s :
  forallb query_piece_byte s = true → forallb url_safe_byte s = true ∧ "&"%char ∉ s.
Proof.
  intros Hs. split.
  - eapply forallb_weaken; [|exact Hs]. by intros c [? _]%andb_true_iff.
  - by apply (forallb_notin query_piece_byte).
Qed.

(** X11. The order of the query parameters is ignored: two absolute URLs
    that differ only in the order of the pieces of their query between the
    "&" have one canonical form. *)
Theorem query_order_is_ignored (sch h path : gostring) (pieces1 pieces2 : list gostring) :
  valid_scheme sch = true → plain_host h → written_path path →
  Forall (λ s, forallb query_piece_byte s = true) pieces1 →
  pieces1 ≡ₚ pieces2 →
  Deduplicator.CanonicalizeURL
    (absoluteURL sch h path (strings.Join pieces1 (str "&")))
  = Deduplicator.CanonicalizeURL
      (absoluteURL sch h path (strings.Join pieces2 (str "&"))).
Proof.
  intros Hsch Hh (p & Hun & Hhead & Hsafe)%written_path_unescape Hpieces Hp.
  assert (Hpieces2 : Forall (λ s, forallb query_piece_byte s = true) pieces2)
    by by rewrite <- Hp.
  assert (Hq : ∀ pieces, Forall (λ s, forallb query_piece_byte s = true) pieces →
            forallb url_safe_byte (strings.Join pieces (str "&")) = true).
  { intros pieces Hf. apply Join_safe; [|done].
    eapply Forall_impl; [exact Hf |]. intros s Hs. by apply query_piece_safe. }
  rewrite !(Canonicalize_absolute sch h path p) by (done || by apply Hq).
  rewrite !canonQuery_rebuild.
  rewrite (rebuildQuery_perm pieces1 pieces2); [done | | done].
  eapply Forall_impl; [exact Hpieces |]. intros s Hs. by apply query_piece_safe.
Qed.

End Equivalences2.

Lemma trailing_slash_is_ignored_witness :
  @Deduplicator.CanonicalizeURL plainLib
    (absoluteURL (str "https") (str "example.com") (str "/a/b" ++ str "/") (str "x=1"))
  = @Deduplicator.CanonicalizeURL plainLib
      (absoluteURL (str "https") (str "example.com") (str "/a/b") (str "x=1")).
Proof.
  apply (@trailing_slash_is_ignored plainLib).
  - reflexivity.
  - exists (str "example.com"), []. split_and!; [reflexivity | discriminate | reflexivity |].
    by left.
  - by right.
  - reflexivity.
  - reflexivity.
Defined.

Lemma query_order_is_ignored_witness :
  @Deduplicator.CanonicalizeURL plainLib
    (absoluteURL (str "https") (str "example.com") (str "/Path")
       (strings.Join [str "b=2"; str "a=1"] (str "&")))
  = @Deduplicator.CanonicalizeURL plainLib
      (absoluteURL (str "https") (str "example.com") (str "/Path")
         (strings.Join [str "a=1"; str "b=2"] (str "&"))).
Proof.
  apply (@query_order_is_ignored plainLib).
  - reflexivity.
  - exists (str "example.com"), []. split_and!; [reflexivity | discriminate | reflexivity |].
    by left.
  - split_and!; [by right | reflexivity | vm_compute; by eexists].
  - repeat constructor.
  - apply perm_swap.
Defined.

(** * robots.txt: matching, the cache, and the parser *)
Section RobotsMore.
Context `{GoLib}.

Implicit Types (s t sub pattern path part d : gostring) (c : ascii)
  (rm : RobotsManager.t).

(** ** Prefixes and substrings *)

Lemma HasPrefix_true s sub :
  strings.HasPrefix s sub = true ↔ take (length sub) s = sub.
Proof.
  unfold strings.HasPrefix. split.
  - by intros [_ ?%bool_decide_eq_true]%andb_true_iff.
  - intros Ht. apply andb_true_iff. split; [|by apply bool_decide_eq_true].
    apply Nat.leb_le. rewrite <- Ht at 1. rewrite length_take. lia.
Qed.

Lemma HasPrefix_length s sub :
  strings.HasPrefix s sub = true → length sub ≤ length s.
Proof. unfold strings.HasPrefix. by intros [?%Nat.leb_le _]%andb_true_iff. Qed.

Lemma HasPrefix_app_long s t sub :
  length sub ≤ length s →
  strings.HasPrefix (s ++ t) sub = strings.HasPrefix s sub.
Proof.
  intros Hl. unfold strings.HasPrefix. rewrite take_app_le by done.
  rewrite length_app.
  replace (length sub <=? length s + length t) with true
    by (symmetry; apply Nat.leb_le; lia).
  by replace (length sub <=? length s) with true by (symmetry; by apply Nat.leb_le).
Qed.

Lemma HasPrefix_app s t sub :
  strings.HasPrefix s sub = true → strings.HasPrefix (s ++ t) sub = true.
Proof. intros Hp. rewrite HasPrefix_app_long; [done | by apply HasPrefix_length]. Qed.

Lemma Index_cons x s sub :
  strings.Index (x :: s) sub
  = if strings.HasPrefix (x :: s) sub then Some 0 else S <$> strings.Index s sub.
Proof. done. Qed.

Lemma Index_bound s sub : ∀ i,
  strings.Index s sub = Some i → i + length sub ≤ length s.
Proof.
  induction s as [|x s IH]; intros i.
  - cbn [strings.Index]. destruct (strings.HasPrefix [] sub) eqn:Hp; [|done].
    intros [= <-]. apply HasPrefix_length in Hp. cbn in *. lia.
  - rewrite Index_cons. destruct (strings.HasPrefix (x :: s) sub) eqn:Hp.
    + intros [= <-]. apply HasPrefix_length in Hp. cbn in *. lia.
    + destruct (strings.Index s sub) as [i'|] eqn:Hi; [|done].
      intros [= <-]. specialize (IH i' eq_refl). cbn. lia.
Qed.

Lemma Index_app_Some s t sub : ∀ i,
  strings.Index s sub = Some i → strings.Index (s ++ t) sub = Some i.
Proof.
  induction s as [|x s IH]; intros i.
  - cbn [strings.Index]. destruct (strings.HasPrefix [] sub) eqn:Hp; [|done].
    intros [= <-]. cbn [app].
    assert (Ht : strings.HasPrefix t sub = true) by by apply (HasPrefix_app [] t).
    destruct t; cbn [strings.Index]; by rewrite Ht.
  - rewrite Index_cons. change ((x :: s) ++ t) with (x :: (s ++ t)).
    rewrite Index_cons. change (x :: (s ++ t)) with ((x :: s) ++ t).
    destruct (strings.HasPrefix (x :: s) sub) eqn:Hp.
    + intros [= <-]. by rewrite (HasPrefix_app (x :: s) t sub Hp).
    + destruct (strings.Index s sub) as [i'|] eqn:Hi; [|done].
      intros [= <-]. pose proof (Index_bound s sub i' Hi) as Hb.
      rewrite (HasPrefix_app_long (x :: s) t sub), Hp by (cbn; lia).
      by rewrite (IH i' eq_refl).
Qed.

(** ** Rules match whole subtrees *)

Lemma matchWildcard_loop_app (parts : list gostring) s : ∀ i path pos pos',
  RobotsManager.matchWildcard_loop parts i path pos = Some pos' →
  RobotsManager.matchWildcard_loop parts i (path ++ s) pos = Some pos'.
Proof.
  induction parts as [|part parts IH]; intros i path pos pos'; [done |].
  cbn [RobotsManager.matchWildcard_loop].
  destruct (bool_decide (part = [])); [apply IH |].
  destruct (strings.Index (drop pos path) part) as [idx|] eqn:Hi; [|done].
  rewrite drop_app, (Index_app_Some _ _ _ idx Hi).
  destruct (_ && _); [done |]. apply IH.
Qed.

(** X12. A rule without a final "$" covers a whole subtree: when it matches
    a path, it matches every path that extends it, with or without "*" in
    the rule. *)
Theorem rule_matches_every_extension (pattern path s : gostring) :
  RobotsManager.matchRobotsPattern pattern path = true →
  strings.HasSuffix pattern (str "$") = false →
  RobotsManager.matchRobotsPattern pattern (path ++ s) = true.
Proof.
  unfold RobotsManager.matchRobotsPattern. intros Hm Hd. revert Hm.
  destruct (bool_decide (pattern = [])); [done |]. rewrite Hd.
  destruct (strings.Contains pattern (str "*")).
  - unfold RobotsManager.matchWildcard.
    destruct (RobotsManager.matchWildcard_loop _ 0 path 0) as [pos|] eqn:Hl; [|done].
    by rewrite (matchWildcard_loop_app _ s _ _ _ _ Hl).
  - apply HasPrefix_app.
Qed.

(** ** The cache *)

Lemma getRobotsData_cache rm domain d x :
  RobotsManager.cache rm !! d = Some x →
  RobotsManager.cache (RobotsManager.getRobotsData rm domain).2 !! d = Some x.
Proof.
  intros Hd. unfold RobotsManager.getRobotsData.
  destruct (RobotsManager.cache rm !! domain) as [data|] eqn:Hc; cbn [snd]; [done |].
  cbn [RobotsManager.cache]. rewrite lookup_insert_ne by (intros ->; congruence). done.
Qed.

Lemma IsAllowed_cache rm u d x :
  RobotsManager.cache rm !! d = Some x →
  RobotsManager.cache (RobotsManager.IsAllowed rm u).2 !! d = Some x.
Proof.
  intros Hd. unfold RobotsManager.IsAllowed.
  destruct (negb (RobotsManager.enabled rm)); [done |].
  destruct (url.Parse u) as [U|]; [|done].
  pose proof (getRobotsData_cache rm (url.Scheme U ++ str "://" ++ url.Host U) d x Hd) as Hg.
  destruct (RobotsManager.getRobotsData rm _) as [data rm']. cbn [snd] in Hg.
  destruct data as [data|]; [|done]. by repeat destruct (existsb _ _).
Qed.

Lemma IsAllowed_unfold rm u (U : url.URL) :
  RobotsManager.enabled rm = true → url.Parse u = Some U →
  RobotsManager.IsAllowed rm u
  = (rules_allow
       (RobotsManager.getRobotsData rm (url.Scheme U ++ str "://" ++ url.Host U)).1 U,
     (RobotsManager.getRobotsData rm (url.Scheme U ++ str "://" ++ url.Host U)).2).
Proof.
  intros He HP. unfold RobotsManager.IsAllowed. rewrite He, HP. cbn [negb].
  destruct (RobotsManager.getRobotsData rm _) as [data rm'].
  destruct data as [data|]; [|done]. cbn [fst snd rules_allow].
  by repeat destruct (existsb _ _).
Qed.

(** X13. robots.txt is fetched once for a domain.  The first question
    about a URL stores what the network gives for the URL's domain, the
    rules or the failure to get them, unless the cache has an entry
    already, which it keeps; no later question, whatever it is about,
    replaces the entry; and from then on the answer for the URL is the
    first one and the manager stays as it is, whatever the network would
    give now: the network is not asked again. *)
Theorem robots_txt_is_fetched_once (rm : RobotsManager.t) (u : gostring)
    (U : url.URL) (client' : gostring → option RobotsManager.robotsData) :
  RobotsManager.enabled rm = true → url.Parse u = Some U →
  let domain := url.Scheme U ++ str "://" ++ url.Host U in
  let first := RobotsManager.IsAllowed rm u in
  RobotsManager.cache first.2 !! domain
  = Some (match RobotsManager.cache rm !! domain with
          | Some x => x
          | None => RobotsManager.client rm domain
          end) ∧
  (∀ urls : list gostring,
     RobotsManager.cache
       (fold_left (λ rm u, (RobotsManager.IsAllowed rm u).2) urls first.2) !! domain
     = RobotsManager.cache first.2 !! domain) ∧
  RobotsManager.IsAllowed (with_client first.2 client') u
  = (first.1, with_client first.2 client').
Proof.
  intros He HP domain first.
  pose proof (IsAllowed_unfold rm u U He HP) as Hfirst. fold domain in Hfirst.
  assert (Hstored :
            RobotsManager.cache (RobotsManager.getRobotsData rm domain).2 !! domain
            = Some (RobotsManager.getRobotsData rm domain).1 ∧
            RobotsManager.enabled (RobotsManager.getRobotsData rm domain).2 = true ∧
            (RobotsManager.getRobotsData rm domain).1
            = match RobotsManager.cache rm !! domain with
              | Some x => x
              | None => RobotsManager.client rm domain
              end).
  { unfold RobotsManager.getRobotsData.
    destruct (RobotsManager.cache rm !! domain) as [x|] eqn:Hc; cbn [fst snd].
    - done.
    - cbn [RobotsManager.cache RobotsManager.enabled].
      by rewrite lookup_insert_eq. }
  destruct (RobotsManager.getRobotsData rm domain) as [x rm1].
  cbn [fst snd] in Hstored. destruct Hstored as (Hcache & Hen & Hdef).
  subst first. rewrite Hfirst. cbn [fst snd]. rewrite <- Hdef.
  split; [done |]. split.
  - intros urls. clear Hfirst Hen. revert rm1 Hcache.
    induction urls as [|v urls IH]; intros rm1 Hc1; [done |].
    cbn [fold_left]. rewrite IH by (by apply IsAllowed_cache).
    rewrite Hc1. by apply IsAllowed_cache.
  - rewrite (IsAllowed_unfold _ u U) by done. fold domain.
    unfold RobotsManager.getRobotsData.
    cbn [with_client RobotsManager.cache]. by rewrite Hcache.
Qed.


End RobotsMore.

Lemma rule_matches_every_extension_witness :
  RobotsManager.matchRobotsPattern (str "/a*b") (str "/a1b" ++ str "/c") = true.
Proof.
  apply (rule_matches_every_extension (str "/a*b") (str "/a1b") (str "/c"));
    reflexivity.
Defined.

Lemma robots_txt_is_fetched_once_witness :
  let rules := RobotsManager.mkData [str "/private"] [] 0 [] in
  let rm := RobotsManager.New true (λ _, Some rules) in
  let first := @RobotsManager.IsAllowed plainLib rm (str "http://h/private/x") in
  (@RobotsManager.IsAllowed plainLib (with_client first.2 (λ _, None))
     (str "http://h/private/x")).1 = false.
Proof.
  intros rules rm first.
  destruct (@url.Parse plainLib (str "http://h/private/x")) as [U|] eqn:HP;
    [|vm_compute in HP; discriminate HP].
  destruct (@robots_txt_is_fetched_once plainLib rm (str "http://h/private/x") U
              (λ _, None) eq_refl HP) as (_ & _ & Hsame).
  fold first in Hsame. rewrite Hsame. vm_compute. reflexivity.
Defined.

(** * robots.txt: what parseRobotsTxt records *)
Section RobotsParse.
Context `{GoLib}.

Implicit Types (line value content : gostring) (data : RobotsManager.robotsData).

Lemma parseRobotsTxt_line_outside scanDelay data line :
  (∀ value, RobotsManager.splitLine line = Some (str "user-agent", value) →
            RobotsManager.ourAgent value = false) →
  RobotsManager.disallowed data = [] → RobotsManager.allowed data = [] →
  RobotsManager.crawlDelay data = 0%Z →
  let st := RobotsManager.parseRobotsTxt_line scanDelay (data, false) line in
  st.2 = false ∧ RobotsManager.disallowed st.1 = [] ∧
  RobotsManager.allowed st.1 = [] ∧ RobotsManager.crawlDelay st.1 = 0%Z.
Proof.
  intros Hua Hd Ha Hc. unfold RobotsManager.parseRobotsTxt_line.
  destruct (RobotsManager.splitLine line) as [[key value]|]; [|done].
  destruct (decide (key = str "user-agent")) as [->|Hk].
  { rewrite bool_decide_eq_true_2 by done. cbn [fst snd]. by rewrite Hua. }
  rewrite (bool_decide_eq_false_2 (key = str "user-agent")) by done.
  cbn [andb]. by repeat case_bool_decide.
Qed.

(** X14. Rules need a section that applies: when no User-agent line of the
    file names "*" or an agent containing "scrapegoat", parseRobotsTxt
    records no Disallow rule, no Allow rule and no crawl delay, whatever
    the file says. *)
Theorem robots_rules_need_a_section (scanDelay : gostring → option Z)
    (content : gostring) :
  (∀ line value,
     line ∈ strings.SplitByte [] content (ascii_of_N 10) →
     RobotsManager.splitLine line = Some (str "user-agent", value) →
     RobotsManager.ourAgent value = false) →
  let data := RobotsManager.parseRobotsTxt scanDelay content in
  RobotsManager.disallowed data = [] ∧ RobotsManager.allowed data = [] ∧
  RobotsManager.crawlDelay data = 0%Z.
Proof.
  intros Hua. unfold RobotsManager.parseRobotsTxt.
  set (lines := strings.SplitByte [] content (ascii_of_N 10)) in *.
  assert (Hinv : ∀ st, st.2 = false → RobotsManager.disallowed st.1 = [] →
            RobotsManager.allowed st.1 = [] → RobotsManager.crawlDelay st.1 = 0%Z →
            let st' := fold_left (RobotsManager.parseRobotsTxt_line scanDelay) lines st in
            RobotsManager.disallowed st'.1 = [] ∧ RobotsManager.allowed st'.1 = [] ∧
            RobotsManager.crawlDelay st'.1 = 0%Z).
  { clearbody lines. induction lines as [|line lines IH]; intros [data b] Hb Hd Ha Hc.
    - done.
    - cbn [fold_left]. cbn [fst snd] in *. subst b.
      destruct (parseRobotsTxt_line_outside scanDelay data line) as (H1 & H2 & H3 & H4);
        [|done..|].
      + intros value. apply Hua. apply list_elem_of_here.
      + apply IH; [|done..]. intros l v Hl. apply Hua. by apply list_elem_of_further. }
  by apply (Hinv (RobotsManager.mkData [] [] 0 [], false)).
Qed.

Lemma parseRobotsTxt_line_sitemaps scanDelay data b line :
  RobotsManager.sitemaps (RobotsManager.parseRobotsTxt_line scanDelay (data, b) line).1
  = RobotsManager.sitemaps data ++
    match sitemapOf line with Some value => [value] | None => [] end.
Proof.
  unfold RobotsManager.parseRobotsTxt_line, sitemapOf.
  destruct (RobotsManager.splitLine line) as [[key value]|]; [|by rewrite app_nil_r].
  destruct (decide (key = str "sitemap")) as [->|Hk].
  { rewrite (bool_decide_eq_true_2 (str "sitemap" = str "sitemap")) by done.
    by rewrite !bool_decide_eq_false_2 by done. }
  rewrite (bool_decide_eq_false_2 (key = str "sitemap")) by done.
  rewrite app_nil_r.
  repeat case_bool_decide; try done; destruct b; cbn [andb negb fst]; try done;
    by destruct (scanDelay value).
Qed.

(** X15. Sitemap lines count in every section: the sitemaps that
    parseRobotsTxt records are the values of all the lines whose key is
    "sitemap", in the order of the file, whichever agent the section is
    for. *)
Theorem robots_sitemaps_of_all_sections (scanDelay : gostring → option Z)
    (content : gostring) :
  RobotsManager.sitemaps (RobotsManager.parseRobotsTxt scanDelay content)
  = omap sitemapOf (strings.SplitByte [] content (ascii_of_N 10)).
Proof.
  unfold RobotsManager.parseRobotsTxt.
  generalize (strings.SplitByte [] content (ascii_of_N 10)). intros lines.
  assert (Hgen : ∀ st,
            RobotsManager.sitemaps
              (fold_left (RobotsManager.parseRobotsTxt_line scanDelay) lines st).1
            = RobotsManager.sitemaps st.1 ++ omap sitemapOf lines).
  { induction lines as [|line lines IH]; intros [data b]; cbn [fold_left fst].
    - by rewrite app_nil_r.
    - rewrite IH.
      destruct (RobotsManager.parseRobotsTxt_line scanDelay (data, b) line)
        as [data' b'] eqn:Hl.
      pose proof (parseRobotsTxt_line_sitemaps scanDelay data b line) as Hs.
      rewrite Hl in Hs. cbn [fst] in *. rewrite Hs.
      change (omap sitemapOf (line :: lines))
        with (match sitemapOf line with
              | Some y => y :: omap sitemapOf lines
              | None => omap sitemapOf lines
              end).
      destruct (sitemapOf line); by rewrite <- app_assoc. }
  apply (Hgen (RobotsManager.mkData [] [] 0 [], false)).
Qed.

End RobotsParse.

Lemma robots_rules_need_a_section_witness :
  RobotsManager.disallowed
    (@RobotsManager.parseRobotsTxt plainLib (λ _, None)
       (str "User-agent: otherbot" ++ [ascii_of_N 10] ++ str "Disallow: /private"))
  = [].
Proof.
  apply (@robots_rules_need_a_section plainLib (λ _, None)
           (str "User-agent: otherbot" ++ [ascii_of_N 10] ++ str "Disallow: /private")).
  intros line value Hin Hs. vm_compute in Hin.
  apply elem_of_cons in Hin as [->|Hin].
  - vm_compute in Hs. injection Hs as <-. reflexivity.
  - apply list_elem_of_singleton in Hin as ->. vm_compute in Hs. discriminate Hs.
Defined.

(** * The fetcher's user agents and the byte readers *)
Section FetcherMore.
Local Open Scope Z_scope.

Lemma nextUserAgent_step version (f : fetcher.HTTPFetcher) :
  fetcher.userAgents f ≠ [] → 0 ≤ fetcher.uaIndex f < int64.max →
  fetcher.nextUserAgent version f
  = (fetcher.userAgents f
       !! Z.to_nat ((fetcher.uaIndex f + 1) mod Z.of_nat (length (fetcher.userAgents f))),
     {| fetcher.userAgents := fetcher.userAgents f;
        fetcher.uaIndex := fetcher.uaIndex f + 1 |}).
Proof.
  intros Hne Hc. unfold fetcher.nextUserAgent.
  destruct (fetcher.userAgents f) as [|a l] eqn:Hl; [done |].
  cbn [length Nat.eqb].
  assert (Hadd : int64.add (fetcher.uaIndex f) 1 = fetcher.uaIndex f + 1).
  { unfold int64.add, int64.wrap. unfold int64.max in Hc.
    replace (fetcher.uaIndex f + 1 + 2 ^ 63)
      with (fetcher.uaIndex f + 1 + 2 ^ 63 + 0 * 2 ^ 64) by lia.
    rewrite Z.mod_small; lia. }
  rewrite Hadd. rewrite Z.rem_mod_nonneg by lia.
  pose proof (Z.mod_pos_bound (fetcher.uaIndex f + 1) (Z.of_nat (S (length l)))
                ltac:(lia)) as Hm.
  destruct (Z.ltb_spec ((fetcher.uaIndex f + 1) mod Z.of_nat (S (length l))) 0);
    [lia | done].
Qed.

(** X16. The user agents rotate: while the call counter has not
    overflowed, the i-th of any number of successive calls of
    nextUserAgent returns the configured agent at position
    (counter + i) mod n, so the rotation of a new fetcher starts at the
    second agent of the list, and no call fails. *)
Theorem nextUserAgent_round_robin (version : gostring) (k : nat) :
  ∀ f : fetcher.HTTPFetcher,
    fetcher.userAgents f ≠ [] →
    0 ≤ fetcher.uaIndex f →
    fetcher.uaIndex f + Z.of_nat k ≤ int64.max →
    userAgents_of version k f
    = (λ i : nat,
         fetcher.userAgents f
           !! Z.to_nat ((fetcher.uaIndex f + 1 + Z.of_nat i)
                        mod Z.of_nat (length (fetcher.userAgents f))))
        <$> seq 0 k
    ∧ Forall is_Some (userAgents_of version k f).
Proof.
  induction k as [|k IH]; intros f Hne H0 Hmax; [by split |].
  cbn [userAgents_of]. rewrite nextUserAgent_step by (done || lia).
  destruct (IH {| fetcher.userAgents := fetcher.userAgents f;
                  fetcher.uaIndex := fetcher.uaIndex f + 1 |}) as [IH1 IH2];
    cbn [fetcher.userAgents fetcher.uaIndex]; [done | lia | lia |].
  cbn [fetcher.userAgents fetcher.uaIndex] in IH1. rewrite IH1.
  split.
  - cbn [seq]. rewrite fmap_cons. f_equal.
    + by rewrite Z.add_0_r.
    + rewrite <- fmap_S_seq, <- list_fmap_compose. apply list_fmap_ext.
      intros i x _. cbn. do 3 f_equal. lia.
  - constructor; [|by rewrite <- IH1].
    apply lookup_lt_is_Some.
    pose proof (Z.mod_pos_bound (fetcher.uaIndex f + 1)
                  (Z.of_nat (length (fetcher.userAgents f)))) as Hm.
    destruct (fetcher.userAgents f); [done |]. cbn [length] in *. lia.
Qed.

Lemma nextUserAgent_round_robin_witness :
  userAgents_of (str "dev") 4
    {| fetcher.userAgents := [str "A"; str "B"; str "C"]; fetcher.uaIndex := 0 |}
  = [Some (str "B"); Some (str "C"); Some (str "A"); Some (str "B")].
Proof.
  destruct (nextUserAgent_round_robin (str "dev") 4
    {| fetcher.userAgents := [str "A"; str "B"; str "C"]; fetcher.uaIndex := 0 |})
    as [Heq _].
  - discriminate.
  - cbn. lia.
  - cbn. unfold int64.max. lia.
  - rewrite Heq. reflexivity.
Defined.

(** X17. Reading a byte reader to its end gives the data back: with
    buffers of any positive sizes, successive calls of Read return, piece
    by piece, exactly the bytes from the reader's position to the end of
    its data, and then io.EOF. *)
Theorem Read_to_the_end (sizes : list nat) :
  ∀ r : types.bytesReader,
    Forall (λ plen, (0 < plen)%nat) sizes →
    (length (types.data r) - types.pos r < length sizes)%nat →
    readAll sizes r = (drop (types.pos r) (types.data r), true).
Proof.
  induction sizes as [|plen sizes IH]; intros r Hpos Hlen; cbn [length] in Hlen; [lia |].
  apply Forall_cons in Hpos as [Hp Hpos].
  cbn [readAll]. unfold types.Read.
  destruct (length (types.data r) <=? types.pos r)%nat eqn:Hend.
  - apply Nat.leb_le in Hend. by rewrite drop_ge.
  - apply Nat.leb_gt in Hend.
    set (l := drop (types.pos r) (types.data r)).
    assert (Hl : length l = (length (types.data r) - types.pos r)%nat)
      by (unfold l; by rewrite length_drop).
    rewrite IH; cbn [types.data types.pos]; [| done |].
    + f_equal. rewrite <- drop_drop. fold l.
      rewrite length_take.
      destruct (decide (plen ≤ length l)%nat).
      * rewrite Nat.min_l by done. apply take_drop.
      * rewrite Nat.min_r by lia. rewrite drop_all, take_ge by lia.
        by rewrite app_nil_r.
    + rewrite length_take. fold l. lia.
Qed.

Lemma Read_to_the_end_witness :
  readAll [2; 1; 3; 1; 1]%nat {| types.data := str "hello"; types.pos := 1 |}
  = (str "ello", true).
Proof.
  apply (Read_to_the_end [2; 1; 3; 1; 1]%nat {| types.data := str "hello"; types.pos := 1 |}).
  - repeat constructor.
  - vm_compute. lia.
Defined.

End FetcherMore.

(** * Runs of the engine *)
Section EngineMore.
Context `{GoLib}.

Implicit Types (e : Engine.t) (req r : types.Request) (ops : list engineOp).

Lemma wrap_add (a b : Z) : int64.add (int64.wrap a) b = int64.wrap (a + b).
Proof.
  unfold int64.add, int64.wrap.
  replace ((a + 2 ^ 63) `mod` 2 ^ 64 - 2 ^ 63 + b + 2 ^ 63)%Z
    with ((a + 2 ^ 63) `mod` 2 ^ 64 + b)%Z by lia.
  rewrite Zplus_mod_idemp_l. do 2 f_equal. lia.
Qed.

Lemma wrap_in_range (x : Z) : int64.in_range x → int64.wrap x = x.
Proof.
  unfold int64.in_range, int64.wrap, int64.min, int64.max. intros Hx.
  replace (x + 2 ^ 63)%Z with (x + 2 ^ 63 + 0 * 2 ^ 64)%Z by lia.
  rewrite Z.mod_small; lia.
Qed.

(** ** What a step keeps *)

Lemma extends_refl e : extends e e.
Proof. by split. Qed.

Lemma extends_trans e1 e2 e3 : extends e1 e2 → extends e2 e3 → extends e1 e3.
Proof. intros [H1 H2] [H3 H4]. split; [congruence | set_solver]. Qed.

Lemma steady_refl e : steady e e.
Proof. split; [apply extends_refl | done]. Qed.

Lemma steady_trans e1 e2 e3 : steady e1 e2 → steady e2 e3 → steady e1 e3.
Proof.
  intros [H1 H2] [H3 H4]. split; [by eapply extends_trans | congruence].
Qed.

Lemma Push_IsClosed (f : Frontier.t) req :
  Frontier.IsClosed (Frontier.Push f req) = Frontier.IsClosed f.
Proof. unfold Frontier.Push, Frontier.IsClosed. by destruct (Frontier.closed f) eqn:Hc. Qed.

(** The two outcomes of AddRequest. *)
Lemma AddRequest_cases e req :
  let e' := (Engine.AddRequest e req).2 in
  Engine.cfg e' = Engine.cfg e ∧ Engine.state e' = Engine.state e ∧
  Engine.paused e' = Engine.paused e ∧ Engine.cancelled e' = Engine.cancelled e ∧
  ((is_Some (Engine.AddRequest e req).1 ∧
    Engine.frontier e' = Engine.frontier e ∧ Engine.dedup e' = Engine.dedup e ∧
    Engine.URLsEnqueued (Engine.stats e') = Engine.URLsEnqueued (Engine.stats e))
   ∨
   ((Engine.AddRequest e req).1 = None ∧
    (types.Depth req ≤ Engine.MaxDepth (Engine.cfg e))%Z ∧
    Deduplicator.IsSeen (Engine.dedup e) (types.URLString req) = false ∧
    Engine.dedup e' = Deduplicator.MarkSeen (Engine.dedup e) (types.URLString req) ∧
    Engine.frontier e' = Frontier.Push (Engine.frontier e) req ∧
    Engine.URLsEnqueued (Engine.stats e')
      = int64.add (Engine.URLsEnqueued (Engine.stats e)) 1)).
Proof.
  cbv zeta. unfold Engine.AddRequest.
  destruct (Z.ltb_spec (Engine.MaxDepth (Engine.cfg e)) (types.Depth req));
    [by repeat split; try left |].
  destruct (Deduplicator.IsSeen (Engine.dedup e) (types.URLString req)) eqn:Hseen;
    [by repeat split; try left |].
  destruct (Engine.RespectRobotsTxt (Engine.cfg e)).
  - destruct (RobotsManager.IsAllowed (Engine.robots e) (types.URLString req))
      as [ok rm].
    destruct ok; cbn [negb]; [|by repeat split; try left].
    destruct (Engine.isDomainAllowed _ _); cbn [negb];
      [|by repeat split; try left].
    repeat split; try done. right. by repeat split.
  - destruct (Engine.isDomainAllowed _ _); cbn [negb];
      [|by repeat split; try left].
    repeat split; try done. right. by repeat split.
Qed.

Lemma AddRequest_steady e req : steady e (Engine.AddRequest e req).2.
Proof.
  destruct (AddRequest_cases e req) as (Hc & Hs & Hp & Hx & Hcases).
  unfold steady, extends, lifecycle. rewrite Hc, Hs, Hp, Hx.
  destruct Hcases as [(_ & Hf & Hd & _) | (_ & _ & _ & Hd & Hf & _)]; rewrite Hf, Hd.
  - done.
  - rewrite Push_IsClosed. split; [|done]. split; [done |].
    unfold Deduplicator.MarkSeen. cbn. set_solver.
Qed.

Lemma AddSeed_steady e rawURL : steady e (Engine.AddSeed e rawURL).2.
Proof.
  unfold Engine.AddSeed. destruct (types.NewRequest rawURL); [|apply steady_refl].
  apply AddRequest_steady.
Qed.

Lemma admit_all_steady reqs : ∀ e, steady e (Scheduler.admit_all e reqs).
Proof.
  unfold Scheduler.admit_all.
  induction reqs as [|r reqs IH]; intros e; cbn [fold_left]; [apply steady_refl |].
  eapply steady_trans; [apply AddRequest_steady | apply IH].
Qed.

Lemma run_callback_steady req resp e cb :
  steady e (Scheduler.run_callback req resp e cb).
Proof.
  unfold Scheduler.run_callback. destruct (cb.2 resp) as [[items newReqs]|];
    [|apply steady_refl].
  eapply steady_trans; [|apply admit_all_steady]. done.
Qed.

Lemma run_callbacks_steady req resp cbs : ∀ e,
  steady e (fold_left (Scheduler.run_callback req resp) cbs e).
Proof.
  induction cbs as [|cb cbs IH]; intros e; cbn [fold_left]; [apply steady_refl |].
  eapply steady_trans; [apply run_callback_steady | apply IH].
Qed.

Lemma run_parser_steady req resp e : steady e (Scheduler.run_parser req resp e).
Proof.
  unfold Scheduler.run_parser. destruct (Engine.parser e) as [parse|];
    [|apply steady_refl].
  destruct (parse resp) as [[items links] err].
  eapply steady_trans; [|apply admit_all_steady].
  by destruct (_ =? _).
Qed.

Lemma handleFetchError_steady e req err :
  steady e (Scheduler.handleFetchError e req err).
Proof.
  unfold Scheduler.handleFetchError.
  destruct err as [fetchErr|]; [|done].
  destruct (_ && _); [|done].
  unfold steady, extends, lifecycle.
  destruct (0 <? types.RetryAfter fetchErr)%Z; cbn; by rewrite Push_IsClosed.
Qed.

Lemma processRequest_steady e req : steady e (Scheduler.processRequest e req).
Proof.
  unfold Scheduler.processRequest.
  destruct (Engine.fetchers e !! _) as [fetcher|]; [|done].
  destruct (fetcher req) as [resp|err].
  - eapply steady_trans; [|apply run_parser_steady].
    eapply steady_trans; [|apply run_callbacks_steady]. done.
  - eapply steady_trans; [|apply handleFetchError_steady]. done.
Qed.

Lemma TryPop_closed (f : Frontier.t) :
  Frontier.closed (Frontier.TryPop f).2 = Frontier.closed f.
Proof.
  unfold Frontier.TryPop. destruct (_ =? _); [done |].
  by destruct (heap.Pop _) as [[??]|].
Qed.

Lemma worker_iteration_cases e :
  ∃ e1, steady e e1 ∧
        (Scheduler.worker_iteration e = e1 ∨
         Scheduler.worker_iteration e = Engine.Stop e1).
Proof.
  unfold Scheduler.worker_iteration.
  pose proof (TryPop_closed (Engine.frontier e)) as Hcl.
  destruct (Frontier.TryPop (Engine.frontier e)) as [[req|] f]; cbn [snd] in Hcl;
    [|exists e; split; [apply steady_refl | by left]].
  match goal with
  | |- context [if ?c then Engine.Stop ?e1 else _] =>
      exists e1; split; [|destruct c; [by right | by left]]
  end.
  match goal with
  | |- steady _ (Engine.with_stats (Scheduler.processRequest ?e0 _) _) =>
      apply (steady_trans _ e0);
        [|apply (steady_trans _ (Scheduler.processRequest e0 req));
          [apply processRequest_steady | done]]
  end.
  unfold steady, extends, lifecycle. cbn. unfold Frontier.IsClosed. by rewrite Hcl.
Qed.

Lemma Stop_extends e : extends e (Engine.Stop e).
Proof. unfold Engine.Stop. by destruct (negb _). Qed.

Lemma run_engineOp_extends e op : extends e (run_engineOp e op).
Proof.
  destruct op; cbn [run_engineOp].
  - apply AddSeed_steady.
  - apply AddRequest_steady.
  - destruct (worker_iteration_cases e) as (e1 & [He1 _] & [-> | ->]); [done |].
    eapply extends_trans; [done | apply Stop_extends].
  - done.
  - unfold Engine.Start. by destruct (bool_decide _).
  - apply Stop_extends.
  - unfold Engine.Pause. by destruct (bool_decide _).
  - unfold Engine.Resume. by destruct (bool_decide _).
Qed.

Lemma engine_after_extends ops : ∀ e, extends e (engine_after e ops).
Proof.
  unfold engine_after.
  induction ops as [|op ops IH]; intros e; cbn [fold_left]; [apply extends_refl |].
  eapply extends_trans; [apply run_engineOp_extends | apply IH].
Qed.

(** ** The queue, the deduplicator and urls_enqueued *)

Lemma admitted_mono e e' r : extends e e' → admitted e r → admitted e' r.
Proof.
  intros [Hc Hs] [Hd Hseen]. split; [by rewrite Hc |].
  unfold Deduplicator.IsSeen in *. apply bool_decide_eq_true.
  apply bool_decide_eq_true in Hseen. set_solver.
Qed.

Lemma crawl_inv_same k e e' :
  Engine.cfg e' = Engine.cfg e → Engine.dedup e' = Engine.dedup e →
  Engine.frontier e' = Engine.frontier e →
  Engine.URLsEnqueued (Engine.stats e') = Engine.URLsEnqueued (Engine.stats e) →
  crawl_inv k e → crawl_inv k e'.
Proof.
  intros Hc Hd Hf Hu (H1 & H2 & H3 & H4). unfold crawl_inv. rewrite Hd, Hf, Hu.
  refine (conj H1 (conj _ (conj H3 H4))). eapply Forall_impl; [done |].
  intros r. apply admitted_mono. split; [done | by rewrite Hd].
Qed.

Lemma crawl_inv_less k k' e : k' ≤ k → crawl_inv k e → crawl_inv k' e.
Proof. intros Hk (H1 & H2 & H3 & H4). refine (conj H1 (conj H2 (conj H3 _))). lia. Qed.

Lemma Push_Len (f : Frontier.t) req :
  Frontier.Len (Frontier.Push f req)
  = if Frontier.closed f then Frontier.Len f else S (Frontier.Len f).
Proof.
  unfold Frontier.Len, Frontier.Push, priorityQueue.Len.
  destruct (Frontier.closed f); [done |]. cbn. apply heap_Push_length.
Qed.

Lemma Push_Snapshot_Forall (P : types.Request → Prop) (f : Frontier.t) req :
  P req → Forall P (Frontier.Snapshot f) →
  Forall P (Frontier.Snapshot (Frontier.Push f req)).
Proof.
  intros Hr Hall. unfold Frontier.Snapshot.
  destruct (Frontier.closed f) eqn:Hcl.
  - unfold Frontier.Push. by rewrite Hcl.
  - rewrite (Push_open_requests _ _ Hcl). by constructor.
Qed.

Lemma crawl_inv_accept k e e' req :
  Engine.cfg e' = Engine.cfg e →
  (types.Depth req ≤ Engine.MaxDepth (Engine.cfg e))%Z →
  Deduplicator.IsSeen (Engine.dedup e) (types.URLString req) = false →
  Engine.dedup e' = Deduplicator.MarkSeen (Engine.dedup e) (types.URLString req) →
  Engine.frontier e' = Frontier.Push (Engine.frontier e) req →
  Engine.URLsEnqueued (Engine.stats e')
    = int64.add (Engine.URLsEnqueued (Engine.stats e)) 1 →
  crawl_inv k e → crawl_inv k e'.
Proof.
  intros Hc Hdepth Hnew Hd Hf Hu (Hinv & Hall & Hcount & Hlen).
  assert (Hext : extends e e').
  { split; [done |]. rewrite Hd. cbn. set_solver. }
  assert (Hreq : admitted e' req).
  { split; [by rewrite Hc |]. rewrite Hd.
    unfold Deduplicator.IsSeen, Deduplicator.MarkSeen. cbn.
    apply bool_decide_eq_true. set_solver. }
  assert (Hall' : Forall (admitted e') (Frontier.Snapshot (Engine.frontier e))).
  { eapply Forall_impl; [done |]. intros r. by apply admitted_mono. }
  unfold crawl_inv. rewrite Hf, Hu, Hd, Count_MarkSeen_new by done.
  split; [by apply Push_inv |]. split; [|split].
  - by apply Push_Snapshot_Forall.
  - rewrite Hcount, wrap_add. f_equal. lia.
  - rewrite Push_Len. destruct (Frontier.closed _); lia.
Qed.

Lemma crawl_inv_push k e e' req :
  Engine.cfg e' = Engine.cfg e → Engine.dedup e' = Engine.dedup e →
  Engine.frontier e' = Frontier.Push (Engine.frontier e) req →
  Engine.URLsEnqueued (Engine.stats e') = Engine.URLsEnqueued (Engine.stats e) →
  admitted e req →
  crawl_inv (S k) e → crawl_inv k e'.
Proof.
  intros Hc Hd Hf Hu Hreq (Hinv & Hall & Hcount & Hlen).
  assert (Hext : extends e e') by (split; [done | by rewrite Hd]).
  unfold crawl_inv. rewrite Hf, Hu, Hd.
  split; [by apply Push_inv |]. split; [|split].
  - apply Push_Snapshot_Forall; [by eapply admitted_mono |].
    eapply Forall_impl; [done |]. intros r. by apply admitted_mono.
  - done.
  - rewrite Push_Len. destruct (Frontier.closed _); lia.
Qed.

Lemma AddRequest_inv k e req : crawl_inv k e → crawl_inv k (Engine.AddRequest e req).2.
Proof.
  intros Hi.
  destruct (AddRequest_cases e req)
    as (Hc & _ & _ & _ & [(_ & Hf & Hd & Hu) | (_ & Hdepth & Hnew & Hd & Hf & Hu)]).
  - by apply (crawl_inv_same k e).
  - by apply (crawl_inv_accept k e _ req).
Qed.

Lemma AddSeed_inv k e rawURL : crawl_inv k e → crawl_inv k (Engine.AddSeed e rawURL).2.
Proof.
  unfold Engine.AddSeed. destruct (types.NewRequest rawURL); [|done].
  apply AddRequest_inv.
Qed.

Lemma admit_all_inv k reqs : ∀ e, crawl_inv k e → crawl_inv k (Scheduler.admit_all e reqs).
Proof.
  unfold Scheduler.admit_all.
  induction reqs as [|r reqs IH]; intros e Hi; cbn [fold_left]; [done |].
  by apply IH, AddRequest_inv.
Qed.

Lemma run_callback_inv k req resp e cb :
  crawl_inv k e → crawl_inv k (Scheduler.run_callback req resp e cb).
Proof.
  intros Hi. unfold Scheduler.run_callback.
  destruct (cb.2 resp) as [[items newReqs]|]; [|done].
  apply admit_all_inv. by apply (crawl_inv_same k e).
Qed.

Lemma run_callbacks_inv k req resp cbs : ∀ e,
  crawl_inv k e → crawl_inv k (fold_left (Scheduler.run_callback req resp) cbs e).
Proof.
  induction cbs as [|cb cbs IH]; intros e Hi; cbn [fold_left]; [done |].
  by apply IH, run_callback_inv.
Qed.

Lemma run_parser_inv k req resp e :
  crawl_inv k e → crawl_inv k (Scheduler.run_parser req resp e).
Proof.
  intros Hi. unfold Scheduler.run_parser.
  destruct (Engine.parser e) as [parse|]; [|done].
  destruct (parse resp) as [[items links] err].
  apply admit_all_inv. destruct (_ =? _); [|done]. by apply (crawl_inv_same k e).
Qed.

Lemma handleFetchError_inv k e req err :
  crawl_inv (S k) e → admitted e req →
  crawl_inv k (Scheduler.handleFetchError e req err).
Proof.
  intros Hi Hreq. unfold Scheduler.handleFetchError.
  assert (Hperm : crawl_inv k
            (Engine.with_stats
               (Engine.with_stats e (Engine.add_RequestsFailed (Engine.stats e) 1))
               (Engine.add_ResponsesError
                  (Engine.stats
                     (Engine.with_stats e (Engine.add_RequestsFailed (Engine.stats e) 1)))
                  1))).
  { apply (crawl_inv_same k e); try done. by apply (crawl_inv_less (S k)); [lia |]. }
  destruct err as [fetchErr|]; [|done].
  destruct (_ && _); [|done].
  set (req' := types.with_Priority _ _).
  assert (Hreq' : admitted e req') by done.
  destruct (0 <? types.RetryAfter fetchErr)%Z;
    by apply (crawl_inv_push k e _ req').
Qed.

Lemma processRequest_inv k e req :
  crawl_inv (S k) e → admitted e req →
  crawl_inv k (Scheduler.processRequest e req).
Proof.
  intros Hi Hreq. unfold Scheduler.processRequest.
  destruct (Engine.fetchers e !! _) as [fetcher|].
  - destruct (fetcher req) as [resp|err].
    + apply run_parser_inv, run_callbacks_inv.
      apply (crawl_inv_same k e); try done. by apply (crawl_inv_less (S k)); [lia |].
    + apply handleFetchError_inv; [by apply (crawl_inv_same (S k) e) | done].
  - apply (crawl_inv_same k e); try done. by apply (crawl_inv_less (S k)); [lia |].
Qed.

Lemma Stop_inv k e : crawl_inv k e → crawl_inv k (Engine.Stop e).
Proof.
  intros Hi. unfold Engine.Stop. destruct (negb _); [done |].
  destruct Hi as ([Hh Hc] & Hall & Hcount & Hlen).
  exact (conj (conj Hh Hc) (conj Hall (conj Hcount Hlen))).
Qed.

Lemma worker_iteration_inv e : crawl_inv 0 e → crawl_inv 0 (Scheduler.worker_iteration e).
Proof.
  intros Hi. unfold Scheduler.worker_iteration.
  destruct Hi as (Hinv & Hall & Hcount & Hlen).
  pose proof (TryPop_spec (Engine.frontier e) Hinv) as Hpop.
  destruct (Frontier.TryPop (Engine.frontier e)) as [[req|] f];
    [|exact (conj Hinv (conj Hall (conj Hcount Hlen)))].
  destruct Hpop as (Hinv' & Hcl & Hp & _).
  assert (Hall' : Forall (admitted e) (req :: Frontier.Snapshot f)).
  { unfold Frontier.Snapshot in *. by rewrite <- Hp. }
  apply Forall_cons in Hall' as [Hreq Hall'].
  assert (Hlen' : Frontier.Len (Engine.frontier e) = S (Frontier.Len f)).
  { unfold Frontier.Len, priorityQueue.Len.
    apply Permutation_length in Hp. cbn [length] in Hp.
    by rewrite !length_fmap in Hp. }
  assert (Hi1 : crawl_inv 1
            (Engine.with_stats (Engine.with_frontier e f)
               (Engine.add_ActiveWorkers (Engine.stats (Engine.with_frontier e f)) 1))).
  { refine (conj Hinv' (conj Hall' (conj Hcount _))). cbn. lia. }
  match goal with
  | |- crawl_inv 0 (if _ then Engine.Stop ?e1 else _) =>
      assert (Hi2 : crawl_inv 0 e1)
  end.
  { match goal with
    | |- crawl_inv 0 (Engine.with_stats ?e2 _) => apply (crawl_inv_same 0 e2); try done
    end.
    by apply processRequest_inv. }
  destruct (_ && _); [by apply Stop_inv | done].
Qed.

Lemma run_engineOp_inv e op : crawl_inv 0 e → crawl_inv 0 (run_engineOp e op).
Proof.
  intros Hi. destruct op; cbn [run_engineOp].
  - by apply AddSeed_inv.
  - by apply AddRequest_inv.
  - by apply worker_iteration_inv.
  - destruct Hi as ([Hh Hc] & Hall & Hcount & Hlen).
    exact (conj (conj Hh Hc) (conj Hall (conj Hcount Hlen))).
  - unfold Engine.Start. by destruct (bool_decide _).
  - by apply Stop_inv.
  - unfold Engine.Pause. by destruct (bool_decide _).
  - unfold Engine.Resume. by destruct (bool_decide _).
Qed.

Lemma engine_after_inv ops : ∀ e, crawl_inv 0 e → crawl_inv 0 (engine_after e ops).
Proof.
  unfold engine_after.
  induction ops as [|op ops IH]; intros e Hi; cbn [fold_left]; [done |].
  by apply IH, run_engineOp_inv.
Qed.

Lemma engine_with_inv c client fetchers parser callbacks :
  crawl_inv 0 (engine_with c client fetchers parser callbacks).
Proof. split; [apply NewFrontier_inv |]. split; [constructor |]. by split. Qed.

(** X20. The queue never runs ahead of the deduplicator, as long as one
    thing happens at a time.  At every point of a run of the engine whose
    steps (the calls of its methods, the turns of its workers) do not
    overlap, whatever its fetchers, parser and callbacks do: every queued
    request has a URL that is marked as seen, urls_enqueued is the number
    of fingerprints in the deduplicator, and the queue is no longer than
    that.  (Two calls of AddRequest that overlap can both pass the test of
    the deduplicator; such runs are not covered.) *)
Theorem queued_urls_are_seen_and_counted (c : Engine.Config)
    (client : gostring → option RobotsManager.robotsData)
    (fetchers : gmap gostring Engine.Fetcher) (parser : option Engine.Parser)
    (callbacks : list (gostring * Engine.ResponseCallback))
    (ops : list engineOp) :
  let e := engine_after (engine_with c client fetchers parser callbacks) ops in
  Forall (λ r, Deduplicator.IsSeen (Engine.dedup e) (types.URLString r) = true)
         (Frontier.Snapshot (Engine.frontier e)) ∧
  Engine.URLsEnqueued (Engine.stats e)
    = int64.wrap (Z.of_nat (Deduplicator.Count (Engine.dedup e))) ∧
  Frontier.Len (Engine.frontier e) ≤ Deduplicator.Count (Engine.dedup e).
Proof.
  intros e.
  destruct (engine_after_inv ops _ (engine_with_inv c client fetchers parser callbacks))
    as (_ & Hall & Hcount & Hlen).
  fold e in Hall, Hcount, Hlen.
  split; [|split; [done | lia]].
  eapply Forall_impl; [exact Hall |]. by intros r [_ Hs].
Qed.

(** X21. No request deeper than MaxDepth is ever queued: in an engine
    whose links come from its parser, every request in the queue has a
    depth of at most MaxDepth at every point of a run, the retried
    requests included and also while the engine is paused.  (Proved for
    the runs whose steps do not overlap.) *)
Theorem no_queued_request_is_too_deep (c : Engine.Config)
    (client : gostring → option RobotsManager.robotsData)
    (fetchers : gmap gostring Engine.Fetcher) (parser : option Engine.Parser)
    (ops : list engineOp) :
  let e := engine_after (engine_with c client fetchers parser []) ops in
  Forall (λ r, (types.Depth r ≤ Engine.MaxDepth c)%Z)
         (Frontier.Snapshot (Engine.frontier e)).
Proof.
  intros e.
  destruct (engine_after_inv ops _ (engine_with_inv c client fetchers parser []))
    as (_ & Hall & _).
  destruct (engine_after_extends ops (engine_with c client fetchers parser []))
    as [Hc _].
  fold e in Hall, Hc.
  eapply Forall_impl; [exact Hall |]. intros r [Hd _]. by rewrite Hc in Hd.
Qed.

(** ** Admission is once and for all *)

(** X22. A URL is not admitted again by a later call.  When a call of
    AddRequest has admitted a request and has returned, then after
    whatever steps of the run follow, one at a time, a call of AddRequest
    refuses every request whose URL has the same canonical form, as a
    duplicate (or as too deep, when it is), and leaves the queue as it is.
    (A call that overlaps the admitting one is not covered: it can pass
    the test of the deduplicator before the URL is marked.) *)
Theorem admitted_url_is_refused_afterwards e req ops req' :
  (Engine.AddRequest e req).1 = None →
  Deduplicator.CanonicalizeURL (types.URLString req')
  = Deduplicator.CanonicalizeURL (types.URLString req) →
  let e1 := engine_after (Engine.AddRequest e req).2 ops in
  (Engine.AddRequest e1 req').1
  = Some (if (Engine.MaxDepth (Engine.cfg e) <? types.Depth req')%Z
          then types.ErrMaxDepth else types.ErrDuplicate) ∧
  Engine.frontier (Engine.AddRequest e1 req').2 = Engine.frontier e1.
Proof.
  intros Hok Hcanon e1.
  destruct (AddRequest_cases e req)
    as (Hc & _ & _ & _ & [([x Hx] & _) | (_ & _ & _ & Hd & _)]); [congruence |].
  destruct (engine_after_extends ops (Engine.AddRequest e req).2) as [Hc1 Hs1].
  fold e1 in Hc1, Hs1.
  assert (Hseen : Deduplicator.IsSeen (Engine.dedup e1) (types.URLString req') = true).
  { unfold Deduplicator.IsSeen. rewrite Hcanon. apply bool_decide_eq_true.
    apply Hs1. rewrite Hd. unfold Deduplicator.MarkSeen. cbn. set_solver. }
  unfold Engine.AddRequest. rewrite Hc1, Hc, Hseen.
  by destruct (_ <? _)%Z.
Qed.

(** ** The lifecycle *)

Lemma run_engineOp_rank e op :
  state_rank (Engine.state e) ≤ state_rank (Engine.state (run_engineOp e op)).
Proof.
  assert (Hstop : ∀ e0, state_rank (Engine.state e0)
                        ≤ state_rank (Engine.state (Engine.Stop e0))).
  { intros e0. unfold Engine.Stop.
    case_bool_decide as Hs; cbn; [rewrite Hs; cbn; lia | lia]. }
  assert (Hsteady : ∀ e0, steady e e0 → Engine.state e0 = Engine.state e).
  { intros e0 [_ Hl]. unfold lifecycle in Hl. congruence. }
  destruct op; cbn [run_engineOp].
  - by rewrite (Hsteady _ (AddSeed_steady e rawURL)).
  - by rewrite (Hsteady _ (AddRequest_steady e req)).
  - destruct (worker_iteration_cases e) as (e1 & He1 & [-> | ->]).
    + by rewrite (Hsteady _ He1).
    + rewrite <- (Hsteady _ He1). apply Hstop.
  - done.
  - unfold Engine.Start. case_bool_decide as Hs; cbn; [rewrite Hs; cbn; lia | lia].
  - apply Hstop.
  - unfold Engine.Pause. case_bool_decide as Hs; cbn; [rewrite Hs; cbn; lia | lia].
  - unfold Engine.Resume. case_bool_decide as Hs; cbn; [rewrite Hs; cbn; lia | lia].
Qed.

(** X23. The lifecycle goes one way: Idle, then Running or Paused, then
    Stopping.  No call and no turn of a worker, paused or not, ever takes
    the engine back to an earlier stage, so an engine that has been
    started cannot be started again and one that is stopping stays so. *)
Theorem lifecycle_goes_one_way e ops :
  state_rank (Engine.state e) ≤ state_rank (Engine.state (engine_after e ops)).
Proof.
  revert e. unfold engine_after.
  induction ops as [|op ops IH]; intros e; cbn [fold_left]; [done |].
  etrans; [apply run_engineOp_rank | apply IH].
Qed.

Lemma steady_ok e e' : steady e e' → lifecycle_ok e → lifecycle_ok e'.
Proof.
  intros [_ Hl] Hok. unfold lifecycle in Hl. injection Hl as Hs Hp Hc Hf.
  unfold lifecycle_ok. by rewrite Hs, Hp, Hc, Hf.
Qed.

Ltac flags Hs :=
  cbn; repeat split; intros; try done;
  repeat case_bool_decide; congruence.

Lemma Stop_ok e : lifecycle_ok e → lifecycle_ok (Engine.Stop e).
Proof.
  intros (Hp & Hc & Hf). unfold Engine.Stop, lifecycle_ok.
  destruct (decide (Engine.state e = Engine.StateRunning)) as [Hs|Hs].
  - rewrite (bool_decide_eq_true_2 _ Hs). rewrite Hs in Hp. flags Hs.
  - by rewrite (bool_decide_eq_false_2 _ Hs).
Qed.

Lemma run_engineOp_ok e op : lifecycle_ok e → lifecycle_ok (run_engineOp e op).
Proof.
  intros Hok. destruct op; cbn [run_engineOp].
  - apply (steady_ok e); [apply AddSeed_steady | done].
  - apply (steady_ok e); [apply AddRequest_steady | done].
  - destruct (worker_iteration_cases e) as (e1 & He1 & [-> | ->]).
    + by apply (steady_ok e).
    + apply Stop_ok. by apply (steady_ok e).
  - destruct Hok as (Hp & Hc & Hf). by repeat split.
  - destruct Hok as (Hp & Hc & Hf). unfold Engine.Start, lifecycle_ok.
    destruct (decide (Engine.state e = Engine.StateIdle)) as [Hs|Hs].
    + rewrite (bool_decide_eq_true_2 _ Hs). rewrite Hs in Hp, Hc. flags Hs.
    + by rewrite (bool_decide_eq_false_2 _ Hs).
  - by apply Stop_ok.
  - destruct Hok as (Hp & Hc & Hf). unfold Engine.Pause, lifecycle_ok.
    destruct (decide (Engine.state e = Engine.StateRunning)) as [Hs|Hs].
    + rewrite (bool_decide_eq_true_2 _ Hs). rewrite Hs in Hp, Hc. flags Hs.
    + by rewrite (bool_decide_eq_false_2 _ Hs).
  - destruct Hok as (Hp & Hc & Hf). unfold Engine.Resume, lifecycle_ok.
    destruct (decide (Engine.state e = Engine.StatePaused)) as [Hs|Hs].
    + rewrite (bool_decide_eq_true_2 _ Hs). rewrite Hs in Hp, Hc. flags Hs.
    + by rewrite (bool_decide_eq_false_2 _ Hs).
Qed.

(** X24. Between calls, the flags follow the state.  At every point of
    a run of the engine whose steps do not overlap, so that each call of
    Start, Stop, Pause and Resume has returned before the next step
    begins: the scheduler's pause flag is set exactly when the state is
    Paused, the context is cancelled exactly when the state is Stopping,
    and in the state Stopping the frontier is closed.  (Inside a call the
    state is swapped before the flag is stored, and Wait, which ends the
    run, also cancels the context; neither is covered.) *)
Theorem lifecycle_flags_follow_state (c : Engine.Config)
    (client : gostring → option RobotsManager.robotsData)
    (fetchers : gmap gostring Engine.Fetcher) (parser : option Engine.Parser)
    (callbacks : list (gostring * Engine.ResponseCallback))
    (ops : list engineOp) :
  let e := engine_after (engine_with c client fetchers parser callbacks) ops in
  Engine.paused e = bool_decide (Engine.state e = Engine.StatePaused) ∧
  Engine.cancelled e = bool_decide (Engine.state e = Engine.StateStopping) ∧
  (Engine.state e = Engine.StateStopping →
   Frontier.IsClosed (Engine.frontier e) = true).
Proof.
  cbv zeta. unfold engine_after.
  assert (Hgen : ∀ e, lifecycle_ok e → lifecycle_ok (fold_left run_engineOp ops e)).
  { induction ops as [|op ops IH]; intros e Hok; cbn [fold_left]; [done |].
    by apply IH, run_engineOp_ok. }
  by apply Hgen.
Qed.

End EngineMore.

Lemma admitted_url_is_refused_afterwards_witness :
  let e := engine_with cfg0 (λ _, None) ∅ None [] in
  let e1 :=
    @engine_after plainLib
      (@Engine.AddRequest plainLib e (request_for "https://Example.COM/Path?b=2&a=1")).2
      [EStart; EWork; EAddSeed (str "http://other.example/")] in
  (@Engine.AddRequest plainLib e1 (request_for "https://example.com/Path/?a=1&b=2#top")).1
  = Some types.ErrDuplicate.
Proof.
  cbv zeta.
  refine (proj1 (@admitted_url_is_refused_afterwards plainLib
                   (engine_with cfg0 (λ _, None) ∅ None [])
                   (request_for "https://Example.COM/Path?b=2&a=1")
                   [EStart; EWork; EAddSeed (str "http://other.example/")]
                   (request_for "https://example.com/Path/?a=1&b=2#top") _ _)).
  - vm_compute. reflexivity.
  - vm_compute. reflexivity.
Defined.

Lemma lifecycle_flags_follow_state_witness :
  Frontier.IsClosed
    (Engine.frontier
       (@engine_after plainLib (engine_with cfg0 (λ _, None) ∅ None [])
          [EStart; EPause; EResume; EStop; EStart]))
  = true.
Proof.
  apply (@lifecycle_flags_follow_state plainLib cfg0 (λ _, None) ∅ None []
           [EStart; EPause; EResume; EStop; EStart]).
  vm_compute. reflexivity.
Defined.

(** * The scheduler's throttle and idle monitor *)
Section SchedulerMore.
Local Open Scope Z_scope.

Implicit Types (throttle : gmap gostring Z) (domain : gostring).

Lemma applyThrottle_other delay throttle now overshoot domain d :
  d ≠ domain →
  (Scheduler.applyThrottle delay throttle now overshoot d).1 !! domain
  = throttle !! domain.
Proof.
  intros Hd. unfold Scheduler.applyThrottle.
  destruct (delay <=? 0); [done |]. cbn [fst]. by rewrite lookup_insert_ne.
Qed.

Lemma throttle_after_other delay calls domain : ∀ throttle,
  Forall (λ c, c.1.1 ≠ domain) calls →
  throttle_after delay calls throttle !! domain = throttle !! domain.
Proof.
  unfold throttle_after.
  induction calls as [|[[d now] o] calls IH]; intros throttle Hc; [done |].
  apply Forall_cons in Hc as [Hd Hc]. cbn [fold_left]. rewrite IH by done.
  by apply applyThrottle_other.
Qed.

(** X18. Politeness: two fetches of one domain are at least the
    politeness delay apart.  Whatever calls for other domains come in
    between, a call of applyThrottle that is entered after an earlier call
    for the same domain has returned, returns no sooner than the delay
    after that return; and for a domain that has not been fetched it does
    not sleep. *)
Theorem applyThrottle_spacing (delay : Z) (throttle : gmap gostring Z)
    (domain : gostring) (now1 overshoot1 now2 overshoot2 : Z)
    (between : list (gostring * Z * Z)) :
  0 < delay → int64.in_range delay → 0 ≤ overshoot2 →
  Forall (λ c, c.1.1 ≠ domain) between →
  let first := Scheduler.applyThrottle delay throttle now1 overshoot1 domain in
  let second :=
    Scheduler.applyThrottle delay (throttle_after delay between first.1)
      now2 overshoot2 domain in
  (throttle !! domain = None → 0 ≤ now1 → first.2 = now1 + overshoot1) ∧
  (first.2 ≤ now2 → first.2 + delay ≤ second.2).
Proof.
  intros Hd Hr Ho Hb first second. split.
  - intros Hn Hnow. unfold first, Scheduler.applyThrottle.
    destruct (Z.leb_spec delay 0); [lia |]. rewrite Hn. cbn [default snd].
    unfold time.Since, time.zeroTime, time.Second, int64.min, int64.max.
    unfold int64.in_range, int64.min, int64.max in Hr.
    destruct (Z.ltb_spec (now1 - -62135596800 * 1000000000) (- 2 ^ 63)); [lia |].
    destruct (Z.ltb_spec (2 ^ 63 - 1) (now1 - -62135596800 * 1000000000)); [|lia].
    destruct (Z.ltb_spec (2 ^ 63 - 1) delay); lia.
  - intros Hle.
    assert (Hlast : throttle_after delay between first.1 !! domain = Some first.2).
    { rewrite throttle_after_other by done. unfold first, Scheduler.applyThrottle.
      destruct (Z.leb_spec delay 0); [lia |]. cbn [fst snd].
      by rewrite lookup_insert_eq. }
    unfold second, Scheduler.applyThrottle at 1.
    destruct (Z.leb_spec delay 0); [lia |]. rewrite Hlast. cbn [default snd].
    remember (first.2) as t1 eqn:Ht1. clear Ht1.
    unfold time.Since, id.
    assert (Hmin : int64.min = - 2 ^ 63) by reflexivity.
    assert (Hmax : int64.max = 2 ^ 63 - 1) by reflexivity.
    unfold int64.in_range in Hr.
    destruct (Z.ltb_spec (now2 - t1) int64.min); [lia |].
    destruct (Z.ltb_spec int64.max (now2 - t1)).
    + destruct (Z.ltb_spec int64.max delay); lia.
    + destruct (Z.ltb_spec (now2 - t1) delay); [|lia].
      rewrite wrap_in_range by (unfold int64.in_range; lia). lia.
Qed.

Lemma applyThrottle_spacing_witness :
  let first := Scheduler.applyThrottle time.Second ∅ 100 0 (str "a.example") in
  let second :=
    Scheduler.applyThrottle time.Second
      (throttle_after time.Second [(str "b.example", 150, 0)] first.1)
      200 7 (str "a.example") in
  first.2 = 100 + 0 ∧ second.2 = 100 + time.Second + 7.
Proof.
  pose proof (applyThrottle_spacing time.Second ∅ (str "a.example") 100 0 200 7
                [(str "b.example", 150, 0)]) as Hs.
  cbv zeta in Hs.
  destruct Hs as [H1 H2].
  - reflexivity.
  - split; discriminate.
  - lia.
  - repeat constructor. discriminate.
  - split; [apply H1; [reflexivity | lia] |]. vm_compute. reflexivity.
Defined.

(** ** The idle monitor *)

Lemma idle_prefix_three c events :
  idle_prefix c 3 events → three_idle_ticks c events.
Proof.
  intros (l & post & -> & Hl & Hi).
  destruct l as [|t1 [|t2 [|t3 [|]]]]; try discriminate Hl.
  apply Forall_cons in Hi as [H1 Hi]. apply Forall_cons in Hi as [H2 Hi].
  apply Forall_cons in Hi as [H3 _].
  by exists [], t1, t2, t3, post.
Qed.

Lemma three_idle_ticks_cons c ev events :
  three_idle_ticks c events → three_idle_ticks c (ev :: events).
Proof.
  intros (pre & t1 & t2 & t3 & post & -> & H1 & H2 & H3).
  by exists (ev :: pre), t1, t2, t3, post.
Qed.

Lemma streak_add (s : Z) : 0 ≤ s < 3 → int64.add s 1 = s + 1.
Proof.
  intros Hs. unfold int64.add, int64.wrap.
  replace (s + 1 + 2 ^ 63) with (s + 1 + 2 ^ 63 + 0 * 2 ^ 64) by lia.
  rewrite Z.mod_small; lia.
Qed.

Lemma idleMonitor_loop_closes c events : ∀ s,
  Forall (λ ev, is_Tick ev = true) events → 0 ≤ s < 3 →
  Scheduler.idleMonitor_loop c s events = Scheduler.ClosesFrontier →
  idle_prefix c (Z.to_nat (3 - s)) events ∨ three_idle_ticks c events.
Proof.
  induction events as [|ev events IH]; intros s Ht Hs;
    cbn [Scheduler.idleMonitor_loop]; [done |].
  apply Forall_cons in Ht as [Hev Ht].
  destruct ev as [| |idle queueLen]; [done | done |].
  destruct ((c <=? idle) && (queueLen =? 0)%nat) eqn:Hidle.
  - rewrite streak_add by done.
    destruct (Z.leb_spec 3 (s + 1)).
    + intros _. left. exists [Scheduler.Tick idle queueLen], events.
      split; [done |]. split; [cbn [length]; lia |]. by repeat constructor.
    + intros Hc.
      destruct (IH (s + 1) Ht ltac:(lia) Hc) as [(l & post & -> & Hl & Hi) | H3].
      * left. exists (Scheduler.Tick idle queueLen :: l), post.
        split; [done |]. split; [cbn [length]; lia | by constructor].
      * right. by apply three_idle_ticks_cons.
  - intros Hc. right. apply three_idle_ticks_cons.
    destruct (IH 0 Ht ltac:(lia) Hc) as [Hp | H3]; [by apply idle_prefix_three | done].
Qed.

Lemma idleMonitor_loop_idle c events : ∀ s,
  Forall (λ ev, is_Tick ev = true) events → 0 ≤ s < 3 →
  idle_prefix c (Z.to_nat (3 - s)) events ∨ three_idle_ticks c events →
  Scheduler.idleMonitor_loop c s events = Scheduler.ClosesFrontier.
Proof.
  induction events as [|ev events IH]; intros s Ht Hs HP.
  - exfalso.
    destruct HP as [(l & post & Heq & Hl & _) | (pre & t1 & t2 & t3 & post & Heq & _)].
    + symmetry in Heq. apply app_eq_nil in Heq as [-> _]. cbn [length] in Hl. lia.
    + by destruct pre.
  - apply Forall_cons in Ht as [Hev Ht].
    destruct ev as [| |idle queueLen]; [done | done |].
    cbn [Scheduler.idleMonitor_loop].
    destruct ((c <=? idle) && (queueLen =? 0)%nat) eqn:Hidle.
    + rewrite streak_add by done.
      destruct (Z.leb_spec 3 (s + 1)); [done |].
      apply IH; [done | lia |].
      destruct HP as [(l & post & Heq & Hl & Hi)
                     | (pre & t1 & t2 & t3 & post & Heq & H1 & H2 & H3)].
      * destruct l as [|x l]; [cbn [length] in Hl; lia |].
        injection Heq as <- ->. left. exists l, post.
        split; [done |]. split; [cbn [length] in Hl; lia |].
        by apply Forall_cons in Hi as [_ ?].
      * destruct pre as [|p pre]; cbn [app] in Heq; injection Heq as <- ->.
        -- left. assert (s = 0 ∨ s = 1) as [-> | ->] by lia.
           ++ exists [t2; t3], post. split; [done |]. split; [done |].
              by repeat constructor.
           ++ exists [t2], (t3 :: post). split; [done |]. split; [done |].
              by repeat constructor.
        -- right. by exists pre, t1, t2, t3, post.
    + apply IH; [done | lia |].
      destruct HP as [(l & post & Heq & Hl & Hi)
                     | (pre & t1 & t2 & t3 & post & Heq & H1 & H2 & H3)].
      * destruct l as [|x l]; [cbn [length] in Hl; lia |].
        injection Heq as <- ->. apply Forall_cons in Hi as [Hx _].
        cbn [idle_tick] in Hx. congruence.
      * destruct pre as [|p pre]; cbn [app] in Heq; injection Heq as <- ->.
        -- cbn [idle_tick] in H1. congruence.
        -- right. by exists pre, t1, t2, t3, post.
Qed.

(** X19. The idle monitor ends the crawl after three idle ticks in a row,
    and only then: as long as neither the context nor the scheduler is
    done, idleMonitor closes the frontier exactly when three consecutive
    ticks have found every worker idle and the frontier empty; a busy
    tick in between starts the count again. *)
Theorem idleMonitor_closes_after_three_idle_ticks (concurrency : Z)
    (events : list Scheduler.monitorEvent) :
  Forall (λ ev, is_Tick ev = true) events →
  (Scheduler.idleMonitor concurrency events = Scheduler.ClosesFrontier
   ↔ three_idle_ticks concurrency events).
Proof.
  intros Ht. unfold Scheduler.idleMonitor. split.
  - intros Hc.
    destruct (idleMonitor_loop_closes concurrency events 0 Ht ltac:(lia) Hc)
      as [Hp | H3]; [by apply idle_prefix_three | done].
  - intros H3. apply idleMonitor_loop_idle; [done | lia | by right].
Qed.

Lemma idleMonitor_closes_after_three_idle_ticks_witness :
  Scheduler.idleMonitor 2
    [Scheduler.Tick 2 0; Scheduler.Tick 2 0; Scheduler.Tick 1 0;
     Scheduler.Tick 2 0; Scheduler.Tick 2 1; Scheduler.Tick 2 0;
     Scheduler.Tick 3 0; Scheduler.Tick 2 0; Scheduler.Tick 0 5]
  = Scheduler.ClosesFrontier.
Proof.
  apply idleMonitor_closes_after_three_idle_ticks.
  - by repeat constructor.
  - exists [Scheduler.Tick 2 0; Scheduler.Tick 2 0; Scheduler.Tick 1 0;
            Scheduler.Tick 2 0; Scheduler.Tick 2 1],
      (Scheduler.Tick 2 0), (Scheduler.Tick 3 0), (Scheduler.Tick 2 0),
      [Scheduler.Tick 0 5].
    by repeat split.
Defined.

End SchedulerMore.

(** * Checkpoints *)
Section CheckpointMore.
Context `{GoLib}.

Implicit Types (f : Frontier.t) (d : Deduplicator.t) (s : Engine.Stats)
  (data : CheckpointManager.checkpointData).

Lemma restore_fold (urls : list CheckpointManager.checkpointReq) : ∀ f,
  let f' :=
    fold_left
      (λ frontier cr,
         match CheckpointManager.newRequestFromCheckpoint cr with
         | None => frontier
         | Some req => Frontier.Push frontier req
         end)
      urls f in
  Frontier.IsClosed f' = Frontier.IsClosed f ∧
  Frontier.Snapshot f'
  ≡ₚ Frontier.Snapshot f ++
     (if Frontier.IsClosed f then []
      else omap CheckpointManager.newRequestFromCheckpoint urls).
Proof.
  induction urls as [|cr urls IH]; intros f; cbn [fold_left].
  - split; [done |]. destruct (Frontier.IsClosed f); by rewrite app_nil_r.
  - cbv zeta in IH.
    assert (Hcons : omap CheckpointManager.newRequestFromCheckpoint (cr :: urls)
                    = match CheckpointManager.newRequestFromCheckpoint cr with
                      | Some req => req :: omap CheckpointManager.newRequestFromCheckpoint urls
                      | None => omap CheckpointManager.newRequestFromCheckpoint urls
                      end) by reflexivity.
    rewrite Hcons. clear Hcons.
    destruct (CheckpointManager.newRequestFromCheckpoint cr) as [req|]; [|apply IH].
    destruct (IH (Frontier.Push f req)) as [Hc Hp].
    rewrite Hc, Hp. unfold Frontier.IsClosed, Frontier.Snapshot.
    destruct (Frontier.closed f) eqn:Hcl.
    + assert (Hpush : Frontier.Push f req = f)
        by (unfold Frontier.Push; by rewrite Hcl).
      by rewrite Hpush, Hcl.
    + assert (Hcl' : Frontier.closed (Frontier.Push f req) = false)
        by (unfold Frontier.Push; by rewrite Hcl).
      rewrite Hcl'. split; [done |].
      rewrite (Push_open_requests f req Hcl). by rewrite <- Permutation_middle.
Qed.

Lemma newRequestFromCheckpoint_fields cr req :
  CheckpointManager.newRequestFromCheckpoint cr = Some req →
  types.URL req = url.Parse (CheckpointManager.cr_URL cr) ∧
  types.Depth req = CheckpointManager.cr_Depth cr ∧
  types.Priority req = CheckpointManager.cr_Priority cr ∧
  types.ParentURL req = CheckpointManager.cr_ParentURL cr ∧
  types.RetryCount req = 0%Z ∧ types.MaxRetries req = 3%Z ∧
  types.Method req = str "GET".
Proof.
  unfold CheckpointManager.newRequestFromCheckpoint, types.NewRequest.
  destruct (url.Parse (CheckpointManager.cr_URL cr)) as [u|]; [|done].
  cbn. intros [= <-]. by repeat split.
Qed.

(** X27. Load adds to what is there.  Whatever the checkpoint holds and
    whatever the frontier and the deduplicator hold already: the
    deduplicator gets the checkpoint's fingerprints in addition to its
    own; an open frontier gets, in addition to its requests, one request
    for every entry whose URL parses, and a closed frontier gets none;
    and the counters items_dropped and urls_filtered, which a checkpoint
    does not hold, stay as they are. *)
Theorem Load_adds_to_what_is_there data f d s :
  let loaded := CheckpointManager.Load data f d s in
  Deduplicator.seen loaded.1.2
  = Deduplicator.seen d ∪ list_to_set (CheckpointManager.SeenHashes data) ∧
  Frontier.IsClosed loaded.1.1 = Frontier.IsClosed f ∧
  Frontier.Snapshot loaded.1.1
  ≡ₚ Frontier.Snapshot f ++
     (if Frontier.IsClosed f then []
      else omap CheckpointManager.newRequestFromCheckpoint
             (CheckpointManager.FrontierURLs data)) ∧
  Engine.ItemsDropped loaded.2 = Engine.ItemsDropped s ∧
  Engine.URLsFiltered loaded.2 = Engine.URLsFiltered s.
Proof.
  cbv zeta. unfold CheckpointManager.Load. cbn [fst snd].
  destruct (restore_fold (CheckpointManager.FrontierURLs data) f) as [Hc Hp].
  split; [apply Import_union |]. by repeat split.
Qed.

Lemma omap_length_le {A B} (g : A → option B) (l : list A) :
  length (omap g l) ≤ length l.
Proof.
  induction l as [|x l IH]; [done |].
  change (omap g (x :: l))
    with (match g x with Some y => y :: omap g l | None => omap g l end).
  destruct (g x); cbn [length]; lia.
Qed.

Lemma omap_checkpoint_of (reqs : list types.Request) :
  omap CheckpointManager.newRequestFromCheckpoint (checkpoint_of <$> reqs)
  = omap restored reqs.
Proof.
  induction reqs as [|r reqs IH]; [done |].
  rewrite fmap_cons.
  change (omap CheckpointManager.newRequestFromCheckpoint
            (checkpoint_of r :: (checkpoint_of <$> reqs)))
    with (match CheckpointManager.newRequestFromCheckpoint (checkpoint_of r) with
          | Some x => x :: omap CheckpointManager.newRequestFromCheckpoint
                             (checkpoint_of <$> reqs)
          | None => omap CheckpointManager.newRequestFromCheckpoint
                      (checkpoint_of <$> reqs)
          end).
  by rewrite IH.
Qed.

Lemma Load_adds_to_restore f d s :
  (CheckpointManager.Load (CheckpointManager.Save f d s)
     Frontier.New Deduplicator.New Engine.zeroStats).1.2 = d ∧
  Frontier.Snapshot
    (CheckpointManager.Load (CheckpointManager.Save f d s)
       Frontier.New Deduplicator.New Engine.zeroStats).1.1
  ≡ₚ omap restored (Frontier.Snapshot f).
Proof.
  unfold CheckpointManager.Load. cbn [fst snd].
  split.
  - destruct d as [sd]. unfold Deduplicator.Import. f_equal.
    cbn [Deduplicator.seen Deduplicator.New CheckpointManager.Save
         CheckpointManager.SeenHashes].
    rewrite fold_insert_union. unfold Deduplicator.Export. cbn [Deduplicator.seen].
    apply leibniz_equiv. rewrite list_to_set_elements. set_solver.
  - destruct (restore_fold
                (CheckpointManager.FrontierURLs (CheckpointManager.Save f d s))
                Frontier.New) as [_ Hp].
    cbv zeta in Hp. rewrite Hp. cbn [Frontier.IsClosed Frontier.New Frontier.closed].
    cbn [Frontier.Snapshot Frontier.pq fmap list_fmap app].
    unfold CheckpointManager.Save. cbn [CheckpointManager.FrontierURLs].
    change (λ req : types.Request,
              {| CheckpointManager.cr_URL := types.URLString req;
                 CheckpointManager.cr_Depth := types.Depth req;
                 CheckpointManager.cr_Priority := types.Priority req;
                 CheckpointManager.cr_ParentURL := types.ParentURL req |})
      with checkpoint_of.
    by rewrite omap_checkpoint_of.
Qed.

(** X28. What a checkpoint keeps and what it forgets.  When the data that
    Save collects from a frontier, a deduplicator and the counters are
    loaded into a new frontier and a new deduplicator, the deduplicator
    is the saved one and the seven saved counters are back, items_dropped
    and urls_filtered being zero; the frontier holds one request for each
    saved request whose URL, as printed, parses again, with the depth,
    the priority and the parent URL of the saved one, and with its retry
    count back at zero. *)
Theorem checkpoint_round_trip f d s :
  let loaded :=
    CheckpointManager.Load (CheckpointManager.Save f d s)
      Frontier.New Deduplicator.New Engine.zeroStats in
  loaded.1.2 = d ∧
  Frontier.Snapshot loaded.1.1 ≡ₚ omap restored (Frontier.Snapshot f) ∧
  Frontier.Len loaded.1.1 ≤ Frontier.Len f ∧
  (∀ req req', restored req = Some req' →
     types.URL req' = url.Parse (types.URLString req) ∧
     types.Depth req' = types.Depth req ∧
     types.Priority req' = types.Priority req ∧
     types.ParentURL req' = types.ParentURL req ∧
     types.RetryCount req' = 0%Z) ∧
  loaded.2
  = Engine.mkStats (Engine.RequestsSent s) (Engine.RequestsFailed s)
      (Engine.ResponsesOK s) (Engine.ResponsesError s) (Engine.ItemsScraped s) 0
      (Engine.URLsEnqueued s) 0 (Engine.BytesDownloaded s) 0.
Proof.
  cbv zeta.
  destruct (Load_adds_to_restore f d s) as (Hd & Hp).
  assert (Hlen : Frontier.Len
                   (CheckpointManager.Load (CheckpointManager.Save f d s)
                      Frontier.New Deduplicator.New Engine.zeroStats).1.1
                 ≤ Frontier.Len f).
  { apply Permutation_length in Hp. unfold Frontier.Snapshot in Hp.
    rewrite length_fmap in Hp. unfold Frontier.Len, priorityQueue.Len. rewrite Hp.
    etrans; [apply omap_length_le |]. by rewrite length_fmap. }
  split; [done |]. split; [done |]. split; [done |]. split; [|done].
  intros req req' Hr. unfold restored in Hr.
  apply newRequestFromCheckpoint_fields in Hr as (H1 & H2 & H3 & H4 & H5 & _).
  done.
Qed.

End CheckpointMore.

Lemma checkpoint_round_trip_witness :
  let retried_twice :=
    types.with_RetryCount (types.with_Depth (request_for "http://h/a") 4) 2 in
  Frontier.Snapshot
    (@CheckpointManager.Load plainLib
       (CheckpointManager.Save (Frontier.Push Frontier.New retried_twice)
          Deduplicator.New Engine.zeroStats)
       Frontier.New Deduplicator.New Engine.zeroStats).1.1
  ≡ₚ [types.with_Depth (request_for "http://h/a") 4].
Proof.
  intros retried_twice.
  destruct (@checkpoint_round_trip plainLib (Frontier.Push Frontier.New retried_twice)
              Deduplicator.New Engine.zeroStats) as (_ & Hp & _).
  rewrite Hp. vm_compute. reflexivity.
Defined.

(** * The items on their way to the storage *)
Section ItemsMore.

Lemma iter_add_wrap (n : nat) (x : Z) :
  Nat.iter n (λ x, int64.add x 1) (int64.wrap x) = int64.wrap (x + Z.of_nat n).
Proof.
  induction n as [|n IH]; [by rewrite Z.add_0_r |].
  rewrite Nat.iter_succ, IH.
  unfold int64.add, int64.wrap.
  replace ((x + Z.of_nat n + 2 ^ 63) `mod` 2 ^ 64 - 2 ^ 63 + 1 + 2 ^ 63)%Z
    with ((x + Z.of_nat n + 2 ^ 63) `mod` 2 ^ 64 + 1)%Z by lia.
  rewrite Zplus_mod_idemp_l. do 2 f_equal. lia.
Qed.

Lemma processItems_fold (pipeline : option Engine.Pipeline) (items : list types.Item) :
  ∀ (results : list (option types.Item)) (s : Engine.Stats),
    let r :=
      fold_left
        (λ '(results, s) item,
           match pipeline with
           | Some process =>
               match process item with
               | Engine.ProcessError => (results, Engine.add_ItemsDropped s 1)
               | Engine.Processed item =>
                   (results ++ [item], Engine.add_ItemsScraped s 1)
               end
           | None => (results ++ [Some item], Engine.add_ItemsScraped s 1)
           end)
        items (results, s) in
    let sent := omap (forwarded pipeline) items in
    r.1 = results ++ sent ∧
    Engine.ItemsScraped r.2
    = Nat.iter (length sent) (λ x, int64.add x 1) (Engine.ItemsScraped s) ∧
    Engine.ItemsDropped r.2
    = Nat.iter (length items - length sent) (λ x, int64.add x 1) (Engine.ItemsDropped s) ∧
    length sent ≤ length items.
Proof.
  induction items as [|item items IH]; intros results s.
  - cbn. by rewrite app_nil_r.
  - cbn [fold_left]. cbv zeta in IH.
    assert (Hcons : omap (forwarded pipeline) (item :: items)
                    = match forwarded pipeline item with
                      | Some y => y :: omap (forwarded pipeline) items
                      | None => omap (forwarded pipeline) items
                      end) by reflexivity.
    rewrite Hcons. clear Hcons.
    destruct pipeline as [process|].
    + assert (Hf : forwarded (Some process) item
                   = match process item with
                     | Engine.Processed item => Some item
                     | Engine.ProcessError => None
                     end) by reflexivity.
      rewrite Hf. clear Hf.
      destruct (process item) as [item'|].
      * destruct (IH (results ++ [item']) (Engine.add_ItemsScraped s 1))
          as (-> & -> & -> & Hle).
        cbn [length]. rewrite <- app_assoc, Nat.iter_succ_r.
        repeat split; try done. apply le_n_S, Hle.
      * destruct (IH results (Engine.add_ItemsDropped s 1)) as (-> & -> & -> & Hle).
        repeat split; try done; [|exact (Nat.le_le_succ_r _ _ Hle)].
        replace (S (length items) - length (omap (forwarded (Some process)) items))
          with (S (length items - length (omap (forwarded (Some process)) items)))
          by lia.
        by rewrite Nat.iter_succ_r.
    + assert (Hf : forwarded None item = Some (Some item)) by reflexivity.
      rewrite Hf. clear Hf.
      destruct (IH (results ++ [Some item]) (Engine.add_ItemsScraped s 1))
        as (-> & -> & -> & Hle).
      cbn [length]. rewrite <- app_assoc, Nat.iter_succ_r.
      repeat split; try done. apply le_n_S, Hle.
Qed.

(** X25. Every item is counted once.  Of the items that processItems
    receives, those for which the pipeline returns an error are dropped
    and counted in items_dropped, and the others are sent on, in their
    order and as the pipeline returns them, and counted in
    items_scraped. *)
Theorem processItems_counts_every_item (pipeline : option Engine.Pipeline)
    (items : list types.Item) (s : Engine.Stats) :
  int64.in_range (Engine.ItemsScraped s) →
  int64.in_range (Engine.ItemsDropped s) →
  let results := (Engine.processItems pipeline items s).1 in
  let s' := (Engine.processItems pipeline items s).2 in
  results = omap (forwarded pipeline) items ∧
  length results ≤ length items ∧
  Engine.ItemsScraped s'
  = int64.wrap (Engine.ItemsScraped s + Z.of_nat (length results)) ∧
  Engine.ItemsDropped s'
  = int64.wrap (Engine.ItemsDropped s + Z.of_nat (length items - length results)).
Proof.
  intros Hs Hd. cbv zeta. unfold Engine.processItems.
  destruct (processItems_fold pipeline items [] s) as (H1 & H2 & H3 & H4).
  rewrite H1, H2, H3. cbn [app].
  rewrite <- (wrap_in_range _ Hs) at 1. rewrite <- (wrap_in_range _ Hd) at 1.
  by rewrite !iter_add_wrap.
Qed.



End ItemsMore.

Lemma processItems_counts_every_item_witness :
  let drop_deep : Engine.Pipeline :=
    λ item, if (types.Item_Depth item =? 0)%Z
            then Engine.Processed (Some item) else Engine.ProcessError in
  let a := types.mkItem (str "http://h/a") [] 0 in
  let b := types.mkItem (str "http://h/b") [] 1 in
  let c := types.mkItem (str "http://h/c") [] 0 in
  (Engine.processItems (Some drop_deep) [a; b; c] Engine.zeroStats).1
  = [Some a; Some c].
Proof.
  intros drop_deep a b c.
  destruct (processItems_counts_every_item (Some drop_deep) [a; b; c] Engine.zeroStats)
    as (H1 & _).
  - vm_compute. split; discriminate.
  - vm_compute. split; discriminate.
  - rewrite H1. reflexivity.
Defined.

